(** * bed: match tracking and patch application

    A shallow embedding of [main.go] of benbjohnson/bed (the Matcher, the
    text Serializer and the Patcher) together with the properties of the
    design document that can be stated about it.

    Conventions of the embedding:
    - a Go [[]byte] is a list of 8-bit characters; where the capacity of
      a slice matters (three-index slice expressions) the slice carries
      the bytes of its backing array that lie behind its length;
    - a Go [int] is a [Z] and its arithmetic wraps at 64 bits;
    - a [*Match] is an index into a heap of records, so that the in-place
      update [matches[j].Pos += ...] is a heap update;
    - the file system maps a path to a file (contents and mode); how a
      call of [ioutil.WriteFile] ends is decided by the disk, and
      [applyPathMatches] and [ApplyMatches] are the Patcher on a disk on
      which every write succeeds, [applyPathMatches_on] and
      [ApplyMatches_on] the Patcher on any disk;
    - [regexp] and [encoding/json] are libraries outside the repository:
      the user's compiled pattern is the function its [FindAllIndex]
      computes, and the JSON codec follows the documented behaviour of
      the standard library. *)

From Stdlib Require Import ZArith Ascii String List Lia Bool.
From Stdlib Require Import DecimalString DecimalZ DecimalPos DecimalFacts.
From stdpp Require Import base option list gmap strings.

Local Open Scope Z_scope.

(** ** Bytes and integers *)

Abbreviation bytes := (list ascii).

(** The bytes of a string literal. *)
Definition B (s : string) : bytes := list_ascii_of_string s.

Definition LF : ascii := "010"%char.

Definition int_min : Z := - 2 ^ 63.
Definition int_max : Z := 2 ^ 63 - 1.

(** Values of Go's [int] on a 64-bit platform. *)
Definition is_int (z : Z) : Prop := int_min <= z <= int_max.

Definition int_wrap (z : Z) : Z := (z + 2 ^ 63) mod 2 ^ 64 - 2 ^ 63.
Definition int_add (a b : Z) : Z := int_wrap (a + b).
Definition int_sub (a b : Z) : Z := int_wrap (a - b).

(** [s] without its prefix [p], if it starts with [p]. *)
Fixpoint strip_prefix (p s : bytes) : option bytes :=
  match p, s with
  | [], _ => Some s
  | c :: p', d :: s' => if Ascii.eqb c d then strip_prefix p' s' else None
  | _ :: _, [] => None
  end.

(** [len(b)] of a byte slice or string. *)
Definition blen (b : bytes) : Z := Z.of_nat (length b).

(** ** Errors, panics *)

Inductive error : Type :=
  | ErrNotExist (path : string)      (* ioutil.ReadFile / os.Stat *)
  | ErrWrite (path : string)         (* ioutil.WriteFile *)
  | ErrMissingTags                   (* "missing #bed:begin or #bed:end tags" *)
  | ErrJSON.                         (* an error of json.Unmarshal *)

(** The outcome of a call that may return an error or panic. *)
Inductive res (A : Type) : Type :=
  | Ok (a : A)
  | Err (e : error)
  | Panic.
Arguments Ok {A} a.
Arguments Err {A} e.
Arguments Panic {A}.

Definition res_bind {A C} (x : res A) (k : A -> res C) : res C :=
  match x with
  | Ok a => k a
  | Err e => Err e
  | Panic => Panic
  end.

Notation "'do' x <- e ; k" := (res_bind e (fun x => k))
  (at level 10, x name, e at level 100, k at level 200).

(** ** Byte slices with capacity *)

(** [elems] are the [len] visible bytes, [spare] the bytes of the backing
    array between [len] and [cap]. *)
Record slice : Type := Slice { elems : bytes; spare : bytes }.

Definition len (s : slice) : Z := blen (elems s).
Definition cap (s : slice) : Z := blen (elems s) + blen (spare s).

(** What the Go runtime chooses and the source does not fix: the spare
    room behind the buffer returned by [ioutil.ReadFile], and behind a
    buffer that [append] had to reallocate (old capacity, new length). *)
Record runtime : Type := Runtime {
  rt_read : bytes -> bytes;
  rt_grow : Z -> Z -> bytes
}.

(** [s[:hi:hi]]: in range iff [0 <= hi <= cap(s)]. *)
Definition slice_to (s : slice) (hi : Z) : res slice :=
  if (0 <=? hi) && (hi <=? cap s)
  then Ok (Slice (take (Z.to_nat hi) (elems s ++ spare s)) [])
  else Panic.

(** [s[lo:]]: in range iff [0 <= lo <= len(s)]. *)
Definition slice_from (s : slice) (lo : Z) : res slice :=
  if (0 <=? lo) && (lo <=? len s)
  then Ok (Slice (drop (Z.to_nat lo) (elems s)) (spare s))
  else Panic.

(** [append(a, b...)]: in place when [b] fits the spare room of [a],
    otherwise into a fresh backing array. *)
Definition append (rt : runtime) (a b : slice) : slice :=
  if (len b <=? blen (spare a))
  then Slice (elems a ++ elems b) (drop (length (elems b)) (spare a))
  else Slice (elems a ++ elems b) (rt_grow rt (cap a) (len a + len b)).

(** ** Match records *)

Record Match : Type := mkMatch {
  Path : string;
  Pos : Z;
  Len : Z;
  Data : bytes
}.

Definition set_Pos (m : Match) (p : Z) : Match :=
  mkMatch (Path m) p (Len m) (Data m).

(** A [*Match] is an address in the heap of records. *)
Abbreviation ptr := nat.
Abbreviation heap := (list Match).

(** ** Patcher *)

(** The body of the outer loop up to the assignment to [data]:
<<
    start, end := m.Pos, m.Pos+m.Len
    prefix := data[:start:start]
    mid := m.Data[:len(m.Data):len(m.Data)]
    suffix := data[end:]
    data = append(prefix, append(mid, suffix...)...)
>> *)
Definition splice (rt : runtime) (data : slice) (m : Match) : res slice :=
  let start := Pos m in
  let end_ := int_add (Pos m) (Len m) in
  do prefix <- slice_to data start;
  let mid := Slice (Data m) [] in
  do suffix <- slice_from data end_;
  Ok (append rt prefix (append rt mid suffix)).

(** The inner loop, [later] being [matches[i+1:]] and [m] being
    [matches[i]]; both records are read from the heap at every turn:
<<
    for j := i + 1; j < len(matches); j++ {
        if matches[j].Pos >= m.Pos {
            matches[j].Pos += len(m.Data) - m.Len
        }
    }
>> *)
Fixpoint shiftLater (m : ptr) (later : list ptr) (h : heap) : res unit * heap :=
  match later with
  | [] => (Ok tt, h)
  | j :: later' =>
      match h !! j, h !! m with
      | Some rj, Some rm =>
          if Pos rj >=? Pos rm
          then shiftLater m later'
                 (<[j := set_Pos rj (int_add (Pos rj) (int_sub (blen (Data rm)) (Len rm)))]> h)
          else shiftLater m later' h
      | _, _ => (Panic, h)
      end
  end.

(** [for i, m := range matches { ... }] of [applyPathMatches]. *)
Fixpoint applyLoop (rt : runtime) (data : slice) (matches : list ptr) (h : heap)
  : res slice * heap :=
  match matches with
  | [] => (Ok data, h)
  | m :: later =>
      match h !! m with
      | None => (Panic, h)
      | Some rm =>
          match splice rt data rm with
          | Ok data' =>
              match shiftLater m later h with
              | (Ok _, h') => applyLoop rt data' later h'
              | (Err e, h') => (Err e, h')
              | (Panic, h') => (Panic, h')
              end
          | Err e => (Err e, h)
          | Panic => (Panic, h)
          end
      end
  end.

(** Files: contents and permission bits. *)
Record file : Type := File { contents : bytes; mode : N }.

Record world : Type := World { files : gmap string file; records : list Match }.

Definition ReadFile (rt : runtime) (fs : gmap string file) (path : string) : res slice :=
  match fs !! path with
  | Some f => Ok (Slice (contents f) (rt_read rt (contents f)))
  | None => Err (ErrNotExist path)
  end.

Definition Stat (fs : gmap string file) (path : string) : res N :=
  match fs !! path with
  | Some f => Ok (mode f)
  | None => Err (ErrNotExist path)
  end.

(** How a call of [ioutil.WriteFile] ends, which the source does not
    decide: the call opens the file with [O_WRONLY|O_CREATE|O_TRUNC],
    writes the data and closes the file. *)
Inductive written : Type :=
  | Complete        (* the data are in the file, no error *)
  | Refused         (* the file cannot be opened (its mode, the directory, the
                       device): an error, nothing is changed *)
  | Torn (n : nat). (* the file is opened and truncated, then the write or the
                       close fails: an error, at most the first [n] bytes of
                       the data are in the file *)

(** The disk tells how the write to a path ends. *)
Definition disk : Type := string -> written.

(** A disk on which every write succeeds. *)
Definition reliable : disk := fun _ => Complete.

(** The files once [data] are in the file [path]: the contents of a
    file that exists are replaced and its mode stays, a file that does
    not exist is made with mode [perm]. *)
Definition stored (fs : gmap string file) (path : string) (data : slice) (perm : N)
  : gmap string file :=
  match fs !! path with
  | Some f => <[path := File (elems data) (mode f)]> fs
  | None => <[path := File (elems data) perm]> fs
  end.

(** [ioutil.WriteFile(path, data, perm)] *)
Definition WriteFile (d : disk) (fs : gmap string file) (path : string) (data : slice)
  (perm : N) : res unit * gmap string file :=
  match d path with
  | Complete => (Ok tt, stored fs path data perm)
  | Refused => (Err (ErrWrite path), fs)
  | Torn n => (Err (ErrWrite path), stored fs path (Slice (take n (elems data)) []) perm)
  end.

Definition applyPathMatches_on (d : disk) (rt : runtime) (path : string)
  (matches : list ptr) (w : world) : res unit * world :=
  match ReadFile rt (files w) path with
  | Ok data =>
      match applyLoop rt data matches (records w) with
      | (Ok data', h') =>
          match Stat (files w) path with
          | Ok perm =>
              let '(r, fs') := WriteFile d (files w) path data' perm in
              (r, World fs' h')
          | Err e => (Err e, World (files w) h')
          | Panic => (Panic, World (files w) h')
          end
      | (Err e, h') => (Err e, World (files w) h')
      | (Panic, h') => (Panic, World (files w) h')
      end
  | Err e => (Err e, w)
  | Panic => (Panic, w)
  end.

(** The first loop of [groupMatchesByPath]: the Go map [m]. *)
Fixpoint groupMap (matches : list ptr) (h : heap) (m : gmap string (list ptr))
  : res (gmap string (list ptr)) :=
  match matches with
  | [] => Ok m
  | p :: rest =>
      match h !! p with
      | Some r => groupMap rest h (<[Path r := default [] (m !! Path r) ++ [p]]> m)
      | None => Panic
      end
  end.

(** [groupMatchesByPath]; [iter] is the order in which [range m] yields
    the keys of the map, which Go leaves unspecified. *)
Definition groupMatchesByPath (iter : list string) (matches : list ptr) (h : heap)
  : res (list string * list (list ptr)) :=
  do m <- groupMap matches h ∅;
  Ok (iter, map (fun path => default [] (m !! path)) iter).

(** [iter] is an order in which [range] may visit the keys of [m]. *)
Definition range_order {V} (m : gmap string V) (iter : list string) : Prop :=
  NoDup iter /\ forall k, k ∈ iter <-> is_Some (m !! k).

(** The loop of [ApplyMatches]. *)
Fixpoint applyGroups_on (d : disk) (rt : runtime) (paths : list string)
  (pathMatches : list (list ptr)) (w : world) : res unit * world :=
  match paths, pathMatches with
  | path :: paths', ms :: pathMatches' =>
      match applyPathMatches_on d rt path ms w with
      | (Ok _, w') => applyGroups_on d rt paths' pathMatches' w'
      | (Err e, w') => (Err e, w')
      | (Panic, w') => (Panic, w')
      end
  | [], _ => (Ok tt, w)
  | _ :: _, [] => (Panic, w)
  end.

Definition ApplyMatches_on (d : disk) (rt : runtime) (iter : list string)
  (matches : list ptr) (w : world) : res unit * world :=
  match groupMatchesByPath iter matches (records w) with
  | Ok (paths, pathMatches) => applyGroups_on d rt paths pathMatches w
  | Err e => (Err e, w)
  | Panic => (Panic, w)
  end.

(** The Patcher on a disk on which every write succeeds. *)
Definition applyPathMatches (rt : runtime) (path : string) (matches : list ptr) (w : world)
  : res unit * world :=
  applyPathMatches_on reliable rt path matches w.

Definition applyGroups (rt : runtime) (paths : list string) (pathMatches : list (list ptr))
  (w : world) : res unit * world :=
  applyGroups_on reliable rt paths pathMatches w.

Definition ApplyMatches (rt : runtime) (iter : list string) (matches : list ptr) (w : world)
  : res unit * world :=
  ApplyMatches_on reliable rt iter matches w.

(** ** The patch loop on a list of records *)

(** [len(m.Data) - m.Len] *)
Definition delta (m : Match) : Z := int_sub (blen (Data m)) (Len m).

(** What one turn of the inner loop does to a later record [r]. *)
Definition shift (m r : Match) : Match :=
  if Pos r >=? Pos m then set_Pos r (int_add (Pos r) (delta m)) else r.

(** Bytes [[pos, pos+len)] of [content] replaced by the data of [m]. *)
Definition spliced (content : bytes) (m : Match) : bytes :=
  take (Z.to_nat (Pos m)) content ++ Data m ++ drop (Z.to_nat (Pos m + Len m)) content.

(** The span of [m] lies inside [content]. *)
Definition in_bounds (content : bytes) (m : Match) : Prop :=
  0 <= Pos m /\ 0 <= Len m /\ Pos m + Len m <= blen content.

Definition in_boundsb (content : bytes) (m : Match) : bool :=
  (0 <=? Pos m) && (0 <=? Len m) && (Pos m + Len m <=? blen content).

(** The records of a group applied in order to the contents of a file,
    as long as every span is inside the contents when its turn comes;
    [pending] is the shift that the records already applied impose on
    the records still to come. *)
Fixpoint patch_under (pending : Match -> Match) (content : bytes) (ms : list Match)
  : option bytes :=
  match ms with
  | [] => Some content
  | m0 :: rest =>
      let m := pending m0 in
      if in_boundsb content m && (blen content <=? int_max)
      then patch_under (fun r => shift m (pending r)) (spliced content m) rest
      else None
  end.

Definition patch (content : bytes) (ms : list Match) : option bytes :=
  patch_under (fun r => r) content ms.

(** The records of a group as the loop leaves them in the heap: the
    record spliced first as it is at its turn, every record after it
    as the turns before its own have shifted it; [pending] as in
    [patch_under]. *)
Fixpoint settled_under (pending : Match -> Match) (ms : list Match) : list Match :=
  match ms with
  | [] => []
  | m0 :: rest =>
      let m := pending m0 in
      m :: settled_under (fun r => shift m (pending r)) rest
  end.

Definition settled (ms : list Match) : list Match := settled_under (fun r => r) ms.


(** ** Inputs used in examples *)

(** A runtime: 512 zero bytes of room behind the buffer of a file (the
    [bytes.MinRead] that [ioutil.ReadFile] asks for beyond the size of
    the file), none behind a grown buffer. *)
Definition rt0 : runtime := Runtime (fun _ => repeat zero 512) (fun _ _ => []).

Definition two_X : list Match :=
  [mkMatch "f" 3 1 (B "YY"); mkMatch "f" 7 1 (B "Z")].

(** Three records of a file of seventeen bytes: the first deletes the
    ten bytes at the head of the file, the others replace one byte
    each, at the offsets 12 and 15 of the file as it was scanned. *)
Definition three_recs : list Match :=
  [mkMatch "f" 0 10 []; mkMatch "f" 12 1 (B "YY"); mkMatch "f" 15 1 (B "Z")].

(** Three records with headers edited by hand: the first deletes the
    bytes 10 to 14, the third inserts inside that span. *)
Definition edited_recs : list Match :=
  [mkMatch "f" 10 5 []; mkMatch "f" 9 1 (B "bb"); mkMatch "f" 12 0 (B "c")].

(** Every span is inside the contents at the moment it is spliced: the
    first record against [content], the others, moved by [shift], against
    what the splices before them have made of it. The contents always
    have a length that fits Go's [int]. *)
Inductive spans_inside : bytes -> list Match -> Prop :=
  | spans_nil content : spans_inside content []
  | spans_cons content m rest :
      in_bounds content m ->
      blen content <= int_max ->
      spans_inside (spliced content m) (map (shift m) rest) ->
      spans_inside content (m :: rest).

(** The precondition as the design document words it: nothing is asked
    of [len] itself. *)
Definition span_fits (content : bytes) (m : Match) : Prop :=
  0 <= Pos m /\ Pos m + Len m <= blen content.

(** The records of [matches] whose path is [path], in input order. *)
Definition group (h : heap) (matches : list ptr) (path : string) : list ptr :=
  filter (fun p => Path <$> h !! p = Some path) matches.

(** ** Matcher *)

(** A compiled pattern is used through [FindAllIndex(data, -1)] and
    [FindAll(data, -1)] only. It is represented by the spans
    [(start, end)] the former returns; the latter returns the
    sub-slices of the input at these spans. *)
Definition Regexp : Type := bytes -> list (Z * Z).

Definition FindAllIndex (re : Regexp) (b : bytes) : list (Z * Z) := re b.

(** [b[lo:hi]] *)
Definition subslice (b : bytes) (lo hi : Z) : bytes :=
  take (Z.to_nat (hi - lo)) (drop (Z.to_nat lo) b).

Definition FindAll (re : Regexp) (b : bytes) : list bytes :=
  map (fun se => subslice b (fst se) (snd se)) (FindAllIndex re b).

(** What the pattern engine promises of the spans it returns. *)
Definition spans_ok (b : bytes) (a : list (Z * Z)) : Prop :=
  Forall (fun se => 0 <= fst se /\ fst se <= snd se /\ snd se <= blen b) a.

(** The loop [for i := range a] of [FindAllIndexPath], from index [i]. *)
Fixpoint matchesFrom (path : string) (a : list (Z * Z)) (b : list bytes) (i : nat)
  : res (list Match) :=
  match a with
  | [] => Ok []
  | ai :: a' =>
      match b !! i with
      | Some bi =>
          do rest <- matchesFrom path a' b (S i);
          Ok (mkMatch path (fst ai) (int_sub (snd ai) (fst ai)) bi :: rest)
      | None => Panic
      end
  end.

Definition FindAllIndexPath (rt : runtime) (re : Regexp) (fs : gmap string file)
  (path : string) : res (list Match) :=
  do data <- ReadFile rt fs path;
  let a := FindAllIndex re (elems data) in
  let b := FindAll re (elems data) in
  matchesFrom path a b 0.

Fixpoint FindAllIndexPaths (rt : runtime) (re : Regexp) (fs : gmap string file)
  (paths : list string) : res (list Match) :=
  match paths with
  | [] => Ok []
  | path :: rest =>
      do m <- FindAllIndexPath rt re fs path;
      do ms <- FindAllIndexPaths rt re fs rest;
      Ok (m ++ ms)
  end.

(** The record the Matcher makes of a span of [content]. *)
Definition match_of (path : string) (content : bytes) (se : Z * Z) : Match :=
  mkMatch path (fst se) (snd se - fst se) (subslice content (fst se) (snd se)).

(** A pattern for examples: every occurrence of one byte. *)
Fixpoint find_byte (c : ascii) (b : bytes) (i : Z) : list (Z * Z) :=
  match b with
  | [] => []
  | x :: b' => if Ascii.eqb x c then (i, i + 1) :: find_byte c b' (i + 1)
               else find_byte c b' (i + 1)
  end.

Definition re_byte (c : ascii) : Regexp := fun b => find_byte c b 0.

(** The records a list of pointers designates in a heap. *)
Definition deref (h : heap) (ps : list ptr) (rs : list Match) : Prop :=
  Forall2 (fun p r => h !! p = Some r) ps rs.

(** A record that carries the bytes of its own span. *)
Definition carries_span (content : bytes) (m : Match) : Prop :=
  in_bounds content m /\ Data m = subslice content (Pos m) (Pos m + Len m).


Definition fs_X : gmap string file := {[ "f"%string := File (B "aaaXbbbXccc") 420%N ]}.

(** Two files and three records, those of "a" and "b" interleaved. *)
Definition fs_ab : gmap string file :=
  <[ "a"%string := File (B "aaaXbbbXccc") 420%N ]> {[ "b"%string := File (B "hello") 384%N ]}.

Definition recs_ab : list Match :=
  [mkMatch "a" 3 1 (B "YY"); mkMatch "b" 0 0 (B "> "); mkMatch "a" 7 1 (B "Z")].

(** ** encoding/json, as far as [matchJSON] needs it *)

(** The package is not part of the repository. What follows is its
    behaviour on the one type the program hands to it, after the
    documentation and the sources of the Go standard library:
    [Marshal] writes the three fields in order, strings coerced to valid
    UTF-8 and escaped for HTML; [Unmarshal] wants one JSON value,
    matches the keys of an object to the fields without regard to case,
    leaves a field that has no key (or the value [null]) as it is, skips
    keys it does not know, and reports a value of the wrong type. *)

(** The header of a block. *)
Record matchJSON : Type := mkMatchJSON { jPath : string; jPos : Z; jLen : Z }.

Module json.

(** The numeric value of a byte, and the byte of a value below 256. *)
Definition code (c : ascii) : Z := Z.of_N (N_of_ascii c).
Definition chr (z : Z) : ascii := ascii_of_N (Z.to_N z).

Definition quote : ascii := "034"%char.
Definition backslash : ascii := "092"%char.

(** U+FFFD in UTF-8. *)
Definition replacement : bytes := [chr 239; chr 191; chr 189].

Definition is_cont (c : ascii) : bool := (128 <=? code c) && (code c <=? 191).

(** The width of the UTF-8 sequence at the head of [s], or [None]
    where [utf8.DecodeRune] answers [(RuneError, 1)]. *)
Definition utf8_size (s : bytes) : option nat :=
  match s with
  | [] => None
  | c0 :: t =>
      let b0 := code c0 in
      if b0 <? 128 then Some 1%nat
      else if b0 <? 194 then None
      else if b0 <? 224 then
        match t with
        | c1 :: _ => if is_cont c1 then Some 2%nat else None
        | _ => None
        end
      else if b0 <? 240 then
        match t with
        | c1 :: c2 :: _ =>
            let lo := if b0 =? 224 then 160 else 128 in
            let hi := if b0 =? 237 then 159 else 191 in
            if (lo <=? code c1) && (code c1 <=? hi) && is_cont c2
            then Some 3%nat else None
        | _ => None
        end
      else if b0 <? 245 then
        match t with
        | c1 :: c2 :: c3 :: _ =>
            let lo := if b0 =? 240 then 144 else 128 in
            let hi := if b0 =? 244 then 143 else 191 in
            if (lo <=? code c1) && (code c1 <=? hi) && is_cont c2 && is_cont c3
            then Some 4%nat else None
        | _ => None
        end
      else None
  end.

(** [utf8.EncodeRune] *)
Definition utf8_encode (r : Z) : bytes :=
  if r <? 128 then [chr r]
  else if r <? 2048 then [chr (192 + r / 64); chr (128 + r mod 64)]
  else if (55296 <=? r) && (r <=? 57343) then replacement
  else if r <? 65536 then
    [chr (224 + r / 4096); chr (128 + (r / 64) mod 64); chr (128 + r mod 64)]
  else
    [chr (240 + r / 262144); chr (128 + (r / 4096) mod 64);
     chr (128 + (r / 64) mod 64); chr (128 + r mod 64)].

(** *** Marshal *)

Definition hex_digit (z : Z) : ascii := nth (Z.to_nat z) (B "0123456789abcdef") "0"%char.

(** Bytes below 0x80 that a JSON string carries unescaped (the
    [htmlSafeSet] of the encoder). *)
Definition html_safe (c : ascii) : bool :=
  (32 <=? code c) && (code c <? 128) &&
  negb (Ascii.eqb c quote) && negb (Ascii.eqb c backslash) &&
  negb (Ascii.eqb c "&") && negb (Ascii.eqb c "<") && negb (Ascii.eqb c ">").

Definition escape (c : ascii) : bytes :=
  if Ascii.eqb c backslash || Ascii.eqb c quote then [backslash; c]
  else if code c =? 8 then [backslash; "b"%char]
  else if code c =? 12 then [backslash; "f"%char]
  else if code c =? 10 then [backslash; "n"%char]
  else if code c =? 13 then [backslash; "r"%char]
  else if code c =? 9 then [backslash; "t"%char]
  else [backslash; "u"%char; "0"%char; "0"%char;
        hex_digit (code c / 16); hex_digit (code c mod 16)].

(** The body of an encoded string; [pending] counts the continuation
    bytes of a valid UTF-8 sequence still to be copied. *)
Fixpoint quote_body (pending : nat) (s : bytes) : bytes :=
  match s with
  | [] => []
  | c :: t =>
      match pending with
      | S k => c :: quote_body k t
      | O =>
          if code c <? 128 then
            (if html_safe c then [c] else escape c) ++ quote_body 0 t
          else
            match utf8_size s with
            | None => backslash :: B "ufffd" ++ quote_body 0 t
            | Some n =>
                match t with
                | c1 :: c2 :: t' =>
                    if (code c =? 226) && (code c1 =? 128) &&
                       ((code c2 =? 168) || (code c2 =? 169))
                    then backslash :: B "u202" ++ [hex_digit (code c2 mod 16)]
                         ++ quote_body 0 t'
                    else c :: quote_body (n - 1) t
                | _ => c :: quote_body (n - 1) t
                end
            end
      end
  end.

Definition quote_string (s : bytes) : bytes := quote :: quote_body 0 s ++ [quote].

(** [strconv.AppendInt(z, 10)] *)
Definition itoa (z : Z) : bytes :=
  list_ascii_of_string (NilZero.string_of_int (Z.to_int z)).

(** [json.Marshal(matchJSON{...})]; it has no error for this type. *)
Definition Marshal (h : matchJSON) : res bytes :=
  Ok (B "{" ++ quote_string (B "path") ++ B ":" ++ quote_string (list_ascii_of_string (jPath h))
      ++ B "," ++ quote_string (B "pos") ++ B ":" ++ itoa (jPos h)
      ++ B "," ++ quote_string (B "len") ++ B ":" ++ itoa (jLen h) ++ B "}").

(** *** Unmarshal *)

#[local] Set Warnings "-register-all".
Inductive value : Type :=
  | Null
  | Bool (b : bool)
  | Number (literal : bytes)
  | String (s : bytes)
  | Array (items : list value)
  | Object (members : list (bytes * value)).

Definition is_space (c : ascii) : bool :=
  (code c =? 32) || (code c =? 9) || (code c =? 13) || (code c =? 10).

Fixpoint skip_space (s : bytes) : bytes :=
  match s with
  | c :: t => if is_space c then skip_space t else s
  | [] => []
  end.

Definition hex_value (c : ascii) : option Z :=
  let b := code c in
  if (48 <=? b) && (b <=? 57) then Some (b - 48)
  else if (97 <=? b) && (b <=? 102) then Some (b - 87)
  else if (65 <=? b) && (b <=? 70) then Some (b - 55)
  else None.

(** Four hexadecimal digits. *)
Definition hex4 (s : bytes) : option (Z * bytes) :=
  match s with
  | a :: b :: c :: d :: t =>
      match hex_value a, hex_value b, hex_value c, hex_value d with
      | Some x, Some y, Some z, Some w => Some (((x * 16 + y) * 16 + z) * 16 + w, t)
      | _, _, _, _ => None
      end
  | _ => None
  end.

(** [getu4]: an escape [\uXXXX] at the head of [s]. *)
Definition getu4 (s : bytes) : option (Z * bytes) :=
  match s with
  | b :: u :: t => if Ascii.eqb b backslash && Ascii.eqb u "u" then hex4 t else None
  | _ => None
  end.

Definition prepend (pre : bytes) (r : option (bytes * bytes)) : option (bytes * bytes) :=
  match r with
  | Some (body, rest) => Some (pre ++ body, rest)
  | None => None
  end.

(** A string literal after its opening quote: its value (escapes
    resolved, invalid UTF-8 replaced by U+FFFD) and the text after the
    closing quote. Every turn consumes at least one byte. *)
Fixpoint string_body (fuel : nat) (s : bytes) : option (bytes * bytes) :=
  match fuel with
  | O => None
  | S fuel' =>
      match s with
      | [] => None
      | c :: t =>
          if Ascii.eqb c quote then Some ([], t)
          else if Ascii.eqb c backslash then
            match t with
            | [] => None
            | e :: t' =>
                if Ascii.eqb e quote || Ascii.eqb e backslash || Ascii.eqb e "/"
                then prepend [e] (string_body fuel' t')
                else if Ascii.eqb e "b" then prepend [chr 8] (string_body fuel' t')
                else if Ascii.eqb e "f" then prepend [chr 12] (string_body fuel' t')
                else if Ascii.eqb e "n" then prepend [chr 10] (string_body fuel' t')
                else if Ascii.eqb e "r" then prepend [chr 13] (string_body fuel' t')
                else if Ascii.eqb e "t" then prepend [chr 9] (string_body fuel' t')
                else if Ascii.eqb e "u" then
                  match hex4 t' with
                  | None => None
                  | Some (r, t2) =>
                      if (55296 <=? r) && (r <? 57344) then
                        match getu4 t2 with
                        | Some (r1, t3) =>
                            if (r <? 56320) && (56320 <=? r1) && (r1 <? 57344)
                            then prepend
                                   (utf8_encode ((r - 55296) * 1024 + (r1 - 56320) + 65536))
                                   (string_body fuel' t3)
                            else prepend replacement (string_body fuel' t2)
                        | None => prepend replacement (string_body fuel' t2)
                        end
                      else prepend (utf8_encode r) (string_body fuel' t2)
                  end
                else None
            end
          else if code c <? 32 then None
          else if code c <? 128 then prepend [c] (string_body fuel' t)
          else
            match utf8_size s with
            | Some n => prepend (take n s) (string_body fuel' (drop n s))
            | None => prepend replacement (string_body fuel' t)
            end
      end
  end.

Definition is_digit (c : ascii) : bool := (48 <=? code c) && (code c <=? 57).

Fixpoint digits (s : bytes) : bytes * bytes :=
  match s with
  | c :: t => if is_digit c then let (d, r) := digits t in (c :: d, r) else ([], s)
  | [] => ([], [])
  end.

(** A number literal of the JSON grammar: an optional minus sign, an
    integer part without leading zero, an optional fraction, an
    optional exponent. *)
Definition number (s : bytes) : option (bytes * bytes) :=
  let (sign, s1) := match s with
                    | c :: t => if Ascii.eqb c "-" then ([c], t) else ([], s)
                    | [] => ([], s)
                    end in
  match s1 with
  | [] => None
  | c :: t =>
      if negb (is_digit c) then None else
      let (int_part, s2) := if Ascii.eqb c "0" then ([c], t) else digits s1 in
      let frac := match s2 with
                  | dot :: t2 =>
                      if Ascii.eqb dot "." then
                        match digits t2 with
                        | ([], _) => None
                        | (d, r) => Some (dot :: d, r)
                        end
                      else Some ([], s2)
                  | [] => Some ([], s2)
                  end in
      match frac with
      | None => None
      | Some (frac_part, s3) =>
          match s3 with
          | e :: t3 =>
              if Ascii.eqb e "e" || Ascii.eqb e "E" then
                let (esign, s4) := match t3 with
                                   | c4 :: t4 => if Ascii.eqb c4 "+" || Ascii.eqb c4 "-"
                                                 then ([c4], t4) else ([], t3)
                                   | [] => ([], t3)
                                   end in
                match digits s4 with
                | ([], _) => None
                | (d, r) => Some (sign ++ int_part ++ frac_part ++ e :: esign ++ d, r)
                end
              else Some (sign ++ int_part ++ frac_part, s3)
          | [] => Some (sign ++ int_part ++ frac_part, s3)
          end
      end
  end.

(** One JSON value at the head of [s] (after white space) and the text
    that follows it. Every call made with less fuel reads a shorter
    text, so [S (length s)] is fuel enough. *)
Fixpoint parse_value (fuel : nat) (s : bytes) : option (value * bytes) :=
  match fuel with
  | O => None
  | S fuel' =>
      match skip_space s with
      | [] => None
      | c :: t =>
          if Ascii.eqb c "{" then
            match skip_space t with
            | c' :: t' =>
                if Ascii.eqb c' "}" then Some (Object [], t')
                else match parse_members fuel' t with
                     | Some (ms, r) => Some (Object ms, r)
                     | None => None
                     end
            | [] => None
            end
          else if Ascii.eqb c "[" then
            match skip_space t with
            | c' :: t' =>
                if Ascii.eqb c' "]" then Some (Array [], t')
                else match parse_elements fuel' t with
                     | Some (vs, r) => Some (Array vs, r)
                     | None => None
                     end
            | [] => None
            end
          else if Ascii.eqb c quote then
            match string_body (length t) t with
            | Some (v, r) => Some (String v, r)
            | None => None
            end
          else if Ascii.eqb c "-" || is_digit c then
            match number (c :: t) with
            | Some (lit, r) => Some (Number lit, r)
            | None => None
            end
          else
            match strip_prefix (B "true") (c :: t),
                  strip_prefix (B "false") (c :: t),
                  strip_prefix (B "null") (c :: t) with
            | Some r, _, _ => Some (Bool true, r)
            | _, Some r, _ => Some (Bool false, r)
            | _, _, Some r => Some (Null, r)
            | _, _, _ => None
            end
      end
  end
with parse_members (fuel : nat) (s : bytes) : option (list (bytes * value) * bytes) :=
  match fuel with
  | O => None
  | S fuel' =>
      match skip_space s with
      | q :: t =>
          if Ascii.eqb q quote then
            match string_body (length t) t with
            | Some (key, r1) =>
                match skip_space r1 with
                | colon :: r2 =>
                    if Ascii.eqb colon ":" then
                      match parse_value fuel' r2 with
                      | Some (v, r3) =>
                          match skip_space r3 with
                          | d :: r4 =>
                              if Ascii.eqb d "}" then Some ([(key, v)], r4)
                              else if Ascii.eqb d "," then
                                match parse_members fuel' r4 with
                                | Some (ms, r5) => Some ((key, v) :: ms, r5)
                                | None => None
                                end
                              else None
                          | [] => None
                          end
                      | None => None
                      end
                    else None
                | [] => None
                end
            | None => None
            end
          else None
      | [] => None
      end
  end
with parse_elements (fuel : nat) (s : bytes) : option (list value * bytes) :=
  match fuel with
  | O => None
  | S fuel' =>
      match parse_value fuel' s with
      | Some (v, r1) =>
          match skip_space r1 with
          | d :: r2 =>
              if Ascii.eqb d "]" then Some ([v], r2)
              else if Ascii.eqb d "," then
                match parse_elements fuel' r2 with
                | Some (vs, r3) => Some (v :: vs, r3)
                | None => None
                end
              else None
          | [] => None
          end
      | None => None
      end
  end.

(** The whole text is one JSON value between white space ([checkValid]). *)
Definition parse (s : bytes) : option value :=
  match parse_value (S (length s)) s with
  | Some (v, r) => match skip_space r with [] => Some v | _ => None end
  | None => None
  end.

(** Field names are matched under case folding, which on the three
    names of [matchJSON] is ASCII case folding with U+017F folded to
    "S" (and U+212A to "K"). *)
Fixpoint fold_name (s : bytes) : bytes :=
  match s with
  | [] => []
  | c :: t =>
      if (97 <=? code c) && (code c <=? 122) then chr (code c - 32) :: fold_name t
      else
        match t with
        | c1 :: t1 =>
            if (code c =? 197) && (code c1 =? 191) then "S"%char :: fold_name t1
            else
              match t1 with
              | c2 :: t2 =>
                  if (code c =? 226) && (code c1 =? 132) && (code c2 =? 170)
                  then "K"%char :: fold_name t2
                  else c :: fold_name t
              | [] => c :: fold_name t
              end
        | [] => c :: fold_name t
        end
  end.

Definition bytes_eqb (a b : bytes) : bool := bool_decide (a = b).

(** [strconv.ParseInt(literal, 10, 64)] on a number literal. *)
Definition parse_int (literal : bytes) : option Z :=
  match NilZero.int_of_string (string_of_list_ascii literal) with
  | Some d =>
      let z := Z.of_int d in
      if (int_min <=? z) && (z <=? int_max) then Some z else None
  | None => None
  end.

(** The members of an object stored into the struct, in order; [None]
    is an [UnmarshalTypeError]. *)
Fixpoint store (members : list (bytes * value)) (h : matchJSON) : option matchJSON :=
  match members with
  | [] => Some h
  | (key, v) :: rest =>
      let name := fold_name key in
      if bytes_eqb name (B "PATH") then
        match v with
        | String s => store rest (mkMatchJSON (string_of_list_ascii s) (jPos h) (jLen h))
        | Null => store rest h
        | _ => None
        end
      else if bytes_eqb name (B "POS") then
        match v with
        | Number lit =>
            match parse_int lit with
            | Some z => store rest (mkMatchJSON (jPath h) z (jLen h))
            | None => None
            end
        | Null => store rest h
        | _ => None
        end
      else if bytes_eqb name (B "LEN") then
        match v with
        | Number lit =>
            match parse_int lit with
            | Some z => store rest (mkMatchJSON (jPath h) (jPos h) z)
            | None => None
            end
        | Null => store rest h
        | _ => None
        end
      else store rest h
  end.

(** [json.Unmarshal(data, &hdr)] with [hdr] the zero [matchJSON]. *)
Definition Unmarshal (data : bytes) : res matchJSON :=
  match parse data with
  | None => Err ErrJSON
  | Some (Object members) =>
      match store members (mkMatchJSON "" 0 0) with
      | Some h => Ok h
      | None => Err ErrJSON
      end
  | Some Null => Ok (mkMatchJSON "" 0 0)
  | Some _ => Err ErrJSON
  end.

End json.

(** ** Serializer *)

Module matchTextRegex.

(** [matchTextRegex], the pattern
    [(?s)#bed:begin ([^\n]+)\n(.*?)\n#bed:end], read as the regexp
    package reads it: the literal ["#bed:begin "], a greedy non-empty
    run of bytes other than newline, a newline, the shortest run of any
    bytes that is followed by a newline and the literal ["#bed:end"]. *)

Definition begin_tag : bytes := B "#bed:begin ".
Definition end_tag : bytes := LF :: B "#bed:end".

(** [([^\n]+)\n] without the demand that the run be non-empty: the
    bytes up to the first newline, and the text after that newline. *)
Fixpoint header_line (s : bytes) : option (bytes * bytes) :=
  match s with
  | [] => None
  | c :: t =>
      if Ascii.eqb c LF then Some ([], t)
      else match header_line t with
           | Some (h, r) => Some (c :: h, r)
           | None => None
           end
  end.

(** [(.*?)\n#bed:end]: the shortest body that the end tag follows, and
    the text after the tag. *)
Fixpoint lazy_body (s : bytes) : option (bytes * bytes) :=
  match strip_prefix end_tag s with
  | Some rest => Some ([], rest)
  | None =>
      match s with
      | [] => None
      | c :: t =>
          match lazy_body t with
          | Some (body, rest) => Some (c :: body, rest)
          | None => None
          end
      end
  end.

(** A match of the pattern that starts at the head of [s]: the two
    submatches and the text after the match. *)
Definition match_here (s : bytes) : option (bytes * bytes * bytes) :=
  match strip_prefix begin_tag s with
  | Some s1 =>
      match header_line s1 with
      | Some (c :: h, s2) =>
          match lazy_body s2 with
          | Some (body, rest) => Some (c :: h, body, rest)
          | None => None
          end
      | _ => None
      end
  | None => None
  end.

(** [matchTextRegex.FindSubmatch(s)], leftmost match: submatches 1 and 2. *)
Fixpoint FindSubmatch (s : bytes) : option (bytes * bytes) :=
  match match_here s with
  | Some (hdr, body, _) => Some (hdr, body)
  | None =>
      match s with
      | [] => None
      | _ :: t => FindSubmatch t
      end
  end.

(** [matchTextRegex.FindAll(s, -1)]: the texts of the successive
    non-overlapping matches; [skip] bytes of [s] belong to the match
    found last. *)
Fixpoint FindAll_from (skip : nat) (s : bytes) : list bytes :=
  match s with
  | [] => []
  | _ :: t =>
      match skip with
      | S k => FindAll_from k t
      | O =>
          match match_here s with
          | Some (_, _, rest) =>
              take (length s - length rest) s
                :: FindAll_from (length t - length rest) t
          | None => FindAll_from 0 t
          end
      end
  end.

Definition FindAll (s : bytes) : list bytes := FindAll_from 0 s.

End matchTextRegex.

Definition header_of (m : Match) : matchJSON := mkMatchJSON (Path m) (Pos m) (Len m).

Definition MarshalText (m : Match) : res bytes :=
  do hdr <- json.Marshal (header_of m);
  Ok ((B "#bed:begin " ++ hdr ++ [LF])       (* Fprintf  "#bed:begin %s\n" *)
      ++ (Data m ++ [LF])                    (* Fprintln string(m.Data)    *)
      ++ (B "#bed:end" ++ [LF])).            (* Fprintln "#bed:end"        *)

(** What [writeTempMatchFile] writes to the temporary file: every
    block and a newline after it. *)
Fixpoint writeTempMatchFile (matches : list Match) : res bytes :=
  match matches with
  | [] => Ok []
  | m :: rest =>
      do buf <- MarshalText m;
      do more <- writeTempMatchFile rest;
      Ok (buf ++ [LF] ++ more)
  end.

(** [m.UnmarshalText(data)] on a zero [Match]. *)
Definition UnmarshalText (data : bytes) : res Match :=
  match matchTextRegex.FindSubmatch data with
  | None => Err ErrMissingTags
  | Some (a1, a2) =>
      do hdr <- json.Unmarshal a1;
      Ok (mkMatch (jPath hdr) (jPos hdr) (jLen hdr) a2)
  end.

(** The loop of [ParseMatches] over the blocks found. *)
Fixpoint parseBlocks (bufs : list bytes) : res (list Match) :=
  match bufs with
  | [] => Ok []
  | buf :: rest =>
      do m <- UnmarshalText buf;
      do ms <- parseBlocks rest;
      Ok (m :: ms)
  end.

Definition ParseMatches (data : bytes) : res (list Match) :=
  parseBlocks (matchTextRegex.FindAll data).

(** Text typed with ['] for the double quote and [|] for the newline. *)
Definition T (s : string) : bytes :=
  map (fun c => if Ascii.eqb c "'" then json.quote
                else if Ascii.eqb c "|" then LF else c) (B s).

(** [p] occurs in [s] as a run of consecutive bytes. *)
Fixpoint occurs (p s : bytes) : bool :=
  match strip_prefix p s with
  | Some _ => true
  | None =>
      match s with
      | [] => false
      | _ :: t => occurs p t
      end
  end.

(** The text of a block without what follows its end tag. *)
Definition block (hdr body : bytes) : bytes :=
  matchTextRegex.begin_tag ++ hdr ++ LF :: body ++ matchTextRegex.end_tag.

(** *** Texts made of blocks *)

(** A text made of blocks: each block is a filler [pre], a header and
    a body; [tail] is what follows the last block. *)
Fixpoint blocks_text (bs : list (bytes * bytes * bytes)) (tail : bytes) : bytes :=
  match bs with
  | [] => tail
  | (pre, hdr, body) :: rest => pre ++ block hdr body ++ blocks_text rest tail
  end.

(** The filler holds no begin tag, the header line is not empty and
    holds no newline, the body holds no newline followed by
    [#bed:end]; it may hold anything else, a begin tag included. *)
Definition block_ok (b : bytes * bytes * bytes) : Prop :=
  let '(pre, hdr, body) := b in
  occurs matchTextRegex.begin_tag pre = false /\
  hdr <> [] /\ (LF ∉ hdr) /\
  occurs matchTextRegex.end_tag body = false.

(** A text in which a marker is missing: no begin tag, or no end tag. *)
Definition no_block (tail : bytes) : Prop :=
  occurs matchTextRegex.begin_tag tail = false \/
  occurs matchTextRegex.end_tag tail = false.

(** [json.Unmarshal] rejects the header of the block. *)
Definition rejected (b : bytes * bytes * bytes) : Prop :=
  let '(_, hdr, _) := b in exists e, json.Unmarshal hdr = Err e.

(** [json.Unmarshal] accepts the header of the block, and [m] is the
    record of the block. *)
Definition decoded (b : bytes * bytes * bytes) (m : Match) : Prop :=
  let '(_, hdr, body) := b in
  exists h, json.Unmarshal hdr = Ok h /\ m = mkMatch (jPath h) (jPos h) (jLen h) body.

(** A member of a JSON object that [json.Unmarshal] can store into a
    [matchJSON]: under the name of a field, a value of the type of the
    field or [null]; under any other name, any value. *)
Definition acceptable (kv : bytes * json.value) : Prop :=
  let name := json.fold_name (fst kv) in
  if json.bytes_eqb name (B "PATH") then
    match snd kv with
    | json.String _ | json.Null => True
    | _ => False
    end
  else if json.bytes_eqb name (B "POS") || json.bytes_eqb name (B "LEN") then
    match snd kv with
    | json.Number lit => is_Some (json.parse_int lit)
    | json.Null => True
    | _ => False
    end
  else True.

(** No member of the object bears the name of [field]. *)
Definition omits (field : string) (members : list (bytes * json.value)) : Prop :=
  Forall (fun kv => json.fold_name (fst kv) <> B field) members.

(** *** The body of a block as the design document words it *)

(** Written after the design document, not after the source, to be
    compared with what [UnmarshalText] does: the body is made of the
    lines that follow the header line, up to the first line that is
    exactly [#bed:end]; the newline before that line is not part of it. *)

Fixpoint split_lines (cur s : bytes) : list bytes :=
  match s with
  | [] => [cur]
  | c :: t => if Ascii.eqb c LF then cur :: split_lines [] t
              else split_lines (cur ++ [c]) t
  end.

Fixpoint lines_before_terminator (ls : list bytes) : option (list bytes) :=
  match ls with
  | [] => None
  | l :: rest =>
      if bool_decide (l = B "#bed:end") then Some []
      else match lines_before_terminator rest with
           | Some before => Some (l :: before)
           | None => None
           end
  end.

Fixpoint join_lines (ls : list bytes) : bytes :=
  match ls with
  | [] => []
  | [l] => l
  | l :: rest => l ++ LF :: join_lines rest
  end.

Definition spec_body_by_terminator_line (after_header : bytes) : option bytes :=
  match lines_before_terminator (split_lines [] after_header) with
  | Some before => Some (join_lines before)
  | None => None
  end.

(** A pattern for examples: the whole of a non-empty text, as
    [(?s).+] matches it. *)
Definition re_all : Regexp :=
  fun b => match b with [] => [] | _ => [(0, blen b)] end.

(** No byte of [b] is a newline. *)
Definition no_LF (b : bytes) : bool := forallb (fun c => negb (Ascii.eqb c LF)) b.

(** The header of [m] survives [json.Marshal] followed by
    [json.Unmarshal]. *)
Definition header_survives (m : Match) : Prop :=
  exists hdr, json.Marshal (header_of m) = Ok hdr /\ json.Unmarshal hdr = Ok (header_of m).

(** [s] is a sequence of well-formed UTF-8 encodings ([utf8.Valid]). *)
Inductive valid_utf8 : bytes -> Prop :=
  | valid_utf8_nil : valid_utf8 []
  | valid_utf8_rune c t n :
      json.utf8_size (c :: t) = Some n ->
      valid_utf8 (drop n (c :: t)) ->
      valid_utf8 (c :: t).

(** The digits of a decimal numeral. *)
Definition chars (u : Decimal.uint) : bytes :=
  list_ascii_of_string (NilEmpty.string_of_uint u).


(** ** Records in ascending order *)

(** The spans of [ms] follow one another from offset [from] to [limit]:
    each begins at or after the end of the one before it, none is
    reversed, the last ends at or before [limit]. *)
Fixpoint ascending (from limit : Z) (ms : list Match) : Prop :=
  match ms with
  | [] => from <= limit
  | m :: rest => from <= Pos m /\ 0 <= Len m /\ ascending (Pos m + Len m) limit rest
  end.

(** [content] from offset [from] on, every span of [ms] replaced by the
    data of its record and the bytes between the spans kept. *)
Fixpoint replaced (from : Z) (content : bytes) (ms : list Match) : bytes :=
  match ms with
  | [] => drop (Z.to_nat from) content
  | m :: rest =>
      subslice content from (Pos m) ++ Data m ++ replaced (Pos m + Len m) content rest
  end.

(** The bytes of all the data of [ms]. *)
Fixpoint data_size (ms : list Match) : Z :=
  match ms with
  | [] => 0
  | m :: rest => blen (Data m) + data_size rest
  end.

(** [m] moved by [k] bytes. *)
Definition move (k : Z) (m : Match) : Match := set_Pos m (Pos m + k).

(** The positions of [ms] increase strictly, from above [last] on. *)
Fixpoint increasing (last : Z) (ms : list Match) : Prop :=
  match ms with
  | [] => True
  | m :: rest => last < Pos m /\ increasing (Pos m) rest
  end.

(** The records the Matcher makes of the file at [path], none if there
    is no such file. *)
Definition found (re : Regexp) (fs : gmap string file) (path : string) : list Match :=
  match fs !! path with
  | Some f => map (match_of path (contents f)) (FindAllIndex re (contents f))
  | None => []
  end.

(** The pattern engine is as it promises on the file at [path]. *)
Definition scannable (re : Regexp) (fs : gmap string file) (path : string) : Prop :=
  exists f, fs !! path = Some f /\ blen (contents f) <= int_max /\
    spans_ok (contents f) (FindAllIndex re (contents f)).

(** One file and two records, the second of a file that does not exist. *)
Definition recs_gone : list Match :=
  [mkMatch "f" 3 1 (B "YY"); mkMatch "gone" 0 0 (B "Z")].

(** ** The command line *)

Module strings.

(** [strings.Split(s, sep)] for a separator of one byte, as the program
    calls it: the pieces of [s] between the separators, [cur] being the
    piece read so far. *)
Fixpoint Split_from (cur s : bytes) (sep : ascii) : list bytes :=
  match s with
  | [] => [cur]
  | c :: t => if Ascii.eqb c sep then cur :: Split_from [] t sep
              else Split_from (cur ++ [c]) t sep
  end.

Definition Split (s : bytes) (sep : ascii) : list bytes := Split_from [] s sep.

(** [strings.Join(a, sep)], the inverse the program does not call. *)
Fixpoint Join (a : list bytes) (sep : ascii) : bytes :=
  match a with
  | [] => []
  | [x] => x
  | x :: rest => x ++ sep :: Join rest sep
  end.

(** The UTF-8 encodings of the runes for which [unicode.IsSpace]
    holds: tab, line feed, vertical tab, form feed, carriage return,
    space, U+0085, U+00A0, U+1680, U+2000 to U+200A, U+2028, U+2029,
    U+202F, U+205F and U+3000. *)
Definition space_runes : list bytes :=
  map (map ascii_of_nat)
    [ [9]; [10]; [11]; [12]; [13]; [32]; [194; 133]; [194; 160]; [225; 154; 128];
      [226; 128; 128]; [226; 128; 129]; [226; 128; 130]; [226; 128; 131];
      [226; 128; 132]; [226; 128; 133]; [226; 128; 134]; [226; 128; 135];
      [226; 128; 136]; [226; 128; 137]; [226; 128; 138]; [226; 128; 168];
      [226; 128; 169]; [226; 128; 175]; [226; 129; 159]; [227; 128; 128] ]%nat.

Definition IsSpace (rune : bytes) : bool := bool_decide (rune ∈ space_runes).

(** The text without the white space it begins with. A byte that
    begins no encoding of a white space rune ends the run. *)
Fixpoint TrimLeft (s : bytes) : bytes :=
  match s with
  | [] => []
  | c1 :: t1 =>
      if IsSpace [c1] then TrimLeft t1
      else match t1 with
           | [] => s
           | c2 :: t2 =>
               if IsSpace [c1; c2] then TrimLeft t2
               else match t2 with
                    | [] => s
                    | c3 :: t3 => if IsSpace [c1; c2; c3] then TrimLeft t3 else s
                    end
           end
  end.

(** The same from the end, on the text reversed: the last rune is
    decoded from the nearest byte that can begin an encoding. *)
Fixpoint TrimLeft_reversed (r : bytes) : bytes :=
  match r with
  | [] => []
  | c1 :: t1 =>
      if IsSpace [c1] then TrimLeft_reversed t1
      else match t1 with
           | [] => r
           | c2 :: t2 =>
               if IsSpace [c2; c1] then TrimLeft_reversed t2
               else match t2 with
                    | [] => r
                    | c3 :: t3 =>
                        if IsSpace [c3; c2; c1] then TrimLeft_reversed t3 else r
                    end
           end
  end.

(** [strings.TrimSpace(s)] *)
Definition TrimSpace (s : bytes) : bytes :=
  rev (TrimLeft_reversed (rev (TrimLeft s))).

End strings.

(** [parseEditor]: the indexing [a[0]] panics on an empty slice. *)
Definition parseEditor (s : string) : res (string * list string) :=
  match strings.Split (B s) " " with
  | a0 :: rest => Ok (string_of_list_ascii a0, map string_of_list_ascii rest)
  | [] => Panic
  end.

(** ** The run *)

(** What [Run] finds around it. The flags are those [flag.Parse] has
    read from the command line. *)
Record flags : Type := Flags {
  dryRun : bool;
  verbose : bool;
  Args : list string                    (* fs.Args(), the arguments after the flags *)
}.

Inductive Stdin : Type :=
  | Terminal                            (* terminal.IsTerminal(stdin) *)
  | Piped (buf : bytes)                 (* ioutil.ReadAll(os.Stdin) returns buf *)
  | Unreadable.                         (* ioutil.ReadAll(os.Stdin) fails *)

Record environment : Type := Environment {
  stdin : Stdin;
  BED_EDITOR : string;                  (* os.Getenv *)
  EDITOR : string;
  Compile : string -> option Regexp;    (* regexp.Compile *)
  TempFile : option string;             (* the name of the file ioutil.TempFile makes *)
  (* exec.Command(cmd, args...).Run(): what the editor leaves of the
     files, and whether it exits with code 0 *)
  Command : string -> list string -> gmap string file -> bool * gmap string file
}.

Inductive failure : Type :=
  | ErrHelp                             (* flag.ErrHelp *)
  | ErrPathRequired                     (* "path required" *)
  | ErrEditorNotSet                     (* "EDITOR must be set" *)
  | ErrStdin
  | ErrPattern (pattern : string)
  | ErrTempFile
  | ErrEditor (editor : string)         (* "There was a problem with editor %q" *)
  | ErrOf (e : error).

(** How [Run] ends: it returns [nil] or an error, or it panics. *)
Inductive exit : Type :=
  | Returned (err : option failure)
  | Panicked.

Definition exit_of {A} (r : res A) : exit :=
  match r with
  | Ok _ => Returned None
  | Err e => Returned (Some (ErrOf e))
  | Panic => Panicked
  end.

Definition is_terminal (s : Stdin) : bool :=
  match s with Terminal => true | _ => false end.

(** [editor]: BED_EDITOR, or EDITOR when that is empty. *)
Definition editor_of (env : environment) : string :=
  if String.eqb (BED_EDITOR env) "" then EDITOR env else BED_EDITOR env.

(** The paths of the command line followed by those read from the
    standard input, one per line, when it is not a terminal. *)
Definition paths_of (env : environment) (fl : flags) : option (list string) :=
  match stdin env with
  | Terminal => Some (tail (Args fl))
  | Piped buf =>
      Some (tail (Args fl)
            ++ map string_of_list_ascii (strings.Split (strings.TrimSpace buf) LF))
  | Unreadable => None
  end.

(** [fmt.Printf("%s: %s\n", m.Path, string(m.Data))] *)
Definition printed (m : Match) : bytes := B (Path m) ++ B ": " ++ Data m ++ [LF].

(** [f.Write(data)] on the open file [name]. *)
Definition file_write (fs : gmap string file) (name : string) (data : bytes)
  : gmap string file :=
  match fs !! name with
  | Some f => <[name := File (contents f ++ data) (mode f)]> fs
  | None => fs
  end.

(** The loop of [writeTempMatchFile] on the file system. *)
Fixpoint writeBlocks (name : string) (matches : list Match) (fs : gmap string file)
  : res unit * gmap string file :=
  match matches with
  | [] => (Ok tt, fs)
  | m :: rest =>
      match MarshalText m with
      | Ok buf => writeBlocks name rest (file_write (file_write fs name buf) name [LF])
      | Err e => (Err e, fs)
      | Panic => (Panic, fs)
      end
  end.

(** [writeTempMatchFile] with the file it makes: a new file [name] of
    mode 0600. *)
Definition createTempMatchFile (name : string) (matches : list Match)
  (fs : gmap string file) : res unit * gmap string file :=
  writeBlocks name matches (<[name := File [] 384%N]> fs).

(** The second half of [Run], from line 93 on: the records go to the
    temporary file, the editor runs on it, the text it leaves is decoded
    and applied. [iter] is the order in which Go ranges over the map of
    [groupMatchesByPath]. The writes of [ApplyMatches] are taken to
    succeed. *)
Definition editAndApply (rt : runtime) (iter : list string) (env : environment)
  (editor : string) (matches : list Match) (fs : gmap string file)
  : exit * gmap string file * bytes :=
  match TempFile env with
  | None => (Returned (Some ErrTempFile), fs, [])
  | Some tmpPath =>
  match createTempMatchFile tmpPath matches fs with
  | (Err e, fs1) => (Returned (Some (ErrOf e)), fs1, [])
  | (Panic, fs1) => (Panicked, fs1, [])
  | (Ok _, fs1) =>
  (* from here on the deferred os.Remove(tmpPath) runs at the end *)
  match parseEditor editor with
  | Err e => (Returned (Some (ErrOf e)), delete tmpPath fs1, [])
  | Panic => (Panicked, delete tmpPath fs1, [])
  | Ok (cmd, args) =>
  match Command env cmd (args ++ [tmpPath]) fs1 with
  | (false, fs2) => (Returned (Some (ErrEditor editor)), delete tmpPath fs2, [])
  | (true, fs2) =>
  match ReadFile rt fs2 tmpPath with
  | Err e => (Returned (Some (ErrOf e)), delete tmpPath fs2, [])
  | Panic => (Panicked, delete tmpPath fs2, [])
  | Ok buf =>
  match ParseMatches (elems buf) with
  | Err e => (Returned (Some (ErrOf e)), delete tmpPath fs2, [])
  | Panic => (Panicked, delete tmpPath fs2, [])
  | Ok newMatches =>
      let '(r, w) := ApplyMatches rt iter (seq 0 (length newMatches))
                       (World fs2 newMatches) in
      (exit_of r, delete tmpPath (files w), [])
  end end end end end end.

(** [Run] from line 36 on, after the flags are parsed. The result is
    how the call ends, the files it leaves and what it has written to
    the standard output. *)
Definition Run (rt : runtime) (iter : list string) (env : environment) (fl : flags)
  (fs : gmap string file) : exit * gmap string file * bytes :=
  match Args fl with
  | [] => (Returned (Some ErrHelp), fs, [])
  | pattern :: _ =>
  if is_terminal (stdin env) && (length (Args fl) =? 1)%nat
  then (Returned (Some ErrPathRequired), fs, []) else
  let editor := editor_of env in
  if String.eqb editor "" && negb (dryRun fl)
  then (Returned (Some ErrEditorNotSet), fs, []) else
  match paths_of env fl with
  | None => (Returned (Some ErrStdin), fs, [])
  | Some paths =>
  match Compile env pattern with
  | None => (Returned (Some (ErrPattern pattern)), fs, [])
  | Some re =>
  match FindAllIndexPaths rt re fs paths with
  | Err e => (Returned (Some (ErrOf e)), fs, [])
  | Panic => (Panicked, fs, [])
  | Ok matches =>
  if dryRun fl then (Returned None, fs, concat (map printed matches))
  else editAndApply rt iter env editor matches fs
  end end end end.

(** ** Properties of a run *)

(** The run gets as far as the scan and the scan can read every file:
    there is a pattern, a path is given when the standard input is a
    terminal, the pattern compiles to [re], and [paths] are the paths
    of the command line and of the standard input. *)
Definition scans (env : environment) (fl : flags) (fs : gmap string file)
  (pattern : string) (re : Regexp) (paths : list string) : Prop :=
  head (Args fl) = Some pattern /\
  (stdin env = Terminal -> tail (Args fl) <> []) /\
  paths_of env fl = Some paths /\
  Compile env pattern = Some re /\
  Forall (scannable re fs) paths.

(** [iter] is an order in which Go may range over the paths of [ms]. *)
Definition visits (iter : list string) (ms : list Match) : Prop :=
  NoDup iter /\ forall path, path ∈ iter <-> path ∈ map Path ms.

(** The spans follow one another from offset [from] on, as the
    successive matches of a pattern do. *)
Fixpoint spans_ascending (from : Z) (a : list (Z * Z)) : Prop :=
  match a with
  | [] => True
  | se :: rest => from <= fst se /\ spans_ascending (snd se) rest
  end.

Definition in_order (re : Regexp) (fs : gmap string file) (path : string) : Prop :=
  forall f, fs !! path = Some f -> spans_ascending 0 (FindAllIndex re (contents f)).

(** The record [m] with the body the user has typed in its block. *)
Definition edited (e : Match -> bytes) (m : Match) : Match :=
  mkMatch (Path m) (Pos m) (Len m) (e m).

(** An editor that replaces the text of the file it is given by [text]
    and exits with code 0. *)
Definition types (text : bytes) : string -> list string -> gmap string file
  -> bool * gmap string file :=
  fun _ args fs =>
    match last args with
    | Some name => (true, <[name := File text (default 384%N (mode <$> fs !! name))]> fs)
    | None => (false, fs)
    end.

(** An environment for examples: a terminal, the editor [vi -e], the
    pattern taken as one byte. *)
Definition env_of (command : string -> list string -> gmap string file
                              -> bool * gmap string file) : environment :=
  Environment Terminal "" "vi -e"
    (fun pattern => match B pattern with [c] => Some (re_byte c) | _ => None end)
    (Some "/tmp/bed-1"%string) command.

(** The text an editor leaves when the two matches of [fs_X] have been
    given the bodies of [two_X]. *)
Definition two_X_text : bytes :=
  match writeTempMatchFile two_X with Ok text => text | _ => [] end.

(** A disk for examples: the write to the file "b" fails after its
    first byte, every other write succeeds. *)
Definition disk_b : disk :=
  fun path => if String.eqb path "b" then Torn 1 else Complete.

(** * Properties *)

(** ** Integers and slices *)

Lemma int_wrap_id z : is_int z -> int_wrap z = z.
Proof.
  unfold is_int, int_wrap, int_min, int_max. intros H.
  rewrite Z.mod_small; lia.
Qed.

Lemma int_wrap_is_int z : is_int (int_wrap z).
Proof.
  unfold is_int, int_wrap, int_min, int_max.
  pose proof (Z.mod_pos_bound (z + 2 ^ 63) (2 ^ 64)). lia.
Qed.

Lemma blen_nonneg b : 0 <= blen b.
Proof. unfold blen. lia. Qed.

Lemma blen_app a b : blen (a ++ b) = blen a + blen b.
Proof. unfold blen. rewrite length_app. lia. Qed.

Lemma elems_append rt a b : elems (append rt a b) = elems a ++ elems b.
Proof. unfold append. destruct (len b <=? blen (spare a)); reflexivity. Qed.

Lemma slice_to_inside s hi :
  0 <= hi <= len s ->
  slice_to s hi = Ok (Slice (take (Z.to_nat hi) (elems s)) []).
Proof.
  intros H. unfold slice_to, cap, len, blen in *.
  destruct (Z.leb_spec 0 hi); [|lia].
  destruct (Z.leb_spec hi (Z.of_nat (length (elems s)) + Z.of_nat (length (spare s)))); [|lia].
  simpl. rewrite take_app_le by lia. reflexivity.
Qed.

Lemma slice_from_inside s lo :
  0 <= lo <= len s ->
  slice_from s lo = Ok (Slice (drop (Z.to_nat lo) (elems s)) (spare s)).
Proof.
  intros H. unfold slice_from.
  destruct (Z.leb_spec 0 lo); [|lia].
  destruct (Z.leb_spec lo (len s)); [|lia]. reflexivity.
Qed.

Lemma in_boundsb_spec content m :
  in_boundsb content m = true <-> in_bounds content m.
Proof.
  unfold in_boundsb, in_bounds.
  rewrite !andb_true_iff, !Z.leb_le. tauto.
Qed.

(** A span inside the contents is spliced without a panic, whatever the
    capacities are. *)
Lemma splice_in_bounds rt data m :
  in_bounds (elems data) m -> len data <= int_max ->
  exists sp, splice rt data m = Ok (Slice (spliced (elems data) m) sp).
Proof.
  intros (Hp & Hl & Hb) Hmax. unfold splice.
  assert (Hend : int_add (Pos m) (Len m) = Pos m + Len m).
  { apply int_wrap_id. unfold is_int, int_min, len in *. lia. }
  rewrite Hend.
  rewrite slice_to_inside by (unfold len; lia). simpl.
  rewrite slice_from_inside by (unfold len; lia). simpl.
  set (r := append rt _ _). exists (spare r).
  assert (Hr : elems r = spliced (elems data) m).
  { unfold r. rewrite !elems_append. reflexivity. }
  destruct r; simpl in *; subst; reflexivity.
Qed.

(** Without validation in the source, a span of non-negative length that
    is not inside the contents makes a slice expression panic. *)
Lemma splice_out_of_bounds rt data m :
  is_int (Pos m) -> is_int (Len m) -> 0 <= Len m ->
  ~ in_bounds (elems data) m ->
  splice rt data m = Panic.
Proof.
  intros HP HL Hl Hnb. unfold splice, slice_to.
  destruct (Z.leb_spec 0 (Pos m)) as [Hp|Hp]; [|reflexivity].
  destruct (Z.leb_spec (Pos m) (cap data)) as [Hc|Hc]; [|reflexivity].
  simpl. unfold slice_from.
  assert (Hout : blen (elems data) < Pos m + Len m).
  { unfold in_bounds in Hnb. lia. }
  destruct (Z.leb_spec 0 (int_add (Pos m) (Len m))) as [H0|H0]; [|reflexivity].
  destruct (Z.leb_spec (int_add (Pos m) (Len m)) (len data)) as [H1|H1]; [|reflexivity].
  exfalso. unfold int_add, int_wrap, is_int, int_min, int_max, len in *.
  destruct (Z.le_gt_cases (Pos m + Len m) (2 ^ 63 - 1)) as [Hs|Hs].
  - rewrite Z.mod_small in H1 by lia. lia.
  - replace (Pos m + Len m + 2 ^ 63) with ((Pos m + Len m - 2 ^ 63) + 1 * 2 ^ 64) in H0 by lia.
    rewrite Z.mod_add in H0 by lia.
    rewrite Z.mod_small in H0 by lia. lia.
Qed.

(** ** The inner loop *)

Lemma shiftLater_spec m later h rm :
  NoDup (m :: later) -> h !! m = Some rm ->
  (forall j, j ∈ later -> is_Some (h !! j)) ->
  exists h', shiftLater m later h = (Ok tt, h') /\
    length h' = length h /\
    (forall j rj, j ∈ later -> h !! j = Some rj -> h' !! j = Some (shift rm rj)) /\
    (forall k, k ∉ later -> h' !! k = h !! k).
Proof.
  revert h. induction later as [|j later IH]; intros h Hnd Hm Hval.
  - exists h. simpl. repeat split; auto. intros j rj Hj. inversion Hj.
  - apply NoDup_cons in Hnd as [Hm_notin Hnd].
    apply NoDup_cons in Hnd as [Hj_notin Hnd].
    assert (Hmj : m <> j) by (intros ->; apply Hm_notin; left).
    assert (Hm_later : m ∉ later) by (intros Hin; apply Hm_notin; right; exact Hin).
    destruct (Hval j) as [rj Hj]; [left|].
    simpl. rewrite Hj, Hm.
    set (h1 := if Pos rj >=? Pos rm
               then <[j := set_Pos rj (int_add (Pos rj) (int_sub (blen (Data rm)) (Len rm)))]> h
               else h).
    assert (Hlen1 : length h1 = length h).
    { unfold h1. destruct (Pos rj >=? Pos rm); [apply length_insert|reflexivity]. }
    assert (Hother : forall k, k <> j -> h1 !! k = h !! k).
    { intros k Hk. unfold h1. destruct (Pos rj >=? Pos rm); [|reflexivity].
      apply list_lookup_insert_ne. congruence. }
    assert (Hj1 : h1 !! j = Some (shift rm rj)).
    { unfold h1, shift, delta. destruct (Pos rj >=? Pos rm); [|exact Hj].
      apply list_lookup_insert_eq. apply lookup_lt_Some in Hj. exact Hj. }
    destruct (IH h1) as (h' & Hrun & Hlen & Hin & Hout).
    + apply NoDup_cons; split; assumption.
    + rewrite Hother by congruence. exact Hm.
    + intros k Hk. rewrite Hother; [apply Hval; right; exact Hk|].
      intros ->. contradiction.
    + exists h'. split.
      { unfold h1 in Hrun. destruct (Pos rj >=? Pos rm); exact Hrun. }
      split; [congruence|]. split.
      * intros k rk Hk Hlk. apply elem_of_cons in Hk as [->|Hk].
        -- rewrite Hout by assumption. rewrite Hj in Hlk. injection Hlk as <-. exact Hj1.
        -- apply Hin; [exact Hk|]. rewrite Hother; [exact Hlk|].
           intros ->. contradiction.
      * intros k Hk. apply not_elem_of_cons in Hk as [Hkj Hk].
        rewrite Hout by assumption. apply Hother. exact Hkj.
Qed.


(** ** The outer loop *)

Lemma patch_under_compose ms :
  forall (f g : Match -> Match) c,
  patch_under (fun r => g (f r)) c ms = patch_under g c (map f ms).
Proof.
  induction ms as [|m0 rest IH]; intros f g c; simpl; [reflexivity|].
  destruct (in_boundsb c (g (f m0)) && (blen c <=? int_max)); [|reflexivity].
  rewrite <- IH. reflexivity.
Qed.

Lemma patch_under_map f c ms :
  patch_under f c ms = patch c (map f ms).
Proof. unfold patch. rewrite <- patch_under_compose. reflexivity. Qed.

Lemma patch_cons c m rest :
  patch c (m :: rest) =
  if in_boundsb c m && (blen c <=? int_max)
  then patch (spliced c m) (map (shift m) rest) else None.
Proof.
  unfold patch at 1. simpl.
  destruct (in_boundsb c m && (blen c <=? int_max)); [|reflexivity].
  apply patch_under_map.
Qed.

Lemma deref_elem h ps rs p :
  deref h ps rs -> p ∈ ps -> is_Some (h !! p).
Proof.
  induction 1 as [|q r ps rs Hq _ IH]; intros Hin.
  - inversion Hin.
  - apply elem_of_cons in Hin as [->|Hin]; eauto.
Qed.

Lemma deref_shift h h' rm ps rs :
  deref h ps rs ->
  (forall j rj, j ∈ ps -> h !! j = Some rj -> h' !! j = Some (shift rm rj)) ->
  deref h' ps (map (shift rm) rs).
Proof.
  induction 1 as [|q r ps rs Hq _ IH]; intros Hsh; simpl.
  - constructor.
  - constructor.
    + apply Hsh; [left|exact Hq].
    + apply IH. intros j rj Hj. apply Hsh. right. exact Hj.
Qed.

(** On distinct records the loop of [applyPathMatches] computes [patch]
    of the records it is given, and touches no record outside them. *)
Lemma applyLoop_patch rt ptrs :
  forall data h recs c,
  NoDup ptrs -> deref h ptrs recs ->
  patch (elems data) recs = Some c ->
  exists sp h', applyLoop rt data ptrs h = (Ok (Slice c sp), h') /\
    length h' = length h /\
    (forall k, k ∉ ptrs -> h' !! k = h !! k).
Proof.
  induction ptrs as [|m later IH]; intros data h recs c Hnd Hd Hp.
  - inversion Hd; subst. unfold patch in Hp. simpl in Hp. injection Hp as <-.
    exists (spare data), h. simpl. destruct data; auto.
  - inversion Hd as [|? rm ? rs Hm Hd']; subst.
    rewrite patch_cons in Hp.
    destruct (in_boundsb (elems data) rm && (blen (elems data) <=? int_max)) eqn:Hb;
      [|discriminate].
    apply andb_true_iff in Hb as [Hb Hmax].
    apply in_boundsb_spec in Hb. apply Z.leb_le in Hmax.
    destruct (splice_in_bounds rt data rm Hb Hmax) as [sp Hsp].
    destruct (shiftLater_spec m later h rm Hnd Hm) as (h1 & Hrun & Hlen1 & Hin1 & Hout1).
    { intros j Hj. eapply deref_elem; eauto. }
    apply NoDup_cons in Hnd as [Hm_notin Hnd].
    destruct (IH (Slice (spliced (elems data) rm) sp) h1 (map (shift rm) rs) c Hnd)
      as (sp' & h' & Hloop & Hlen & Hout).
    + eapply deref_shift; eauto.
    + exact Hp.
    + exists sp', h'. simpl. rewrite Hm, Hsp, Hrun. split; [exact Hloop|].
      split; [congruence|].
      intros k Hk. apply not_elem_of_cons in Hk as [Hkm Hk].
      rewrite Hout by assumption. apply Hout1. exact Hk.
Qed.

(** ** The patcher on one file *)

(** On a disk on which every write succeeds the patcher returns the
    error of no write. *)
Lemma applyPathMatches_reliable rt path matches w :
  applyPathMatches rt path matches w =
  match ReadFile rt (files w) path with
  | Ok data =>
      match applyLoop rt data matches (records w) with
      | (Ok data', h') =>
          match Stat (files w) path with
          | Ok perm => (Ok tt, World (stored (files w) path data' perm) h')
          | Err e => (Err e, World (files w) h')
          | Panic => (Panic, World (files w) h')
          end
      | (Err e, h') => (Err e, World (files w) h')
      | (Panic, h') => (Panic, World (files w) h')
      end
  | Err e => (Err e, w)
  | Panic => (Panic, w)
  end.
Proof. reflexivity. Qed.

Lemma applyGroups_nil rt pathMatches w : applyGroups rt [] pathMatches w = (Ok tt, w).
Proof. reflexivity. Qed.

Lemma applyGroups_cons rt path paths ms pathMatches w :
  applyGroups rt (path :: paths) (ms :: pathMatches) w =
  match applyPathMatches rt path ms w with
  | (Ok _, w') => applyGroups rt paths pathMatches w'
  | (Err e, w') => (Err e, w')
  | (Panic, w') => (Panic, w')
  end.
Proof. reflexivity. Qed.

Lemma ApplyMatches_unfold rt iter matches w :
  ApplyMatches rt iter matches w =
  match groupMatchesByPath iter matches (records w) with
  | Ok (paths, pathMatches) => applyGroups rt paths pathMatches w
  | Err e => (Err e, w)
  | Panic => (Panic, w)
  end.
Proof. reflexivity. Qed.

Lemma applyPathMatches_patch rt path ptrs w f recs c :
  files w !! path = Some f ->
  NoDup ptrs -> deref (records w) ptrs recs ->
  patch (contents f) recs = Some c ->
  exists h', applyPathMatches rt path ptrs w
             = (Ok tt, World (<[path := File c (mode f)]> (files w)) h') /\
    length h' = length (records w) /\
    (forall k, k ∉ ptrs -> h' !! k = records w !! k).
Proof.
  intros Hf Hnd Hd Hp. rewrite !applyPathMatches_reliable. unfold ReadFile, Stat, stored.
  rewrite Hf.
  destruct (applyLoop_patch rt ptrs (Slice (contents f) (rt_read rt (contents f)))
              (records w) recs c Hnd Hd Hp) as (sp & h' & Hloop & Hlen & Hout).
  rewrite Hloop. exists h'. simpl. auto.
Qed.

(** C1. A file holding "aaaXbbbXccc" and the two records (pos 3, len 1,
    data "YY") and (pos 7, len 1, data "Z"), applied in that order, are
    rewritten to exactly "aaaYYbbbZccc": the first splice grows the
    contents by one byte, the second record is moved to offset 8 and
    spliced there. This holds for every capacity the runtime may choose
    and every file mode. *)
Theorem C1_offset_shift_example (rt : runtime) (perm : N) :
  applyPathMatches rt "f" [0%nat; 1%nat]
    (World {[ "f"%string := File (B "aaaXbbbXccc") perm ]}
           [mkMatch "f" 3 1 (B "YY"); mkMatch "f" 7 1 (B "Z")])
  = (Ok tt,
     World {[ "f"%string := File (B "aaaYYbbbZccc") perm ]}
           [mkMatch "f" 3 1 (B "YY"); mkMatch "f" 8 1 (B "Z")]).
Proof.
  rewrite !applyPathMatches_reliable. unfold ReadFile, Stat, stored. cbn [files records].
  rewrite lookup_singleton_eq. cbn [contents mode].
  cbn [applyLoop lookup list_lookup].
  destruct (splice_in_bounds rt
              (Slice (B "aaaXbbbXccc") (rt_read rt (B "aaaXbbbXccc")))
              (mkMatch "f" 3 1 (B "YY"))) as [sp1 H1].
  { apply in_boundsb_spec. reflexivity. }
  { apply Z.leb_le. reflexivity. }
  cbn [elems] in H1. rewrite H1. cbn [shiftLater lookup list_lookup Pos Len Data].
  change (7 >=? 3) with true. cbv iota.
  change (<[1%nat:=set_Pos (mkMatch "f" 7 1 (B "Z"))
                     (int_add 7 (int_sub (blen (B "YY")) 1))]>
            [mkMatch "f" 3 1 (B "YY"); mkMatch "f" 7 1 (B "Z")])
    with [mkMatch "f" 3 1 (B "YY"); mkMatch "f" 8 1 (B "Z")].
  cbn [applyLoop lookup list_lookup].
  destruct (splice_in_bounds rt
              (Slice (spliced (B "aaaXbbbXccc") (mkMatch "f" 3 1 (B "YY"))) sp1)
              (mkMatch "f" 8 1 (B "Z"))) as [sp2 H2].
  { apply in_boundsb_spec. reflexivity. }
  { apply Z.leb_le. reflexivity. }
  cbn [elems] in H2. rewrite H2. cbn [shiftLater elems].
  rewrite insert_singleton_eq. reflexivity.
Qed.

Lemma int_add_exact a b : is_int (a + b) -> int_add a b = a + b.
Proof. apply int_wrap_id. Qed.

Lemma int_sub_exact a b : is_int (a - b) -> int_sub a b = a - b.
Proof. apply int_wrap_id. Qed.

Lemma settled_under_compose ms :
  forall (f g : Match -> Match),
  settled_under (fun r => g (f r)) ms = settled_under g (map f ms).
Proof.
  induction ms as [|m0 rest IH]; intros f g; cbn [settled_under map]; [reflexivity|].
  f_equal. apply (IH f (fun r => shift (g (f m0)) (g r))).
Qed.

Lemma settled_cons m rest : settled (m :: rest) = m :: settled (map (shift m) rest).
Proof.
  unfold settled. cbn [settled_under]. f_equal.
  apply (settled_under_compose rest (shift m) (fun r => r)).
Qed.

(** The heap the loop returns: every record of the group is in it as
    the turns before its own have left it. *)
Lemma applyLoop_settled rt ptrs :
  forall data h recs,
  NoDup ptrs -> deref h ptrs recs ->
  spans_inside (elems data) recs ->
  exists out h', applyLoop rt data ptrs h = (Ok out, h') /\
    deref h' ptrs (settled recs) /\
    (forall k, k ∉ ptrs -> h' !! k = h !! k).
Proof.
  induction ptrs as [|m later IH]; intros data h recs Hnd Hd Hsp.
  - inversion Hd; subst. exists data, h. repeat split. constructor.
  - inversion Hd as [|? rm ? rs Hm Hd']; subst.
    inversion Hsp as [|? ? ? Hb Hmax Hrest]; subst.
    destruct (splice_in_bounds rt data rm Hb Hmax) as [sp Hsplice].
    destruct (shiftLater_spec m later h rm Hnd Hm) as (h1 & Hrun & _ & Hin1 & Hout1).
    { intros j Hj. eapply deref_elem; eauto. }
    apply NoDup_cons in Hnd as [Hm_notin Hnd].
    destruct (IH (Slice (spliced (elems data) rm) sp) h1 (map (shift rm) rs) Hnd)
      as (out & h' & Hloop & Hd'' & Hframe).
    + eapply deref_shift; eauto.
    + exact Hrest.
    + exists out, h'. cbn [applyLoop]. rewrite Hm, Hsplice, Hrun.
      split; [exact Hloop|]. split.
      * rewrite settled_cons. constructor; [|exact Hd''].
        rewrite (Hframe m Hm_notin), (Hout1 m Hm_notin). exact Hm.
      * intros k Hk. apply not_elem_of_cons in Hk as [Hkm Hk].
        rewrite (Hframe k Hk). apply Hout1. exact Hk.
Qed.



(** ** Bounds *)

Lemma spans_inside_patch content ms :
  spans_inside content ms <-> is_Some (patch content ms).
Proof.
  split.
  - induction 1 as [c|c m rest Hb Hmax _ IH].
    + eexists; reflexivity.
    + rewrite patch_cons.
      apply in_boundsb_spec in Hb. apply Z.leb_le in Hmax. rewrite Hb, Hmax. exact IH.
  - remember (length ms) as n eqn:Hn. revert content ms Hn.
    induction n as [|n IH]; intros c ms Hn [c' Hp]; destruct ms as [|m rest];
      try discriminate; [constructor|].
    rewrite patch_cons in Hp.
    destruct (in_boundsb c m && (blen c <=? int_max)) eqn:Hb; [|discriminate].
    apply andb_true_iff in Hb as [Hb Hmax].
    constructor; [apply in_boundsb_spec; exact Hb|apply Z.leb_le; exact Hmax|].
    apply IH; [rewrite length_map; simpl in Hn; lia|eauto].
Qed.

(** Whatever room the runtime leaves behind a buffer, a record of
    negative length meets the two inequalities of [span_fits] and makes
    the prefix slice expression panic. *)
Lemma splice_negative_len rt data :
  let m := mkMatch "f" (cap data + 1) (- (cap data + 1)) [] in
  span_fits (elems data) m /\ splice rt data m = Panic.
Proof.
  intros m. unfold span_fits, m. cbn [Pos Len]. split.
  - unfold cap. pose proof (blen_nonneg (elems data)).
    pose proof (blen_nonneg (spare data)). lia.
  - unfold splice, slice_to. cbn [Pos Len].
    destruct (Z.leb_spec (cap data + 1) (cap data)) as [H|H]; [lia|].
    rewrite andb_false_r. reflexivity.
Qed.

(** C10 (as amended). When every record of a group of distinct records
    has, at the moment its span is spliced, [0 <= Pos], [0 <= Len] and
    [Pos + Len] at most the length of the current contents, no slice
    expression of the loop of [applyPathMatches] is out of range: the
    loop ends without a panic, with the contents [patch] computes. The
    condition is needed because the loop validates nothing: a record of
    non-negative length whose span is not inside the current contents
    makes the loop panic at its turn. *)
Theorem C10_spans_inside_no_panic rt data ptrs h recs :
  NoDup ptrs ->
  deref h ptrs recs ->
  (spans_inside (elems data) recs ->
     exists c sp h',
       applyLoop rt data ptrs h = (Ok (Slice c sp), h') /\
       patch (elems data) recs = Some c) /\
  (forall m later rm,
     ptrs = m :: later -> recs !! 0%nat = Some rm ->
     is_int (Pos rm) -> is_int (Len rm) -> 0 <= Len rm ->
     ~ in_bounds (elems data) rm ->
     applyLoop rt data ptrs h = (Panic, h)).
Proof.
  intros Hnd Hd. split.
  - intros Hin. apply spans_inside_patch in Hin as [c Hc].
    destruct (applyLoop_patch rt ptrs data h recs c Hnd Hd Hc) as (sp & h' & Hloop & _).
    exists c, sp, h'. split; assumption.
  - intros m later rm -> Hrm HP HL Hl Hout.
    inversion Hd as [|? r ? rs Hm _]; subst. simpl in Hrm. injection Hrm as ->.
    simpl. rewrite Hm. rewrite splice_out_of_bounds by assumption. reflexivity.
Qed.

Lemma C10_witness :
  (exists c sp h',
     applyLoop rt0 (Slice (B "aaaXbbbXccc") (repeat zero 512)) [0%nat; 1%nat] two_X
       = (Ok (Slice c sp), h') /\
     patch (B "aaaXbbbXccc") two_X = Some c) /\
  applyLoop rt0 (Slice (B "abc") (repeat zero 512)) [0%nat] [mkMatch "f" 2 2 []]
    = (Panic, [mkMatch "f" 2 2 []]).
Proof.
  split.
  - apply (C10_spans_inside_no_panic rt0
             (Slice (B "aaaXbbbXccc") (repeat zero 512)) [0%nat; 1%nat] two_X two_X).
    + compute_done.
    + repeat constructor.
    + apply spans_inside_patch. vm_compute. eexists; reflexivity.
  - apply (C10_spans_inside_no_panic rt0
             (Slice (B "abc") (repeat zero 512)) [0%nat] [mkMatch "f" 2 2 []]
             [mkMatch "f" 2 2 []]
             ltac:(compute_done) ltac:(repeat constructor))
      with (m := 0%nat) (later := @nil nat) (rm := mkMatch "f" 2 2 []).
    + reflexivity.
    + reflexivity.
    + vm_compute; split; discriminate.
    + vm_compute; split; discriminate.
    + vm_compute; discriminate.
    + unfold in_bounds. vm_compute. intros (_ & _ & H). apply H. reflexivity.
Defined.

(** C10 as the design document states it fails: the record below meets
    [0 <= pos] and [pos + len <= length], and the prefix slice
    [data[:start:start]] is out of range all the same. *)
Lemma C10_counterexample :
  span_fits (B "abcde") (mkMatch "f" 1000000 (-999998) []) /\
  applyPathMatches rt0 "f" [0%nat]
    (World {[ "f"%string := File (B "abcde") 420%N ]} [mkMatch "f" 1000000 (-999998) []])
  = (Panic,
     World {[ "f"%string := File (B "abcde") 420%N ]} [mkMatch "f" 1000000 (-999998) []]).
Proof.
  split.
  - vm_compute. split; discriminate.
  - rewrite applyPathMatches_reliable. unfold ReadFile. cbn [files records].
    rewrite lookup_singleton_eq. reflexivity.
Qed.

(** C2 (as amended). The loop of [applyPathMatches] on a group of
    distinct records whose spans are inside the contents when their
    turn comes ends without a panic, and in the heap it returns the
    record spliced first, [rm], is as it was, and every later record
    of the group has first been shifted by [rm] and then by the
    records spliced after [rm] and before itself, each at its own
    turn. A record is shifted by [rm] when its [Pos] at the turn of
    [rm] is at least the [Pos] that [rm] has at that turn, which is
    the [Pos] of its header only as far as no record spliced before it
    has shifted it: then [len(rm.Data) - rm.Len] is added to its
    [Pos] (Go's [int] arithmetic, the integer sum whenever that fits
    an [int]); a record whose [Pos] is below that of [rm] is left as
    it is. Records outside the group are not touched. *)
Theorem C2_later_records_shifted rt data m later h rm rs :
  NoDup (m :: later) ->
  deref h (m :: later) (rm :: rs) ->
  spans_inside (elems data) (rm :: rs) ->
  exists out h',
    applyLoop rt data (m :: later) h = (Ok out, h') /\
    h' !! m = Some rm /\
    deref h' later (settled (map (shift rm) rs)) /\
    (forall k, k ∉ m :: later -> h' !! k = h !! k) /\
    (forall rj,
       (Pos rm <= Pos rj ->
          shift rm rj
          = mkMatch (Path rj) (int_add (Pos rj) (int_sub (blen (Data rm)) (Len rm)))
                    (Len rj) (Data rj) /\
          (is_int (blen (Data rm) - Len rm) ->
           is_int (Pos rj + (blen (Data rm) - Len rm)) ->
           Pos (shift rm rj) = Pos rj + (blen (Data rm) - Len rm))) /\
       (Pos rj < Pos rm -> shift rm rj = rj)) /\
    (forall r rest, settled (r :: rest) = r :: settled (map (shift r) rest)).
Proof.
  intros Hnd Hd Hsp.
  destruct (applyLoop_settled rt (m :: later) data h (rm :: rs) Hnd Hd Hsp)
    as (out & h' & Hloop & Hd' & Hframe).
  rewrite settled_cons in Hd'. inversion Hd' as [|? ? ? ? Hm' Hlater]; subst.
  exists out, h'. split; [exact Hloop|]. split; [exact Hm'|]. split; [exact Hlater|].
  split; [exact Hframe|]. split; [|exact settled_cons].
  intros rj. unfold shift, delta. split.
  - intros Hge. apply Z.geb_le in Hge. rewrite Hge. split; [reflexivity|].
    intros H1 H2. cbn [set_Pos Pos]. rewrite (int_sub_exact _ _ H1).
    apply int_add_exact. exact H2.
  - intros Hlt. destruct (Z.geb_spec (Pos rj) (Pos rm)) as [Hge|_]; [lia|reflexivity].
Qed.

Lemma C2_witness :
  exists out h',
    applyLoop rt0 (Slice (B "0123456789abXcdXe") []) [0%nat; 1%nat; 2%nat] three_recs
    = (Ok out, h') /\
    h' !! 0%nat = Some (mkMatch "f" 0 10 []) /\
    h' !! 1%nat = Some (mkMatch "f" 2 1 (B "YY")) /\
    h' !! 2%nat = Some (mkMatch "f" 6 1 (B "Z")).
Proof.
  destruct (C2_later_records_shifted rt0 (Slice (B "0123456789abXcdXe") [])
              0%nat [1%nat; 2%nat] three_recs (mkMatch "f" 0 10 [])
              [mkMatch "f" 12 1 (B "YY"); mkMatch "f" 15 1 (B "Z")])
    as (out & h' & Hloop & Hm & Hlater & _).
  - compute_done.
  - repeat constructor.
  - apply spans_inside_patch. vm_compute. eexists; reflexivity.
  - exists out, h'. split; [exact Hloop|]. split; [exact Hm|].
    assert (Hs : settled (map (shift (mkMatch "f" 0 10 []))
                        [mkMatch "f" 12 1 (B "YY"); mkMatch "f" 15 1 (B "Z")])
                 = [mkMatch "f" 2 1 (B "YY"); mkMatch "f" 6 1 (B "Z")])
      by (vm_compute; reflexivity).
    rewrite Hs in Hlater.
    inversion Hlater as [|? ? ? ? H1 Hrest]; subst.
    inversion Hrest as [|? ? ? ? H2 _]; subst.
    split; assumption.
Defined.

(** C2 as stated fails: the threshold is not the [Pos] the record has
    in its header. In [three_recs] the first record deletes ten bytes,
    so that the second, whose header says 12, is at 2 when it is
    spliced and the third is at 5: the third is below 12 and is
    shifted all the same, to 6, where its match now is. And where the
    [Pos] of the headers are compared on both sides the statement
    fails as well: in [edited_recs] the third record has a [Pos] of 12
    in its header, above the 9 of the second, and is not shifted by
    the second, because the first has moved it to 7. *)
Lemma C2_counterexample :
  (shiftLater 0 [1%nat; 2%nat] three_recs
   = (Ok tt, [mkMatch "f" 0 10 []; mkMatch "f" 2 1 (B "YY"); mkMatch "f" 5 1 (B "Z")]) /\
   5 < 12 /\
   shiftLater 1 [2%nat]
     [mkMatch "f" 0 10 []; mkMatch "f" 2 1 (B "YY"); mkMatch "f" 5 1 (B "Z")]
   = (Ok tt, [mkMatch "f" 0 10 []; mkMatch "f" 2 1 (B "YY"); mkMatch "f" 6 1 (B "Z")]) /\
   applyLoop rt0 (Slice (B "0123456789abXcdXe") []) [0%nat; 1%nat; 2%nat] three_recs
   = (Ok (Slice (B "abYYcdZe") []),
      [mkMatch "f" 0 10 []; mkMatch "f" 2 1 (B "YY"); mkMatch "f" 6 1 (B "Z")])) /\
  (shiftLater 0 [1%nat; 2%nat] edited_recs
   = (Ok tt, [mkMatch "f" 10 5 []; mkMatch "f" 9 1 (B "bb"); mkMatch "f" 7 0 (B "c")]) /\
   9 <= 12 /\
   shiftLater 1 [2%nat]
     [mkMatch "f" 10 5 []; mkMatch "f" 9 1 (B "bb"); mkMatch "f" 7 0 (B "c")]
   = (Ok tt, [mkMatch "f" 10 5 []; mkMatch "f" 9 1 (B "bb"); mkMatch "f" 7 0 (B "c")])).
Proof. vm_compute. repeat split; reflexivity || discriminate. Qed.

(** ** Locality of the patcher *)

Lemma insert_agree (h1 h2 : list Match) j v k :
  h1 !! j = h2 !! j -> h1 !! k = h2 !! k ->
  <[j:=v]> h1 !! k = <[j:=v]> h2 !! k.
Proof.
  intros Hj Hk. destruct (decide (j = k)) as [->|Hne].
  - destruct (h1 !! k) eqn:E1.
    + rewrite !list_lookup_insert_eq; [reflexivity| |].
      * symmetry in Hk. apply lookup_lt_Some in Hk. exact Hk.
      * apply lookup_lt_Some in E1. exact E1.
    + symmetry in Hk. apply lookup_ge_None in E1, Hk.
      rewrite !list_insert_ge by lia.
      rewrite !(proj2 (lookup_ge_None _ _)) by lia. reflexivity.
  - rewrite !list_lookup_insert_ne by exact Hne. exact Hk.
Qed.

Lemma shiftLater_frame m later : forall h k,
  k ∉ later -> snd (shiftLater m later h) !! k = h !! k.
Proof.
  induction later as [|j later IH]; intros h k Hk; simpl; [reflexivity|].
  apply not_elem_of_cons in Hk as [Hkj Hk].
  destruct (h !! j) as [rj|]; [|reflexivity].
  destruct (h !! m) as [rm|]; [|reflexivity].
  destruct (Pos rj >=? Pos rm).
  - rewrite IH by exact Hk. apply list_lookup_insert_ne. congruence.
  - apply IH. exact Hk.
Qed.

Lemma shiftLater_agree m later : forall h1 h2,
  h1 !! m = h2 !! m ->
  (forall j, j ∈ later -> h1 !! j = h2 !! j) ->
  fst (shiftLater m later h1) = fst (shiftLater m later h2) /\
  (forall k, h1 !! k = h2 !! k ->
     snd (shiftLater m later h1) !! k = snd (shiftLater m later h2) !! k).
Proof.
  induction later as [|j later IH]; intros h1 h2 Hm Hl; simpl; [auto|].
  assert (Hj : h1 !! j = h2 !! j) by (apply Hl; left).
  rewrite <- Hj, <- Hm.
  destruct (h1 !! j) as [rj|] eqn:E1; [|auto].
  destruct (h1 !! m) as [rm|] eqn:E2; [|auto].
  destruct (Pos rj >=? Pos rm).
  - set (v := set_Pos rj _).
    destruct (IH (<[j:=v]> h1) (<[j:=v]> h2)) as [Hf Hs].
    + apply insert_agree; congruence.
    + intros i Hi. apply insert_agree; [congruence|]. apply Hl. right. exact Hi.
    + split; [exact Hf|]. intros k Hk. apply Hs. apply insert_agree; congruence.
  - apply IH; [congruence|]. intros i Hi. apply Hl. right. exact Hi.
Qed.

Lemma applyLoop_frame rt ptrs : forall data h k,
  k ∉ ptrs -> snd (applyLoop rt data ptrs h) !! k = h !! k.
Proof.
  induction ptrs as [|m later IH]; intros data h k Hk; simpl; [reflexivity|].
  apply not_elem_of_cons in Hk as [Hkm Hk].
  destruct (h !! m) as [rm|]; [|reflexivity].
  destruct (splice rt data rm) as [data'| |]; try reflexivity.
  pose proof (shiftLater_frame m later h k Hk) as Hfr.
  destruct (shiftLater m later h) as [[[]| |] h']; simpl in *; try exact Hfr.
  rewrite IH by exact Hk. exact Hfr.
Qed.

Lemma applyLoop_agree rt ptrs : forall data h1 h2,
  (forall j, j ∈ ptrs -> h1 !! j = h2 !! j) ->
  fst (applyLoop rt data ptrs h1) = fst (applyLoop rt data ptrs h2) /\
  (forall k, h1 !! k = h2 !! k ->
     snd (applyLoop rt data ptrs h1) !! k = snd (applyLoop rt data ptrs h2) !! k).
Proof.
  induction ptrs as [|m later IH]; intros data h1 h2 Hl; simpl; [auto|].
  assert (Hm : h1 !! m = h2 !! m) by (apply Hl; left).
  rewrite <- Hm.
  destruct (h1 !! m) as [rm|] eqn:E1; [|auto].
  destruct (splice rt data rm) as [data'| |]; auto.
  destruct (shiftLater_agree m later h1 h2) as [Hf Hs].
  { congruence. }
  { intros i Hi. apply Hl. right. exact Hi. }
  destruct (shiftLater m later h1) as [r1 g1], (shiftLater m later h2) as [r2 g2].
  simpl in Hf, Hs. subst r2.
  destruct r1 as [[]| |]; simpl; auto.
  destruct (IH data' g1 g2) as [Hf' Hs'].
  { intros i Hi. apply Hs. apply Hl. right. exact Hi. }
  split; [exact Hf'|]. intros k Hk. apply Hs'. apply Hs. exact Hk.
Qed.

Lemma applyPathMatches_local rt path g w1 w2 :
  files w1 !! path = files w2 !! path ->
  (forall k, k ∈ g -> records w1 !! k = records w2 !! k) ->
  fst (applyPathMatches rt path g w1) = fst (applyPathMatches rt path g w2) /\
  files (snd (applyPathMatches rt path g w1)) !! path
  = files (snd (applyPathMatches rt path g w2)) !! path.
Proof.
  intros Hf Hr. rewrite !applyPathMatches_reliable. unfold ReadFile, Stat, stored.
  rewrite <- Hf. destruct (files w1 !! path) as [f|] eqn:E;
    [|simpl; split; congruence].
  destruct (applyLoop_agree rt g (Slice (contents f) (rt_read rt (contents f)))
              (records w1) (records w2) Hr) as [Hfst _].
  destruct (applyLoop rt _ g (records w1)) as [r1 h1].
  destruct (applyLoop rt _ g (records w2)) as [r2 h2].
  simpl in Hfst. subst r2.
  destruct r1; simpl; rewrite ?lookup_insert_eq; split; congruence.
Qed.

Lemma applyPathMatches_frame rt path g w :
  (forall p, p <> path ->
     files (snd (applyPathMatches rt path g w)) !! p = files w !! p) /\
  (forall k, k ∉ g ->
     records (snd (applyPathMatches rt path g w)) !! k = records w !! k).
Proof.
  rewrite !applyPathMatches_reliable. unfold ReadFile, Stat, stored.
  destruct (files w !! path) as [f|] eqn:E; [|simpl; auto].
  pose proof (applyLoop_frame rt g (Slice (contents f) (rt_read rt (contents f)))
                (records w)) as Hfr.
  destruct (applyLoop rt _ g (records w)) as [r h']. simpl in Hfr.
  destruct r; simpl; split; auto.
  intros p Hp. apply lookup_insert_ne. congruence.
Qed.

(** ** Grouping *)

Lemma group_cons_in h q rest r :
  h !! q = Some r -> group h (q :: rest) (Path r) = q :: group h rest (Path r).
Proof. intros Hq. unfold group. rewrite filter_cons_True; [reflexivity|]. rewrite Hq. reflexivity. Qed.

Lemma group_cons_out h q rest r path :
  h !! q = Some r -> path <> Path r -> group h (q :: rest) path = group h rest path.
Proof.
  intros Hq Hne. unfold group. rewrite filter_cons_False; [reflexivity|].
  rewrite Hq. simpl. congruence.
Qed.

Lemma groupMap_spec h ptrs recs :
  deref h ptrs recs ->
  forall m0, exists m,
    groupMap ptrs h m0 = Ok m /\
    forall path, default [] (m !! path) = default [] (m0 !! path) ++ group h ptrs path.
Proof.
  induction 1 as [|q r ptrs recs Hq _ IH]; intros m0.
  - exists m0. split; [reflexivity|]. intros path. unfold group.
    rewrite filter_nil, app_nil_r. reflexivity.
  - simpl. rewrite Hq.
    destruct (IH (<[Path r := default [] (m0 !! Path r) ++ [q]]> m0)) as (m & Hm & Hg).
    exists m. split; [exact Hm|]. intros path. rewrite Hg.
    destruct (decide (path = Path r)) as [->|Hne].
    + rewrite lookup_insert_eq. simpl. rewrite (group_cons_in h q ptrs r Hq).
      rewrite <- app_assoc. reflexivity.
    + rewrite lookup_insert_ne by congruence.
      rewrite (group_cons_out h q ptrs r path Hq Hne). reflexivity.
Qed.

Lemma groupMatchesByPath_spec h ptrs recs iter :
  deref h ptrs recs ->
  groupMatchesByPath iter ptrs h = Ok (iter, map (group h ptrs) iter).
Proof.
  intros Hd. unfold groupMatchesByPath.
  destruct (groupMap_spec h ptrs recs Hd ∅) as (m & Hm & Hg).
  rewrite Hm. simpl. f_equal. f_equal. apply map_ext. intros path.
  rewrite Hg, lookup_empty. reflexivity.
Qed.

Lemma group_disjoint h ptrs p p' k :
  p <> p' -> k ∈ group h ptrs p -> k ∉ group h ptrs p'.
Proof.
  unfold group. intros Hne Hk Hk'.
  apply list_elem_of_filter in Hk as [Hk _].
  apply list_elem_of_filter in Hk' as [Hk' _]. congruence.
Qed.

(** ** Several files *)

Lemma applyGroups_independent rt (G : string -> list ptr) w0 :
  (forall p p' k, p <> p' -> k ∈ G p -> k ∉ G p') ->
  forall iter w, NoDup iter ->
  (forall p, p ∈ iter -> files w !! p = files w0 !! p) ->
  (forall p k, p ∈ iter -> k ∈ G p -> records w !! k = records w0 !! k) ->
  ((forall p, p ∈ iter -> fst (applyPathMatches rt p (G p) w0) = Ok tt) ->
     exists w', applyGroups rt iter (map G iter) w = (Ok tt, w') /\
       (forall p, p ∈ iter ->
          files w' !! p = files (snd (applyPathMatches rt p (G p) w0)) !! p) /\
       (forall p, p ∉ iter -> files w' !! p = files w !! p)) /\
  (forall w', applyGroups rt iter (map G iter) w = (Ok tt, w') ->
     forall p, p ∈ iter -> fst (applyPathMatches rt p (G p) w0) = Ok tt).
Proof.
  intros Hdisj. induction iter as [|p iter IH]; intros w Hnd Hfiles Hrecs.
  - split.
    + intros _. exists w. simpl. split; [reflexivity|]. split; [|reflexivity].
      intros p Hp. inversion Hp.
    + intros w' _ p Hp. inversion Hp.
  - apply NoDup_cons in Hnd as [Hp_notin Hnd].
    destruct (applyPathMatches_local rt p (G p) w w0) as [Hfst Hfile].
    { apply Hfiles. left. }
    { intros k Hk. apply (Hrecs p); [left|exact Hk]. }
    destruct (applyPathMatches_frame rt p (G p) w) as [Hfr_files Hfr_recs].
    cbn [map]. rewrite !applyGroups_cons.
    destruct (applyPathMatches rt p (G p) w) as [r w1] eqn:Erun.
    simpl in Hfst, Hfile, Hfr_files, Hfr_recs.
    assert (Hnext_files : forall q, q ∈ iter -> files w1 !! q = files w0 !! q).
    { intros q Hq. rewrite Hfr_files; [apply Hfiles; right; exact Hq|].
      intros ->. contradiction. }
    assert (Hnext_recs : forall q k, q ∈ iter -> k ∈ G q ->
                           records w1 !! k = records w0 !! k).
    { intros q k Hq Hk. rewrite Hfr_recs; [apply (Hrecs q); [right|]; assumption|].
      apply (Hdisj q p); [|exact Hk]. intros ->. contradiction. }
    destruct (IH w1 Hnd Hnext_files Hnext_recs) as [IHa IHb].
    split.
    + intros Hall. rewrite (Hall p) in Hfst by left. subst r.
      destruct IHa as (w' & Hrun & Hin & Hout).
      { intros q Hq. apply Hall. right. exact Hq. }
      exists w'. split; [exact Hrun|]. split.
      * intros q Hq. apply elem_of_cons in Hq as [->|Hq].
        -- rewrite Hout by exact Hp_notin. exact Hfile.
        -- apply Hin. exact Hq.
      * intros q Hq. apply not_elem_of_cons in Hq as [Hqp Hq].
        rewrite Hout by exact Hq. apply Hfr_files. exact Hqp.
    + intros w' Hrun q Hq. destruct r as [[]| |]; try discriminate.
      apply elem_of_cons in Hq as [->|Hq].
      * symmetry. exact Hfst.
      * eapply IHb; eauto.
Qed.


(** ** Matcher *)

Lemma matchesFrom_spec path content a :
  spans_ok content a -> blen content <= int_max ->
  forall pre,
  matchesFrom path a (pre ++ map (fun se => subslice content (fst se) (snd se)) a)
    (length pre)
  = Ok (map (match_of path content) a).
Proof.
  intros Hok Hmax. induction Hok as [|se a (H0 & H1 & H2) _ IH]; intros pre.
  - reflexivity.
  - simpl. rewrite lookup_app_r by lia. rewrite Nat.sub_diag. simpl.
    specialize (IH (pre ++ [subslice content (fst se) (snd se)])).
    rewrite <- app_assoc, length_app in IH. simpl in IH.
    rewrite Nat.add_1_r in IH. rewrite IH. simpl.
    unfold match_of at 1. rewrite int_sub_exact; [reflexivity|].
    unfold is_int, int_min. lia.
Qed.

Lemma FindAllIndexPath_records rt re fs path f :
  fs !! path = Some f ->
  blen (contents f) <= int_max ->
  spans_ok (contents f) (FindAllIndex re (contents f)) ->
  FindAllIndexPath rt re fs path
    = Ok (map (match_of path (contents f)) (FindAllIndex re (contents f))).
Proof.
  intros Hf Hmax Hok.
  unfold FindAllIndexPath, ReadFile. rewrite Hf. simpl. unfold FindAll.
  apply (matchesFrom_spec path (contents f) _ Hok Hmax []).
Qed.

(** C7. For every pattern and every file, the Matcher returns one
    record per span found by the pattern engine, in the order of the
    scan, with [Pos = start], [Len = end - start] and [Data] the bytes
    of the contents in [[start, end)]; when the pattern matches nowhere
    it returns the empty sequence and no error. The spans are what the
    engine promises: inside the contents and not reversed. *)
Theorem C7_matcher_records rt re fs path f :
  fs !! path = Some f ->
  blen (contents f) <= int_max ->
  spans_ok (contents f) (FindAllIndex re (contents f)) ->
  FindAllIndexPath rt re fs path
    = Ok (map (match_of path (contents f)) (FindAllIndex re (contents f))) /\
  (forall i s e, FindAllIndex re (contents f) !! i = Some (s, e) ->
     exists r, FindAllIndexPath rt re fs path = Ok r /\
       r !! i = Some (mkMatch path s (e - s) (subslice (contents f) s e))) /\
  (FindAllIndex re (contents f) = [] -> FindAllIndexPath rt re fs path = Ok []).
Proof.
  intros Hf Hmax Hok.
  pose proof (FindAllIndexPath_records rt re fs path f Hf Hmax Hok) as Hrun.
  split; [exact Hrun|]. split.
  - intros i s e Hi. eexists. split; [exact Hrun|].
    change (map (match_of path (contents f)) (FindAllIndex re (contents f)))
      with (match_of path (contents f) <$> FindAllIndex re (contents f)).
    rewrite list_lookup_fmap, Hi. reflexivity.
  - intros Hnil. rewrite Hrun, Hnil. reflexivity.
Qed.

Lemma C7_witness :
  FindAllIndexPath rt0 (re_byte "X") {[ "f"%string := File (B "aaaXbbbXccc") 420%N ]} "f"
  = Ok [mkMatch "f" 3 1 (B "X"); mkMatch "f" 7 1 (B "X")].
Proof.
  destruct (C7_matcher_records rt0 (re_byte "X")
              {[ "f"%string := File (B "aaaXbbbXccc") 420%N ]} "f"
              (File (B "aaaXbbbXccc") 420%N)) as [Hrun _].
  - apply lookup_singleton_eq.
  - vm_compute; discriminate.
  - unfold spans_ok. vm_compute. repeat constructor; discriminate.
  - rewrite Hrun. reflexivity.
Defined.

(** ** Applying what the Matcher found *)

Lemma spliced_carried content m :
  carries_span content m -> spliced content m = content.
Proof.
  intros [(Hp & Hl & Hb) Hd]. unfold spliced. rewrite Hd. unfold subslice.
  replace (Pos m + Len m - Pos m) with (Len m) by lia.
  rewrite Z2Nat.inj_add by lia.
  rewrite <- drop_drop, take_drop, take_drop. reflexivity.
Qed.

Lemma delta_carried content m :
  carries_span content m -> blen content <= int_max -> delta m = 0.
Proof.
  intros [(Hp & Hl & Hb) Hd] Hmax. unfold delta, int_sub. rewrite Hd.
  unfold subslice, blen in *. rewrite length_take, length_drop.
  replace (Z.of_nat _ - Len m) with 0 by lia. reflexivity.
Qed.

Lemma shift_carried content m r :
  delta m = 0 -> carries_span content r -> blen content <= int_max -> shift m r = r.
Proof.
  intros Hdelta [(Hp & Hl & Hb) _] Hmax. unfold shift. rewrite Hdelta.
  destruct (Pos r >=? Pos m); [|reflexivity].
  rewrite int_add_exact, Z.add_0_r by (unfold is_int, int_min; lia).
  destruct r; reflexivity.
Qed.

Lemma patch_identity content ms :
  blen content <= int_max ->
  Forall (carries_span content) ms ->
  patch content ms = Some content.
Proof.
  intros Hmax. induction 1 as [|m rest Hm Hrest IH]; [reflexivity|].
  rewrite patch_cons.
  destruct Hm as [Hb Hd]. pose proof (proj2 (in_boundsb_spec content m) Hb) as Hbb.
  rewrite Hbb. apply Z.leb_le in Hmax as Hmaxb. rewrite Hmaxb. simpl.
  rewrite (spliced_carried content m (conj Hb Hd)).
  replace (map (shift m) rest) with rest; [exact IH|].
  symmetry. rewrite <- (map_id rest) at 2. apply map_ext_Forall.
  eapply Forall_impl; [exact Hrest|]. intros r Hr. simpl.
  eapply shift_carried; eauto. eapply delta_carried; eauto. split; assumption.
Qed.

Lemma match_of_carries path content se :
  0 <= fst se /\ fst se <= snd se /\ snd se <= blen content ->
  carries_span content (match_of path content se).
Proof.
  intros (H0 & H1 & H2). unfold carries_span, in_bounds, match_of. simpl.
  replace (fst se + (snd se - fst se)) with (snd se) by lia.
  repeat split; try lia.
Qed.

Lemma deref_seq_from (pre l : list Match) :
  deref (pre ++ l) (seq (length pre) (length l)) l.
Proof.
  revert pre. induction l as [|r l IH]; intros pre; simpl; [constructor|].
  constructor.
  - rewrite lookup_app_r by lia. rewrite Nat.sub_diag. reflexivity.
  - specialize (IH (pre ++ [r])). rewrite <- app_assoc, length_app in IH.
    simpl in IH. rewrite Nat.add_1_r in IH. exact IH.
Qed.

(** The slice of fresh records a call returns: record [i] at address [i]. *)
Lemma deref_seq (l : list Match) : deref l (seq 0 (length l)) l.
Proof. exact (deref_seq_from [] l). Qed.

Lemma deref_exists (h : heap) ptrs :
  (forall k, k ∈ ptrs -> is_Some (h !! k)) ->
  exists recs, deref h ptrs recs /\ Forall (fun r => r ∈ h) recs.
Proof.
  induction ptrs as [|k ptrs IH]; intros Hval.
  - exists []. split; constructor.
  - destruct (Hval k) as [r Hr]; [left|].
    destruct IH as (recs & Hd & Hall); [intros j Hj; apply Hval; right; exact Hj|].
    exists (r :: recs). split; constructor; auto.
    apply list_elem_of_lookup. eauto.
Qed.

Lemma groupMap_keys h ptrs recs :
  deref h ptrs recs ->
  forall m0 m, groupMap ptrs h m0 = Ok m ->
  forall path, is_Some (m !! path) <-> is_Some (m0 !! path) \/ group h ptrs path <> [].
Proof.
  induction 1 as [|q r ptrs recs Hq _ IH]; intros m0 m Hm path.
  - simpl in Hm. injection Hm as <-. unfold group. rewrite filter_nil. tauto.
  - simpl in Hm. rewrite Hq in Hm. rewrite (IH _ _ Hm path).
    destruct (decide (path = Path r)) as [->|Hne].
    + rewrite lookup_insert_eq, (group_cons_in h q ptrs r Hq). split; intros _.
      * right. discriminate.
      * left. eauto.
    + rewrite lookup_insert_ne by congruence.
      rewrite (group_cons_out h q ptrs r path Hq Hne). tauto.
Qed.

Lemma applyPathMatches_carried rt path g w f :
  files w !! path = Some f ->
  blen (contents f) <= int_max ->
  NoDup g ->
  (forall k, k ∈ g -> is_Some (records w !! k)) ->
  Forall (carries_span (contents f)) (records w) ->
  exists h', applyPathMatches rt path g w = (Ok tt, World (files w) h').
Proof.
  intros Hf Hmax Hnd Hval Hall.
  destruct (deref_exists (records w) g Hval) as (recs & Hd & Hin).
  assert (Hp : patch (contents f) recs = Some (contents f)).
  { apply patch_identity; [exact Hmax|].
    eapply Forall_impl; [exact Hin|]. intros r Hr. simpl.
    rewrite Forall_forall in Hall. apply Hall. exact Hr. }
  destruct (applyPathMatches_patch rt path g w f recs (contents f) Hf Hnd Hd Hp)
    as (h' & Hrun & _).
  exists h'. rewrite Hrun. f_equal. f_equal.
  rewrite insert_id; [reflexivity|]. rewrite Hf. destruct f; reflexivity.
Qed.

(** C6. For every file and every pattern, the records the Matcher
    produces on the file, each carrying the bytes it matched, are
    applied without error and leave the file system as it was: the
    contents of the file are unchanged byte for byte (and so is its
    mode). [iter] is any order in which Go may range over the map of
    groups. *)
Theorem C6_unedited_records_change_nothing rt re iter fs path f ms m :
  fs !! path = Some f ->
  blen (contents f) <= int_max ->
  spans_ok (contents f) (FindAllIndex re (contents f)) ->
  FindAllIndexPath rt re fs path = Ok ms ->
  groupMap (seq 0 (length ms)) ms ∅ = Ok m ->
  range_order m iter ->
  exists h',
    ApplyMatches rt iter (seq 0 (length ms)) (World fs ms) = (Ok tt, World fs h').
Proof.
  intros Hf Hmax Hok Hfind Hm [Hnd Hkeys].
  rewrite (FindAllIndexPath_records rt re fs path f Hf Hmax Hok) in Hfind.
  injection Hfind as Hms.
  assert (Hcarry : Forall (carries_span (contents f)) ms).
  { subst ms. apply Forall_forall. intros r Hr.
    apply list_elem_of_In, in_map_iff in Hr as (se & <- & Hse).
    apply match_of_carries. unfold spans_ok in Hok. rewrite Forall_forall in Hok.
    apply Hok. apply list_elem_of_In. exact Hse. }
  assert (Hpaths : forall r, r ∈ ms -> Path r = path).
  { subst ms. intros r Hr.
    apply list_elem_of_In, in_map_iff in Hr as (se & <- & _). reflexivity. }
  set (w := World fs ms). set (G := group ms (seq 0 (length ms))).
  assert (Hiter : forall p, p ∈ iter -> p = path).
  { intros p Hp. apply Hkeys in Hp.
    apply (groupMap_keys ms _ ms (deref_seq ms) ∅ m Hm) in Hp as [[? Hp]|Hp].
    - rewrite lookup_empty in Hp. discriminate.
    - destruct (group ms (seq 0 (length ms)) p) as [|k g] eqn:Eg; [congruence|].
      assert (Hk : k ∈ group ms (seq 0 (length ms)) p) by (rewrite Eg; left).
      unfold group in Hk. apply list_elem_of_filter in Hk as [Hk _].
      destruct (ms !! k) as [r|] eqn:Er; [|discriminate].
      simpl in Hk. injection Hk as <-. apply Hpaths.
      apply list_elem_of_lookup. eauto. }
  assert (Halone : forall p, p ∈ iter ->
            exists h', applyPathMatches rt p (G p) w = (Ok tt, World fs h')).
  { intros p Hp. rewrite (Hiter p Hp).
    apply (applyPathMatches_carried rt path (G path) w f); auto.
    - apply NoDup_filter, NoDup_seq.
    - intros k Hk. unfold G, group in Hk. apply list_elem_of_filter in Hk as [_ Hk].
      apply elem_of_seq in Hk. apply lookup_lt_is_Some. simpl. lia. }
  rewrite ApplyMatches_unfold. change (records w) with ms.
  rewrite (groupMatchesByPath_spec ms (seq 0 (length ms)) ms iter (deref_seq ms)).
  fold G.
  destruct (applyGroups_independent rt G w
              (fun p p' k => group_disjoint ms (seq 0 (length ms)) p p' k)
              iter w Hnd) as [Ha _]; [reflexivity|reflexivity|].
  destruct Ha as (w' & Hrun & Hin & Hout).
  { intros p Hp. destruct (Halone p Hp) as [h' ->]. reflexivity. }
  exists (records w'). rewrite Hrun. f_equal. destruct w' as [fs' h']. simpl.
  f_equal. apply map_eq. intros p. simpl in Hin, Hout.
  destruct (decide (p ∈ iter)) as [Hp|Hp].
  - rewrite (Hin p Hp). destruct (Halone p Hp) as [h'' ->]. reflexivity.
  - apply Hout. exact Hp.
Qed.

Lemma C6_witness :
  exists h',
    ApplyMatches rt0 ["f"%string] [0%nat; 1%nat]
      (World fs_X [mkMatch "f" 3 1 (B "X"); mkMatch "f" 7 1 (B "X")])
    = (Ok tt, World fs_X h').
Proof.
  apply (C6_unedited_records_change_nothing rt0 (re_byte "X") ["f"%string] fs_X "f"
           (File (B "aaaXbbbXccc") 420%N)
           [mkMatch "f" 3 1 (B "X"); mkMatch "f" 7 1 (B "X")]
           {[ "f"%string := [0%nat; 1%nat] ]}).
  - apply lookup_singleton_eq.
  - vm_compute; discriminate.
  - unfold spans_ok. vm_compute. repeat constructor; discriminate.
  - vm_compute. reflexivity.
  - vm_compute. reflexivity.
  - split; [compute_done|]. intros k.
    rewrite lookup_singleton_is_Some, list_elem_of_singleton. split; congruence.
Defined.


(** ** The block pattern *)

Lemma strip_prefix_app p s : strip_prefix p (p ++ s) = Some s.
Proof.
  induction p as [|c p IH]; simpl; [reflexivity|].
  rewrite Ascii.eqb_refl. exact IH.
Qed.

Lemma strip_prefix_Some p : forall s r, strip_prefix p s = Some r -> s = p ++ r.
Proof.
  induction p as [|c p IH]; intros s r H; simpl in *.
  - congruence.
  - destruct s as [|d s]; [discriminate|].
    destruct (Ascii.eqb_spec c d) as [->|]; [|discriminate].
    rewrite (IH s r H). reflexivity.
Qed.

Lemma strip_prefix_app_l p : forall a x r,
  strip_prefix p a = Some r -> strip_prefix p (a ++ x) = Some (r ++ x).
Proof.
  intros a x r H. apply strip_prefix_Some in H as ->.
  rewrite <- app_assoc. apply strip_prefix_app.
Qed.

Lemma header_line_app h s :
  LF ∉ h -> matchTextRegex.header_line (h ++ LF :: s) = Some (h, s).
Proof.
  induction h as [|c h IH]; intros Hnl; simpl.
  - reflexivity.
  - apply not_elem_of_cons in Hnl as [Hc Hnl].
    destruct (Ascii.eqb_spec c LF) as [->|_]; [congruence|].
    rewrite IH by exact Hnl. reflexivity.
Qed.

Lemma header_line_Some : forall s h r,
  matchTextRegex.header_line s = Some (h, r) -> s = h ++ LF :: r /\ LF ∉ h.
Proof.
  induction s as [|c s IH]; intros h r H; simpl in H; [discriminate|].
  destruct (Ascii.eqb_spec c LF) as [->|Hc].
  - injection H as <- <-. split; [reflexivity|]. apply not_elem_of_nil.
  - destruct (matchTextRegex.header_line s) as [[h' r']|]; [|discriminate].
    injection H as <- <-. destruct (IH h' r' eq_refl) as [-> Hnl].
    split; [reflexivity|]. apply not_elem_of_cons. split; congruence.
Qed.

(** The end tag has no border: no occurrence of it begins in a text
    free of it and ends in a copy of the tag that follows the text. *)
Lemma end_tag_no_overlap b x :
  strip_prefix matchTextRegex.end_tag b = None ->
  b <> [] ->
  strip_prefix matchTextRegex.end_tag (b ++ matchTextRegex.end_tag ++ x) = None.
Proof.
  unfold matchTextRegex.end_tag, B. cbn [list_ascii_of_string].
  intros H Hne.
  destruct b as [|c0 b]; [congruence|]. clear Hne.
  cbn [strip_prefix app] in *.
  destruct (Ascii.eqb LF c0); [|reflexivity].
  do 8 (destruct b as [|? b]; cbn [strip_prefix app] in *; [reflexivity|];
        match goal with
        | |- context [Ascii.eqb ?a ?c] => destruct (Ascii.eqb a c); [|reflexivity]
        end).
  discriminate.
Qed.

Lemma occurs_cons_false p c t :
  occurs p (c :: t) = false ->
  strip_prefix p (c :: t) = None /\ occurs p t = false.
Proof.
  cbn [occurs]. destruct (strip_prefix p (c :: t)); [discriminate|]. auto.
Qed.

Lemma lazy_body_unfold c t :
  matchTextRegex.lazy_body (c :: t) =
  match strip_prefix matchTextRegex.end_tag (c :: t) with
  | Some rest => Some ([], rest)
  | None => match matchTextRegex.lazy_body t with
            | Some (body, rest) => Some (c :: body, rest)
            | None => None
            end
  end.
Proof. reflexivity. Qed.

Lemma lazy_body_app body rest :
  occurs matchTextRegex.end_tag body = false ->
  matchTextRegex.lazy_body (body ++ matchTextRegex.end_tag ++ rest) = Some (body, rest).
Proof.
  induction body as [|c body IH]; intros Hocc.
  - change ([] ++ matchTextRegex.end_tag ++ rest) with (matchTextRegex.end_tag ++ rest).
    destruct rest; reflexivity.
  - apply occurs_cons_false in Hocc as [Hsp Hocc].
    pose proof (end_tag_no_overlap (c :: body) rest Hsp ltac:(discriminate)) as Hno.
    change ((c :: body) ++ matchTextRegex.end_tag ++ rest) with (c :: body ++ matchTextRegex.end_tag ++ rest) in *.
    rewrite lazy_body_unfold, Hno, IH by exact Hocc. reflexivity.
Qed.

Lemma lazy_body_Some : forall s body rest,
  matchTextRegex.lazy_body s = Some (body, rest) ->
  s = body ++ matchTextRegex.end_tag ++ rest /\ occurs matchTextRegex.end_tag body = false.
Proof.
  induction s as [|c s IH]; intros body rest H.
  - discriminate.
  - rewrite lazy_body_unfold in H.
    destruct (strip_prefix matchTextRegex.end_tag (c :: s)) as [r|] eqn:Hsp.
    + injection H as <- <-. apply strip_prefix_Some in Hsp. split; [exact Hsp|reflexivity].
    + destruct (matchTextRegex.lazy_body s) as [[b r]|] eqn:Hl; [|discriminate].
      injection H as <- <-. destruct (IH b r eq_refl) as [-> Hocc].
      split; [reflexivity|]. cbn [occurs].
      destruct (strip_prefix matchTextRegex.end_tag (c :: b)) as [r'|] eqn:Hsp'; [|exact Hocc].
      apply (strip_prefix_app_l _ _ (matchTextRegex.end_tag ++ r)) in Hsp'.
      change ((c :: b) ++ matchTextRegex.end_tag ++ r) with (c :: b ++ matchTextRegex.end_tag ++ r) in Hsp'.
      congruence.
Qed.

Lemma match_here_block hdr body rest :
  hdr <> [] -> LF ∉ hdr -> occurs matchTextRegex.end_tag body = false ->
  matchTextRegex.match_here (block hdr body ++ rest) = Some (hdr, body, rest).
Proof.
  intros Hne Hnl Hocc. unfold matchTextRegex.match_here, block.
  rewrite <- !app_assoc, strip_prefix_app.
  change (hdr ++ (LF :: body ++ matchTextRegex.end_tag) ++ rest)
    with (hdr ++ LF :: (body ++ matchTextRegex.end_tag) ++ rest).
  rewrite header_line_app by exact Hnl.
  destruct hdr as [|c h]; [congruence|].
  rewrite <- app_assoc, lazy_body_app by exact Hocc. reflexivity.
Qed.

Lemma match_here_Some s hdr body rest :
  matchTextRegex.match_here s = Some (hdr, body, rest) ->
  s = block hdr body ++ rest /\
  hdr <> [] /\ (LF ∉ hdr) /\ occurs matchTextRegex.end_tag body = false.
Proof.
  unfold matchTextRegex.match_here. intros H.
  destruct (strip_prefix matchTextRegex.begin_tag s) as [s1|] eqn:Hb; [|discriminate].
  destruct (matchTextRegex.header_line s1) as [[[|c h] s2]|] eqn:Hh; try discriminate.
  destruct (matchTextRegex.lazy_body s2) as [[b r]|] eqn:Hl; [|discriminate].
  injection H as <- <- <-.
  apply strip_prefix_Some in Hb as ->.
  apply header_line_Some in Hh as [-> Hnl].
  apply lazy_body_Some in Hl as [-> Hocc].
  unfold block. rewrite <- !app_assoc. simpl. rewrite <- !app_assoc.
  repeat split; auto.
Qed.

Lemma FindSubmatch_unfold s :
  matchTextRegex.FindSubmatch s =
  match matchTextRegex.match_here s with
  | Some (hdr, body, _) => Some (hdr, body)
  | None => match s with [] => None | _ :: t => matchTextRegex.FindSubmatch t end
  end.
Proof. destruct s; reflexivity. Qed.

Lemma FindSubmatch_block hdr body rest :
  hdr <> [] -> LF ∉ hdr -> occurs matchTextRegex.end_tag body = false ->
  matchTextRegex.FindSubmatch (block hdr body ++ rest) = Some (hdr, body).
Proof.
  intros Hne Hnl Hocc.
  rewrite FindSubmatch_unfold, (match_here_block hdr body rest Hne Hnl Hocc).
  reflexivity.
Qed.

Lemma FindAll_skipping_drop : forall s k,
  matchTextRegex.FindAll_from k s = matchTextRegex.FindAll_from 0 (drop k s).
Proof.
  induction s as [|c s IH]; intros k.
  - destruct k; reflexivity.
  - destruct k as [|k]; [reflexivity|]. simpl. apply IH.
Qed.

Lemma FindAll_blocks_match s hdr body rest :
  matchTextRegex.match_here s = Some (hdr, body, rest) ->
  matchTextRegex.FindAll s = block hdr body :: matchTextRegex.FindAll rest.
Proof.
  intros H. pose proof (match_here_Some s hdr body rest H) as (Hs & _).
  unfold matchTextRegex.FindAll. destruct s as [|c t].
  { destruct (block hdr body) eqn:E; [|discriminate].
    unfold block, matchTextRegex.begin_tag in E. discriminate. }
  cbn [matchTextRegex.FindAll_from]. rewrite H.
  assert (Hlen : (length (c :: t) - length rest = length (block hdr body))%nat).
  { rewrite Hs, length_app. lia. }
  f_equal.
  - rewrite Hlen, Hs, take_app_length. reflexivity.
  - rewrite FindAll_skipping_drop.
    assert (Hdrop : drop (length (c :: t) - length rest) (c :: t) = rest).
    { rewrite Hlen, Hs, drop_app_length. reflexivity. }
    assert (Hpos : (length (c :: t) - length rest
                    = S (length t - length rest))%nat).
    { assert (length (block hdr body) > 0)%nat by (unfold block; simpl; lia).
      simpl in *. lia. }
    rewrite Hpos in Hdrop. simpl in Hdrop. rewrite Hdrop. reflexivity.
Qed.

Lemma FindAll_blocks_skip c t :
  matchTextRegex.match_here (c :: t) = None ->
  matchTextRegex.FindAll (c :: t) = matchTextRegex.FindAll t.
Proof. intros H. unfold matchTextRegex.FindAll. cbn [matchTextRegex.FindAll_from]. rewrite H. reflexivity. Qed.

(** Every text found by the scan is a whole block and matches again
    when [UnmarshalText] applies the pattern to it. *)
Lemma FindAll_blocks_elem : forall n s buf,
  (length s <= n)%nat ->
  buf ∈ matchTextRegex.FindAll s ->
  exists hdr body, buf = block hdr body /\ matchTextRegex.FindSubmatch buf = Some (hdr, body).
Proof.
  induction n as [|n IH]; intros s buf Hn Hin.
  - destruct s; [inversion Hin|simpl in Hn; lia].
  - destruct s as [|c t]; [inversion Hin|].
    destruct (matchTextRegex.match_here (c :: t)) as [[[hdr body] rest]|] eqn:Hm.
    + rewrite (FindAll_blocks_match _ _ _ _ Hm) in Hin.
      pose proof (match_here_Some _ _ _ _ Hm) as (Hs & Hne & Hnl & Hocc).
      apply elem_of_cons in Hin as [->|Hin].
      * exists hdr, body. split; [reflexivity|].
        rewrite <- (app_nil_r (block hdr body)).
        apply FindSubmatch_block; assumption.
      * apply (IH rest); [|exact Hin].
        assert (length (block hdr body) > 0)%nat by (unfold block; simpl; lia).
        rewrite Hs, length_app in Hn. lia.
    + rewrite (FindAll_blocks_skip _ _ Hm) in Hin.
      apply (IH t); [simpl in Hn; lia|exact Hin].
Qed.

Lemma FindSubmatch_Some : forall s hdr body,
  matchTextRegex.FindSubmatch s = Some (hdr, body) ->
  exists pre rest, s = pre ++ block hdr body ++ rest /\
    hdr <> [] /\ (LF ∉ hdr) /\ occurs matchTextRegex.end_tag body = false.
Proof.
  induction s as [|c s IH]; intros hdr body H; rewrite FindSubmatch_unfold in H.
  - discriminate.
  - destruct (matchTextRegex.match_here (c :: s)) as [[[h b] r]|] eqn:Hm.
    + injection H as <- <-.
      destruct (match_here_Some _ _ _ _ Hm) as (Hs & Hrest).
      exists [], r. split; [exact Hs|exact Hrest].
    + destruct (IH hdr body H) as (pre & rest & -> & Hrest).
      exists (c :: pre), rest. split; [reflexivity|exact Hrest].
Qed.

(** ** Decoding *)

(** C5 (as amended). When a block is decoded, its body is the text
    between the newline that ends the header line and the first place
    after it where a newline is followed by the bytes [#bed:end],
    whatever comes after these bytes on that line; that one newline is
    not part of the body. A body may therefore hold lines that contain
    [#bed:end] elsewhere than at their start, and may begin with a line
    [#bed:end] right after the header line, but no line after its first
    can begin with [#bed:end]. Conversely every body [UnmarshalText]
    returns is free of the end tag and stands in the text between a
    header line and an end tag. *)
Theorem C5_body_ends_at_first_end_tag hdr body rest h :
  hdr <> [] -> LF ∉ hdr ->
  occurs matchTextRegex.end_tag body = false ->
  json.Unmarshal hdr = Ok h ->
  UnmarshalText (B "#bed:begin " ++ hdr ++ [LF] ++ body ++ [LF] ++ B "#bed:end" ++ rest)
    = Ok (mkMatch (jPath h) (jPos h) (jLen h) body) /\
  (forall data m, UnmarshalText data = Ok m ->
     occurs matchTextRegex.end_tag (Data m) = false /\
     exists pre hdr' rest',
       data = pre ++ B "#bed:begin " ++ hdr' ++ [LF] ++ Data m
              ++ [LF] ++ B "#bed:end" ++ rest').
Proof.
  intros Hne Hnl Hocc Hjson. split.
  - unfold UnmarshalText.
    change (B "#bed:begin " ++ hdr ++ [LF] ++ body ++ [LF] ++ B "#bed:end" ++ rest)
      with (matchTextRegex.begin_tag ++ hdr ++ LF :: body ++ matchTextRegex.end_tag ++ rest).
    replace (matchTextRegex.begin_tag ++ hdr ++ LF :: body ++ matchTextRegex.end_tag ++ rest)
      with (block hdr body ++ rest)
      by (unfold block; rewrite <- !app_assoc; simpl; rewrite <- !app_assoc; reflexivity).
    rewrite (FindSubmatch_block hdr body rest Hne Hnl Hocc), Hjson. reflexivity.
  - intros data m Hm. unfold UnmarshalText in Hm.
    destruct (matchTextRegex.FindSubmatch data) as [[a1 a2]|] eqn:Hfind; [|discriminate].
    destruct (json.Unmarshal a1) as [h'| |]; try discriminate.
    simpl in Hm. injection Hm as <-. simpl.
    destruct (FindSubmatch_Some data a1 a2 Hfind) as (pre & rest' & -> & _ & _ & Hocc').
    split; [exact Hocc'|]. exists pre, a1, rest'.
    unfold block. rewrite <- !app_assoc. simpl. rewrite <- !app_assoc. reflexivity.
Qed.

Lemma C5_witness :
  UnmarshalText (T "#bed:begin {'path':'f','pos':1,'len':2}|say #bed:end| #bed:end|#bed:en||#bed:end and more|")
  = Ok (mkMatch "f" 1 2 (T "say #bed:end| #bed:end|#bed:en|")).
Proof.
  apply (C5_body_ends_at_first_end_tag
           (T "{'path':'f','pos':1,'len':2}")
           (T "say #bed:end| #bed:end|#bed:en|")
           (T " and more|")
           (mkMatchJSON "f" 1 2)).
  - discriminate.
  - vm_compute. intros H.
    repeat (apply elem_of_cons in H as [H|H]; [discriminate|]). inversion H.
  - vm_compute. reflexivity.
  - vm_compute. reflexivity.
Defined.

(** C5 as stated fails in both directions. A body line that only
    begins with [#bed:end] ends the block: the design document makes
    the body "foo", "#bed:endless", "bar", the code stops at "foo". And
    a line that is exactly [#bed:end] does not end the block when it
    comes right after the header line: the design document makes the
    body empty, the code reads on to the next end tag. *)
Lemma C5_counterexample :
  (spec_body_by_terminator_line (T "foo|#bed:endless|bar|#bed:end|")
     = Some (T "foo|#bed:endless|bar") /\
   UnmarshalText (T "#bed:begin {'path':'f','pos':1,'len':2}|foo|#bed:endless|bar|#bed:end|")
     = Ok (mkMatch "f" 1 2 (T "foo"))) /\
  (spec_body_by_terminator_line (T "#bed:end|foo|#bed:end|") = Some [] /\
   UnmarshalText (T "#bed:begin {'path':'f','pos':1,'len':2}|#bed:end|foo|#bed:end|")
     = Ok (mkMatch "f" 1 2 (T "#bed:end|foo"))).
Proof. vm_compute. repeat split; reflexivity. Qed.

Lemma parseBlocks_Err bufs :
  (exists buf e, buf ∈ bufs /\ UnmarshalText buf = Err e) ->
  (forall buf, buf ∈ bufs -> UnmarshalText buf <> Panic) ->
  exists e, parseBlocks bufs = Err e.
Proof.
  induction bufs as [|b bufs IH]; intros (buf & e & Hin & Herr) Hnp.
  - inversion Hin.
  - simpl. destruct (UnmarshalText b) as [m|e'|] eqn:Hb.
    + simpl. destruct IH as [e'' He''].
      * apply elem_of_cons in Hin as [->|Hin]; [congruence|]. eauto.
      * intros x Hx. apply Hnp. right. exact Hx.
      * rewrite He''. eauto.
    + eauto.
    + exfalso. apply (Hnp b); [left|exact Hb].
Qed.

Lemma parseBlocks_Ok bufs :
  (forall buf, buf ∈ bufs -> exists m, UnmarshalText buf = Ok m) ->
  exists ms, parseBlocks bufs = Ok ms /\
    Forall2 (fun buf m => UnmarshalText buf = Ok m) bufs ms.
Proof.
  induction bufs as [|b bufs IH]; intros Hall.
  - exists []. split; [reflexivity|constructor].
  - destruct (Hall b) as [m Hm]; [left|].
    destruct IH as (ms & Hms & Hf); [intros x Hx; apply Hall; right; exact Hx|].
    exists (m :: ms). simpl. rewrite Hm. simpl. rewrite Hms. simpl.
    split; [reflexivity|]. constructor; assumption.
Qed.

Lemma Forall2_impl_elem {A C} (P Q : A -> C -> Prop) l k :
  Forall2 P l k ->
  (forall x y, x ∈ l -> P x y -> Q x y) ->
  Forall2 Q l k.
Proof.
  induction 1 as [|x y l k Hxy _ IH]; intros Himp; constructor.
  - apply Himp; [left|exact Hxy].
  - apply IH. intros a b Ha. apply Himp. right. exact Ha.
Qed.

Lemma UnmarshalText_found buf hdr body :
  matchTextRegex.FindSubmatch buf = Some (hdr, body) ->
  UnmarshalText buf =
  match json.Unmarshal hdr with
  | Ok h => Ok (mkMatch (jPath h) (jPos h) (jLen h) body)
  | Err e => Err e
  | Panic => Panic
  end.
Proof. intros H. unfold UnmarshalText. rewrite H. destruct (json.Unmarshal hdr); reflexivity. Qed.

Lemma Unmarshal_no_panic data : json.Unmarshal data <> Panic.
Proof.
  unfold json.Unmarshal. destruct (json.parse data) as [[]|]; try discriminate.
  destruct (json.store _ _); discriminate.
Qed.

(** *** Texts made of blocks *)

Lemma no_LF_elem_of b : no_LF b = true -> LF ∉ b.
Proof.
  unfold no_LF. rewrite forallb_forall. intros H Hin.
  apply list_elem_of_In, H in Hin. rewrite Ascii.eqb_refl in Hin. discriminate.
Qed.

Lemma occurs_unfold p s :
  occurs p s =
  match strip_prefix p s with
  | Some _ => true
  | None => match s with [] => false | _ :: t => occurs p t end
  end.
Proof. destruct s; reflexivity. Qed.

Lemma occurs_app p a b : occurs p (a ++ p ++ b) = true.
Proof.
  induction a as [|c a IH]; rewrite occurs_unfold.
  - cbn [app]. rewrite strip_prefix_app. reflexivity.
  - cbn [app]. destruct (strip_prefix p (c :: a ++ p ++ b)); [reflexivity|exact IH].
Qed.

(** The begin tag has no border: no occurrence of it begins in a text
    free of it and ends in a copy of the tag that follows the text. *)
Lemma begin_tag_no_overlap b x :
  strip_prefix matchTextRegex.begin_tag b = None ->
  b <> [] ->
  strip_prefix matchTextRegex.begin_tag (b ++ matchTextRegex.begin_tag ++ x) = None.
Proof.
  unfold matchTextRegex.begin_tag, B. cbn [list_ascii_of_string].
  intros H Hne.
  destruct b as [|c0 b]; [congruence|]. clear Hne.
  cbn [strip_prefix app] in *.
  destruct (Ascii.eqb "#" c0); [|reflexivity].
  do 10 (destruct b as [|? b]; cbn [strip_prefix app] in *; [reflexivity|];
         match goal with
         | |- context [Ascii.eqb ?a ?c] => destruct (Ascii.eqb a c); [|reflexivity]
         end).
  discriminate.
Qed.

Lemma match_here_no_begin s :
  strip_prefix matchTextRegex.begin_tag s = None -> matchTextRegex.match_here s = None.
Proof. intros H. unfold matchTextRegex.match_here. rewrite H. reflexivity. Qed.

(** The scan passes over a filler that holds no begin tag. *)
Lemma FindAll_filler pre y :
  occurs matchTextRegex.begin_tag pre = false ->
  matchTextRegex.FindAll (pre ++ matchTextRegex.begin_tag ++ y)
  = matchTextRegex.FindAll (matchTextRegex.begin_tag ++ y).
Proof.
  induction pre as [|c pre IH]; intros Hocc; [reflexivity|].
  apply occurs_cons_false in Hocc as [Hhere Hocc].
  change ((c :: pre) ++ matchTextRegex.begin_tag ++ y)
    with (c :: pre ++ matchTextRegex.begin_tag ++ y).
  rewrite FindAll_blocks_skip; [exact (IH Hocc)|].
  apply match_here_no_begin.
  apply (begin_tag_no_overlap (c :: pre) y Hhere). discriminate.
Qed.

Lemma FindAll_no_begin s :
  occurs matchTextRegex.begin_tag s = false -> matchTextRegex.FindAll s = [].
Proof.
  induction s as [|c s IH]; intros Hocc; [reflexivity|].
  apply occurs_cons_false in Hocc as [Hhere Hocc].
  rewrite FindAll_blocks_skip; [exact (IH Hocc)|].
  apply match_here_no_begin. exact Hhere.
Qed.

Lemma FindAll_no_end s :
  occurs matchTextRegex.end_tag s = false -> matchTextRegex.FindAll s = [].
Proof.
  induction s as [|c s IH]; intros Hocc; [reflexivity|].
  destruct (matchTextRegex.match_here (c :: s)) as [[[hdr body] rest]|] eqn:E.
  - apply match_here_Some in E as (Hs & _). rewrite Hs in Hocc.
    unfold block in Hocc.
    replace ((matchTextRegex.begin_tag ++ hdr ++ LF :: body ++ matchTextRegex.end_tag) ++ rest)
      with ((matchTextRegex.begin_tag ++ hdr ++ LF :: body) ++ matchTextRegex.end_tag ++ rest)
      in Hocc by (rewrite <- !app_assoc; cbn [app]; rewrite <- !app_assoc; reflexivity).
    rewrite occurs_app in Hocc. discriminate.
  - apply occurs_cons_false in Hocc as [_ Hocc].
    rewrite (FindAll_blocks_skip c s E). exact (IH Hocc).
Qed.

Lemma FindAll_no_block tail : no_block tail -> matchTextRegex.FindAll tail = [].
Proof. intros [H|H]; [apply FindAll_no_begin|apply FindAll_no_end]; exact H. Qed.

(** The first block of a text made of blocks is the first the scan
    finds, and the scan goes on behind its end tag. *)
Lemma FindAll_block pre hdr body rest :
  block_ok (pre, hdr, body) ->
  matchTextRegex.FindAll (pre ++ block hdr body ++ rest)
  = block hdr body :: matchTextRegex.FindAll rest.
Proof.
  intros (Hpre & Hne & Hnl & Hocc).
  assert (Hshape : block hdr body ++ rest
                   = matchTextRegex.begin_tag
                       ++ (hdr ++ LF :: body ++ matchTextRegex.end_tag) ++ rest).
  { unfold block. rewrite <- app_assoc. reflexivity. }
  rewrite Hshape, (FindAll_filler pre _ Hpre), <- Hshape.
  apply FindAll_blocks_match. apply match_here_block; assumption.
Qed.

Lemma UnmarshalText_block hdr body :
  hdr <> [] -> LF ∉ hdr -> occurs matchTextRegex.end_tag body = false ->
  UnmarshalText (block hdr body) =
  match json.Unmarshal hdr with
  | Ok h => Ok (mkMatch (jPath h) (jPos h) (jLen h) body)
  | Err e => Err e
  | Panic => Panic
  end.
Proof.
  intros Hne Hnl Hocc. apply UnmarshalText_found.
  rewrite <- (app_nil_r (block hdr body)). apply FindSubmatch_block; assumption.
Qed.

(** [ParseMatches] on a text that begins with a block. *)
Lemma ParseMatches_block pre hdr body rest :
  block_ok (pre, hdr, body) ->
  ParseMatches (pre ++ block hdr body ++ rest) =
  match json.Unmarshal hdr with
  | Ok h =>
      match ParseMatches rest with
      | Ok ms => Ok (mkMatch (jPath h) (jPos h) (jLen h) body :: ms)
      | Err e => Err e
      | Panic => Panic
      end
  | Err e => Err e
  | Panic => Panic
  end.
Proof.
  intros Hok. unfold ParseMatches. rewrite (FindAll_block pre hdr body rest Hok).
  destruct Hok as (_ & Hne & Hnl & Hocc). cbn [parseBlocks].
  rewrite (UnmarshalText_block hdr body Hne Hnl Hocc).
  destruct (json.Unmarshal hdr); reflexivity.
Qed.

Lemma UnmarshalText_no_panic buf : UnmarshalText buf <> Panic.
Proof.
  unfold UnmarshalText. destruct (matchTextRegex.FindSubmatch buf) as [[a1 a2]|];
    [|discriminate].
  pose proof (Unmarshal_no_panic a1). destruct (json.Unmarshal a1); cbn; congruence.
Qed.

(** The loop of [ParseMatches] returns an error and nothing else, which
    it does when [UnmarshalText] rejects one of the texts, or one
    record for every text it was given. *)
Lemma parseBlocks_all_or_nothing bufs :
  ((exists e, parseBlocks bufs = Err e) /\
   Exists (fun buf => exists e, UnmarshalText buf = Err e) bufs) \/
  (exists ms, parseBlocks bufs = Ok ms /\
     Forall2 (fun buf m => UnmarshalText buf = Ok m) bufs ms).
Proof.
  induction bufs as [|buf bufs IH]; [right; exists []; split; [reflexivity|constructor]|].
  cbn [parseBlocks]. pose proof (UnmarshalText_no_panic buf) as Hnp.
  destruct (UnmarshalText buf) as [m|e|] eqn:Eb; cbn [res_bind]; [| |congruence].
  - destruct IH as [[[e He] Hex]|(ms & Hms & Hall)].
    + rewrite He. left. split; [eauto|]. apply Exists_cons_tl. exact Hex.
    + rewrite Hms. right. exists (m :: ms). split; [reflexivity|].
      constructor; assumption.
  - left. split; [eauto|]. apply Exists_cons_hd. eauto.
Qed.

(** *** The fields of a header *)

Lemma store_accepts members : forall h0,
  (exists h, json.store members h0 = Some h) <-> Forall acceptable members.
Proof.
  induction members as [|[key v] rest IH]; intros h0.
  - split; [constructor|]. intros _. exists h0. reflexivity.
  - rewrite Forall_cons. cbn [json.store]. unfold acceptable at 1. cbn [fst snd].
    destruct (json.bytes_eqb (json.fold_name key) (B "PATH")).
    { destruct v; rewrite ?IH; try tauto;
        (split; [intros [h H]; discriminate|intros [[] _]]). }
    destruct (json.bytes_eqb (json.fold_name key) (B "POS")); cbn [orb].
    { destruct v as [| |lit| | |]; rewrite ?IH; try tauto;
        try (split; [intros [h H]; discriminate|intros [[] _]]).
      destruct (json.parse_int lit) as [z|].
      - rewrite IH. split; [intros H; split; [eexists; reflexivity|exact H]|tauto].
      - split; [intros [h H]; discriminate|intros [[z Hz] _]; discriminate]. }
    destruct (json.bytes_eqb (json.fold_name key) (B "LEN")).
    { destruct v as [| |lit| | |]; rewrite ?IH; try tauto;
        try (split; [intros [h H]; discriminate|intros [[] _]]).
      destruct (json.parse_int lit) as [z|].
      - rewrite IH. split; [intros H; split; [eexists; reflexivity|exact H]|tauto].
      - split; [intros [h H]; discriminate|intros [[z Hz] _]; discriminate]. }
    rewrite IH. tauto.
Qed.

Lemma store_omits members : forall h0 h,
  json.store members h0 = Some h ->
  (omits "PATH" members -> jPath h = jPath h0) /\
  (omits "POS" members -> jPos h = jPos h0) /\
  (omits "LEN" members -> jLen h = jLen h0).
Proof.
  unfold omits.
  induction members as [|[key v] rest IH]; intros h0 h Hst.
  - injection Hst as <-. auto.
  - cbn [json.store] in Hst. rewrite !Forall_cons. cbn [fst].
    unfold json.bytes_eqb in Hst.
    destruct (decide (json.fold_name key = B "PATH")) as [E1|N1].
    { rewrite bool_decide_eq_true_2 in Hst by exact E1.
      assert (N2 : json.fold_name key <> B "POS") by (rewrite E1; discriminate).
      assert (N3 : json.fold_name key <> B "LEN") by (rewrite E1; discriminate).
      destruct v; try discriminate;
        destruct (IH _ _ Hst) as (H1 & H2 & H3);
        (split; [intros [Hk _]; contradiction|]);
        (split; [intros [_ Hr]; apply (H2 Hr)|intros [_ Hr]; apply (H3 Hr)]). }
    rewrite bool_decide_eq_false_2 in Hst by exact N1.
    destruct (decide (json.fold_name key = B "POS")) as [E2|N2].
    { rewrite bool_decide_eq_true_2 in Hst by exact E2.
      assert (N3 : json.fold_name key <> B "LEN") by (rewrite E2; discriminate).
      destruct v as [| |lit| | |]; try discriminate;
        [|destruct (json.parse_int lit) as [z|]; [|discriminate]];
        destruct (IH _ _ Hst) as (H1 & H2 & H3);
        (split; [intros [_ Hr]; apply (H1 Hr)|]);
        (split; [intros [Hk _]; contradiction|intros [_ Hr]; apply (H3 Hr)]). }
    rewrite bool_decide_eq_false_2 in Hst by exact N2.
    destruct (decide (json.fold_name key = B "LEN")) as [E3|N3].
    { rewrite bool_decide_eq_true_2 in Hst by exact E3.
      destruct v as [| |lit| | |]; try discriminate;
        [|destruct (json.parse_int lit) as [z|]; [|discriminate]];
        destruct (IH _ _ Hst) as (H1 & H2 & H3);
        (split; [intros [_ Hr]; apply (H1 Hr)|]);
        (split; [intros [_ Hr]; apply (H2 Hr)|intros [Hk _]; contradiction]). }
    rewrite bool_decide_eq_false_2 in Hst by exact N3.
    destruct (IH _ _ Hst) as (H1 & H2 & H3).
    split; [intros [_ Hr]; apply (H1 Hr)|].
    split; [intros [_ Hr]; apply (H2 Hr)|intros [_ Hr]; apply (H3 Hr)].
Qed.

(** Every header is accepted or rejected: [json.Unmarshal] does not
    panic. *)
Lemma rejected_or_decoded bs :
  Exists rejected bs \/ exists ms, Forall2 decoded bs ms.
Proof.
  induction bs as [|[[pre hdr] body] bs IH]; [right; exists []; constructor|].
  pose proof (Unmarshal_no_panic hdr) as Hnp.
  destruct (json.Unmarshal hdr) as [h|e|] eqn:Eh; [| |congruence].
  - destruct IH as [Hex|[ms Hms]].
    + left. apply Exists_cons_tl. exact Hex.
    + right. exists (mkMatch (jPath h) (jPos h) (jLen h) body :: ms).
      constructor; [|exact Hms]. exists h. split; [exact Eh|reflexivity].
  - left. apply Exists_cons_hd. exists e. exact Eh.
Qed.

(** C4 (as amended). [ParseMatches] on a text made of blocks, each a
    filler without a begin tag, a begin tag, a header line that is not
    empty, a body that holds no newline followed by [#bed:end] (it may
    hold a begin tag) and the end tag, followed by a text in which a
    marker is missing: if [json.Unmarshal] rejects the header of any
    of the blocks the whole call fails with an error and returns no
    record at all, whatever the other blocks are; if it accepts every
    header the call returns the records of the blocks, one per block
    and in order; one of the two is the case. On any text whatever the
    call returns an error and nothing else, which it does when
    [UnmarshalText] rejects one of the blocks the scan finds, or the
    record of every block the scan finds: there is no partial result.
    A header that is not valid JSON is rejected; one that is a JSON
    object is accepted exactly when each member that bears the name of
    a field has a value of the type of the field or [null], and the
    fields it omits are zero: no field is required. *)
Theorem C4_rejected_header_fails_whole_decode :
  (forall bs tail, Forall block_ok bs -> no_block tail ->
     (Exists rejected bs -> exists e, ParseMatches (blocks_text bs tail) = Err e) /\
     (forall ms, Forall2 decoded bs ms -> ParseMatches (blocks_text bs tail) = Ok ms) /\
     (Exists rejected bs \/ exists ms, Forall2 decoded bs ms)) /\
  (forall data,
     ((exists e, ParseMatches data = Err e) /\
      Exists (fun buf => exists e, UnmarshalText buf = Err e)
             (matchTextRegex.FindAll data)) \/
     (exists ms, ParseMatches data = Ok ms /\
        Forall2 (fun buf m => UnmarshalText buf = Ok m) (matchTextRegex.FindAll data) ms)) /\
  (forall hdr, json.parse hdr = None -> json.Unmarshal hdr = Err ErrJSON) /\
  (forall hdr members, json.parse hdr = Some (json.Object members) ->
     (Forall acceptable members <-> exists h, json.Unmarshal hdr = Ok h) /\
     (forall h, json.Unmarshal hdr = Ok h ->
        (omits "PATH" members -> jPath h = ""%string) /\
        (omits "POS" members -> jPos h = 0) /\
        (omits "LEN" members -> jLen h = 0))).
Proof.
  split; [|split; [|split]].
  - intros bs tail Hok Htail.
    cut ((Exists rejected bs -> exists e, ParseMatches (blocks_text bs tail) = Err e) /\
         (forall ms, Forall2 decoded bs ms -> ParseMatches (blocks_text bs tail) = Ok ms)).
    { intros [He Ho]. split; [exact He|]. split; [exact Ho|apply rejected_or_decoded]. }
    induction Hok as [|[[pre hdr] body] bs Hb Hok [IHe IHo]].
    + cbn [blocks_text]. split.
      * intros H. inversion H.
      * intros ms Hms. inversion Hms; subst. unfold ParseMatches.
        rewrite (FindAll_no_block tail Htail). reflexivity.
    + cbn [blocks_text]. rewrite (ParseMatches_block pre hdr body _ Hb).
      pose proof (Unmarshal_no_panic hdr) as Hnp. split.
      * intros Hex. destruct (json.Unmarshal hdr) as [h|e|] eqn:Eh; [|eauto|congruence].
        apply Exists_cons in Hex as [[e He]|Hex]; [congruence|].
        destruct (IHe Hex) as [e He]. rewrite He. eauto.
      * intros ms Hms. inversion Hms as [|? m ? ms' Hdec Hrest]; subst.
        destruct Hdec as (h & Hh & ->).
        rewrite Hh, (IHo ms' Hrest). reflexivity.
  - intros data. apply parseBlocks_all_or_nothing.
  - intros hdr Hp. unfold json.Unmarshal. rewrite Hp. reflexivity.
  - intros hdr members Hp. unfold json.Unmarshal. rewrite Hp. split.
    + rewrite <- (store_accepts members (mkMatchJSON "" 0 0)). split.
      * intros [h Hh]. rewrite Hh. eauto.
      * intros [h Hh]. destruct (json.store members (mkMatchJSON "" 0 0)); [eauto|discriminate].
    + intros h Hh.
      destruct (json.store members (mkMatchJSON "" 0 0)) as [h'|] eqn:Hst; [|discriminate].
      injection Hh as <-. apply (store_omits members _ _ Hst).
Qed.

Lemma C4_witness :
  (exists e,
     ParseMatches
       (T "#bed:begin {'path':'f','pos':1,'len':2}|abc|#bed:end||#bed:begin NOTJSON|def|#bed:end|")
     = Err e) /\
  ParseMatches
    (T "note|#bed:begin {'path':'f','pos':1,'len':2}|abc|#bed:end||#bed:begin {'pos':9}|def|#bed:end|")
  = Ok [mkMatch "f" 1 2 (B "abc"); mkMatch "" 9 0 (B "def")].
Proof.
  destruct C4_rejected_header_fails_whole_decode as (Hblocks & _).
  split.
  - destruct (Hblocks [([], T "{'path':'f','pos':1,'len':2}", B "abc");
                       ([LF; LF], B "NOTJSON", B "def")] [LF]) as (Herr & _ & _).
    + apply Forall_cons_2; [|apply Forall_cons_2; [|apply Forall_nil_2]];
        (split; [reflexivity|]; split; [discriminate|]; split; [|reflexivity]);
        apply no_LF_elem_of; reflexivity.
    + left. reflexivity.
    + apply Herr. apply Exists_cons_tl. apply Exists_cons_hd.
      exists ErrJSON. vm_compute. reflexivity.
  - destruct (Hblocks [(T "note|", T "{'path':'f','pos':1,'len':2}", B "abc");
                       ([LF; LF], T "{'pos':9}", B "def")] [LF]) as (_ & Hok & _).
    + apply Forall_cons_2; [|apply Forall_cons_2; [|apply Forall_nil_2]];
        (split; [reflexivity|]; split; [discriminate|]; split; [|reflexivity]);
        apply no_LF_elem_of; reflexivity.
    + left. reflexivity.
    + apply Hok. constructor; [|constructor; [|constructor]].
      * eexists. split; [vm_compute; reflexivity|reflexivity].
      * eexists. split; [vm_compute; reflexivity|reflexivity].
Defined.

(** C4 as stated fails on each of the three counts but the first. A
    header that lacks the fields is not an error: the fields are zero.
    A begin tag whose end tag is missing is not an error: alone it is
    passed over. And followed by a block it makes one block with it,
    so that a text can hold a block whose header is not valid JSON and
    be decoded without an error, that header being part of a body. *)
Lemma C4_counterexample :
  ParseMatches (T "#bed:begin {}|abc|#bed:end|") = Ok [mkMatch "" 0 0 (B "abc")] /\
  ParseMatches (T "#bed:begin {'path':'f','pos':1,'len':2}|abc|") = Ok [] /\
  ParseMatches (T "#bed:begin {'path':'f','pos':1,'len':2}|abc|#bed:begin NOTJSON|def|#bed:end|")
    = Ok [mkMatch "f" 1 2 (T "abc|#bed:begin NOTJSON|def")].
Proof. vm_compute. repeat split; reflexivity. Qed.

(** ** Encoding *)

Lemma no_LF_app a b : no_LF (a ++ b) = no_LF a && no_LF b.
Proof. apply forallb_app. Qed.

Lemma no_LF_elem b : no_LF b = true -> LF ∉ b.
Proof.
  unfold no_LF. rewrite forallb_forall. intros H Hin.
  apply list_elem_of_In, H in Hin. rewrite Ascii.eqb_refl in Hin. discriminate.
Qed.

Lemma escape_no_LF c : no_LF (json.escape c) = true.
Proof. destruct c as [[] [] [] [] [] [] [] []]; reflexivity. Qed.

Lemma html_safe_no_LF c : json.html_safe c = true -> no_LF [c] = true.
Proof. destruct c as [[] [] [] [] [] [] [] []]; intros H; try reflexivity; discriminate. Qed.

Lemma high_no_LF c : (json.code c <? 128) = false -> negb (Ascii.eqb c LF) = true.
Proof. destruct c as [[] [] [] [] [] [] [] []]; intros H; try reflexivity; discriminate. Qed.

Lemma is_cont_high c : json.is_cont c = true -> negb (Ascii.eqb c LF) = true.
Proof. destruct c as [[] [] [] [] [] [] [] []]; intros H; try reflexivity; discriminate. Qed.

(** What follows a lead byte of a valid sequence are continuation bytes. *)
Lemma utf8_size_cont c t n :
  json.utf8_size (c :: t) = Some n ->
  (json.code c <? 128) = false ->
  no_LF (take (n - 1) t) = true.
Proof.
  unfold json.utf8_size. intros H Hhigh. rewrite Hhigh in H.
  destruct (json.code c <? 194); [discriminate|].
  destruct (json.code c <? 224).
  { destruct t as [|c1 t]; [discriminate|].
    destruct (json.is_cont c1) eqn:H1; [|discriminate]. injection H as <-.
    simpl. rewrite (is_cont_high c1 H1). destruct t; reflexivity. }
  destruct (json.code c <? 240).
  { destruct t as [|c1 [|c2 t]]; try discriminate.
    match type of H with (if ?b then _ else _) = _ => destruct b eqn:Hb end;
      [|discriminate].
    injection H as <-. apply andb_true_iff in Hb as [Hb H2].
    apply andb_true_iff in Hb as [Hlo Hhi].
    assert (H1 : negb (Ascii.eqb c1 LF) = true).
    { destruct (Ascii.eqb_spec c1 LF) as [->|]; [|reflexivity].
      destruct (json.code c =? 224); vm_compute in Hlo; discriminate. }
    simpl. rewrite H1, (is_cont_high c2 H2). destruct t; reflexivity. }
  destruct (json.code c <? 245); [|discriminate].
  destruct t as [|c1 [|c2 [|c3 t]]]; try discriminate.
  match type of H with (if ?b then _ else _) = _ => destruct b eqn:Hb end;
    [|discriminate].
  injection H as <-. apply andb_true_iff in Hb as [Hb H3].
  apply andb_true_iff in Hb as [Hb H2].
  apply andb_true_iff in Hb as [Hlo Hhi].
  assert (H1 : negb (Ascii.eqb c1 LF) = true).
  { destruct (Ascii.eqb_spec c1 LF) as [->|]; [|reflexivity].
    destruct (json.code c =? 240); vm_compute in Hlo; discriminate. }
  simpl. rewrite H1, (is_cont_high c2 H2), (is_cont_high c3 H3). destruct t; reflexivity.
Qed.

Lemma hex_digit_no_LF c : no_LF [json.hex_digit (json.code c mod 16)] = true.
Proof. destruct c as [[] [] [] [] [] [] [] []]; reflexivity. Qed.

Lemma quote_body_pending k c t :
  json.quote_body (S k) (c :: t) = c :: json.quote_body k t.
Proof. reflexivity. Qed.

Lemma quote_body_start c t :
  json.quote_body 0 (c :: t) =
  if json.code c <? 128 then
    (if json.html_safe c then [c] else json.escape c) ++ json.quote_body 0 t
  else
    match json.utf8_size (c :: t) with
    | None => json.backslash :: B "ufffd" ++ json.quote_body 0 t
    | Some n =>
        match t with
        | c1 :: c2 :: t' =>
            if (json.code c =? 226) && (json.code c1 =? 128) &&
               ((json.code c2 =? 168) || (json.code c2 =? 169))
            then json.backslash :: B "u202" ++ [json.hex_digit (json.code c2 mod 16)]
                 ++ json.quote_body 0 t'
            else c :: json.quote_body (n - 1) t
        | _ => c :: json.quote_body (n - 1) t
        end
    end.
Proof. reflexivity. Qed.

Lemma no_LF_cons c b : no_LF (c :: b) = negb (Ascii.eqb c LF) && no_LF b.
Proof. reflexivity. Qed.

(** An encoded string holds no raw newline. *)
Lemma quote_body_no_LF : forall n s pending,
  (length s <= n)%nat ->
  no_LF (take pending s) = true ->
  no_LF (json.quote_body pending s) = true.
Proof.
  induction n as [|n IH]; intros s pending Hn Hp.
  - destruct s; [destruct pending; reflexivity|simpl in Hn; lia].
  - destruct s as [|c t]; [destruct pending; reflexivity|].
    simpl in Hn. destruct pending as [|k].
    + rewrite quote_body_start.
      destruct (json.code c <? 128) eqn:Hlow.
      { rewrite no_LF_app, (IH t 0%nat) by (try lia; reflexivity).
        destruct (json.html_safe c) eqn:Hs.
        - rewrite (html_safe_no_LF c Hs). reflexivity.
        - rewrite escape_no_LF. reflexivity. }
      destruct (json.utf8_size (c :: t)) as [w|] eqn:Hw.
      2:{ rewrite no_LF_cons, no_LF_app, (IH t 0%nat) by (try lia; reflexivity).
          reflexivity. }
      assert (Hplain : no_LF (c :: json.quote_body (w - 1) t) = true).
      { rewrite no_LF_cons, (high_no_LF c Hlow). simpl.
        apply IH; [lia|]. eapply utf8_size_cont; eauto. }
      destruct t as [|c1 [|c2 t']]; try exact Hplain.
      destruct ((json.code c =? 226) && (json.code c1 =? 128) &&
                ((json.code c2 =? 168) || (json.code c2 =? 169))); [|exact Hplain].
      rewrite no_LF_cons, !no_LF_app, hex_digit_no_LF.
      rewrite (IH t' 0%nat) by (simpl in Hn; try lia; reflexivity). reflexivity.
    + rewrite quote_body_pending, no_LF_cons.
      change (take (S k) (c :: t)) with (c :: take k t) in Hp.
      rewrite no_LF_cons in Hp. apply andb_true_iff in Hp as [Hc Hp].
      rewrite Hc. simpl. apply IH; [lia|exact Hp].
Qed.

Lemma uint_no_LF d :
  no_LF (list_ascii_of_string (NilEmpty.string_of_uint d)) = true.
Proof. induction d; simpl; auto. Qed.

Lemma itoa_no_LF z : no_LF (json.itoa z) = true.
Proof.
  unfold json.itoa, NilZero.string_of_int, NilZero.string_of_uint.
  destruct (Z.to_int z) as [d|d]; destruct d; simpl; try reflexivity; apply uint_no_LF.
Qed.

Lemma Marshal_header h :
  exists hdr, json.Marshal h = Ok hdr /\ hdr <> [] /\ LF ∉ hdr.
Proof.
  unfold json.Marshal. eexists. split; [reflexivity|]. split; [discriminate|].
  apply no_LF_elem. unfold json.quote_string.
  assert (Hq : forall s, no_LF (json.quote_body 0 s) = true).
  { intros s. apply (quote_body_no_LF (length s)); [lia|reflexivity]. }
  rewrite !no_LF_app, !no_LF_cons, !no_LF_app, !itoa_no_LF, !Hq.
  reflexivity.
Qed.

(** ** The JSON codec on headers *)

Lemma chars_digits u : forallb json.is_digit (chars u) = true.
Proof. induction u; simpl; auto. Qed.

Lemma digits_app ds rest :
  forallb json.is_digit ds = true ->
  json.is_digit (hd "x"%char rest) = false ->
  json.digits (ds ++ rest) = (ds, rest).
Proof.
  intros Hds Hrest. induction ds as [|c ds IH]; simpl.
  - destruct rest as [|r rest]; [reflexivity|]. simpl in Hrest.
    cbn [json.digits]. rewrite Hrest. reflexivity.
  - simpl in Hds. apply andb_true_iff in Hds as [Hc Hds].
    cbn [json.digits]. rewrite Hc, IH by exact Hds. reflexivity.
Qed.

Lemma to_uint_not_D0 p u : Pos.to_uint p <> Decimal.D0 u.
Proof.
  intros H.
  pose proof (DecimalZ.to_of (Z.to_int (Z.pos p))) as Hn.
  rewrite DecimalZ.of_to in Hn. simpl in Hn. rewrite H in Hn.
  injection Hn as Hn. rewrite DecimalFacts.unorm_D0 in Hn.
  destruct u as [| | | | | | | | | |]; try
    (match type of Hn with Decimal.D0 ?v = _ =>
       pose proof (DecimalFacts.nb_digits_unorm v ltac:(discriminate)) as Hl end;
     rewrite <- Hn in Hl; simpl in Hl; lia).
  pose proof (DecimalPos.Unsigned.of_to p) as Hof. rewrite H in Hof. discriminate.
Qed.

Lemma digit_not_minus c : json.is_digit c = true -> Ascii.eqb c "-" = false.
Proof. destruct c as [[] [] [] [] [] [] [] []]; intros H; try reflexivity; discriminate. Qed.

Lemma chars_head u :
  u <> Decimal.Nil -> (forall v, u <> Decimal.D0 v) ->
  exists c t, chars u = c :: t /\ Ascii.eqb c "0" = false.
Proof.
  intros Hnil H0. destruct u; try congruence; try (eexists _, _; split; reflexivity).
Qed.

Lemma itoa_cases z :
  json.itoa z = B "0" \/
  exists c t, forallb json.is_digit (c :: t) = true /\ Ascii.eqb c "0" = false /\
    (json.itoa z = c :: t \/ json.itoa z = "-"%char :: c :: t).
Proof.
  unfold json.itoa. destruct z as [|p|p]; [left; reflexivity| |]; right.
  - destruct (chars_head (Pos.to_uint p)) as (c & t & Hc & H0).
    { apply DecimalPos.Unsigned.to_uint_nonnil. }
    { intros v. apply to_uint_not_D0. }
    exists c, t. rewrite <- Hc. split; [apply chars_digits|]. split; [exact H0|left].
    simpl. unfold NilZero.string_of_uint.
    destruct (Pos.to_uint p) eqn:E; try reflexivity.
    exfalso. eapply DecimalPos.Unsigned.to_uint_nonnil; eauto.
  - destruct (chars_head (Pos.to_uint p)) as (c & t & Hc & H0).
    { apply DecimalPos.Unsigned.to_uint_nonnil. }
    { intros v. apply to_uint_not_D0. }
    exists c, t. rewrite <- Hc. split; [apply chars_digits|]. split; [exact H0|right].
    simpl. unfold NilZero.string_of_uint.
    destruct (Pos.to_uint p) eqn:E; try reflexivity.
    exfalso. eapply DecimalPos.Unsigned.to_uint_nonnil; eauto.
Qed.

Lemma number_itoa z d rest :
  d = ","%char \/ d = "}"%char ->
  json.number (json.itoa z ++ d :: rest) = Some (json.itoa z, d :: rest).
Proof.
  intros Hd.
  assert (Hnd : json.is_digit (hd "x"%char (d :: rest)) = false)
    by (destruct Hd as [->| ->]; reflexivity).
  assert (Hdot : Ascii.eqb d "." = false) by (destruct Hd as [->| ->]; reflexivity).
  assert (He : Ascii.eqb d "e" || Ascii.eqb d "E" = false)
    by (destruct Hd as [->| ->]; reflexivity).
  destruct (itoa_cases z) as [->|(c & t & Hds & H0 & [-> | ->])].
  - destruct Hd as [-> | ->]; reflexivity.
  - pose proof Hds as Hds'. simpl in Hds'. apply andb_true_iff in Hds' as [Hc _].
    unfold json.number. cbn [app].
    rewrite (digit_not_minus c Hc), Hc. cbn [negb]. rewrite H0.
    change (c :: t ++ d :: rest) with ((c :: t) ++ d :: rest).
    rewrite (digits_app (c :: t) (d :: rest) Hds Hnd).
    rewrite Hdot, He. cbn [app]. rewrite app_nil_r. reflexivity.
  - pose proof Hds as Hds'. simpl in Hds'. apply andb_true_iff in Hds' as [Hc _].
    unfold json.number. cbn [app].
    change (Ascii.eqb "-" "-") with true. cbv iota.
    rewrite Hc. cbn [negb]. rewrite H0.
    change (c :: t ++ d :: rest) with ((c :: t) ++ d :: rest).
    rewrite (digits_app (c :: t) (d :: rest) Hds Hnd).
    rewrite Hdot, He. cbn [app]. rewrite app_nil_r. reflexivity.
Qed.

Lemma parse_int_itoa z : is_int z -> json.parse_int (json.itoa z) = Some z.
Proof.
  intros [Hlo Hhi]. unfold json.parse_int, json.itoa.
  rewrite string_of_list_ascii_of_string.
  rewrite NilZero.isi.
  - rewrite DecimalZ.of_to.
    destruct (Z.leb_spec int_min z); [|lia].
    destruct (Z.leb_spec z int_max); [|lia]. reflexivity.
  - destruct z; simpl; try discriminate.
    intros H. injection H as H. eapply DecimalPos.Unsigned.to_uint_nonnil; eauto.
  - destruct z; simpl; try discriminate.
    intros H. injection H as H. eapply DecimalPos.Unsigned.to_uint_nonnil; eauto.
Qed.

Lemma string_body_ascii c f X :
  (json.code c <? 128) = true ->
  json.string_body (S f) ((if json.html_safe c then [c] else json.escape c) ++ X)
  = json.prepend [c] (json.string_body f X).
Proof.
  destruct c as [[] [] [] [] [] [] [] []]; intros H; try discriminate H; reflexivity.
Qed.

Lemma string_body_high c t f :
  (json.code c <? 128) = false ->
  json.string_body (S f) (c :: t) =
  match json.utf8_size (c :: t) with
  | Some n => json.prepend (take n (c :: t)) (json.string_body f (drop n (c :: t)))
  | None => json.prepend json.replacement (json.string_body f t)
  end.
Proof.
  destruct c as [[] [] [] [] [] [] [] []]; intros H; try discriminate H; reflexivity.
Qed.

Lemma encoded_ascii_length c :
  (1 <= length (if json.html_safe c then [c] else json.escape c))%nat.
Proof.
  destruct (json.html_safe c); [simpl; lia|]. unfold json.escape.
  repeat match goal with |- context [if ?b then _ else _] => destruct b end; simpl; lia.
Qed.

Lemma quote_body_pending_take : forall k t,
  (k <= length t)%nat ->
  json.quote_body k t = take k t ++ json.quote_body 0 (drop k t).
Proof.
  induction k as [|k IH]; intros t Hk; [reflexivity|].
  destruct t as [|c t]; [simpl in Hk; lia|].
  rewrite quote_body_pending, IH by (simpl in Hk; lia). reflexivity.
Qed.

(** The width of a sequence depends on its own bytes only. *)
Lemma utf8_size_prefix c t n :
  json.utf8_size (c :: t) = Some n ->
  (json.code c <? 128) = false ->
  (1 <= n <= S (length t))%nat /\
  forall Y, json.utf8_size (take n (c :: t) ++ Y) = Some n.
Proof.
  unfold json.utf8_size at 1. intros H Hhigh. rewrite Hhigh in H.
  destruct (json.code c <? 194) eqn:E1; [discriminate|].
  destruct (json.code c <? 224) eqn:E2.
  { destruct t as [|c1 t]; [discriminate|].
    destruct (json.is_cont c1) eqn:H1; [|discriminate]. injection H as <-.
    split; [simpl; lia|]. intros Y. cbn [take app]. unfold json.utf8_size.
    rewrite Hhigh, E1, E2, H1. reflexivity. }
  destruct (json.code c <? 240) eqn:E3.
  { destruct t as [|c1 [|c2 t]]; try discriminate.
    match type of H with (if ?b then _ else _) = _ => destruct b eqn:Hb end;
      [|discriminate].
    injection H as <-. split; [simpl; lia|]. intros Y. cbn [take app].
    unfold json.utf8_size. rewrite Hhigh, E1, E2, E3, Hb. reflexivity. }
  destruct (json.code c <? 245) eqn:E4; [|discriminate].
  destruct t as [|c1 [|c2 [|c3 t]]]; try discriminate.
  match type of H with (if ?b then _ else _) = _ => destruct b eqn:Hb end;
    [|discriminate].
  injection H as <-. split; [simpl; lia|]. intros Y. cbn [take app].
  unfold json.utf8_size. rewrite Hhigh, E1, E2, E3, E4, Hb. reflexivity.
Qed.

Lemma chr_code c : json.chr (json.code c) = c.
Proof.
  unfold json.chr, json.code. rewrite N2Z.id. apply ascii_N_embedding.
Qed.

Lemma code_eq c z : (json.code c =? z) = true -> c = json.chr z.
Proof. intros H. apply Z.eqb_eq in H. rewrite <- H. symmetry. apply chr_code. Qed.

(** U+2028 and U+2029, which the encoder writes as escapes. *)
Lemma string_body_separator c c1 c2 f X :
  (json.code c =? 226) && (json.code c1 =? 128) &&
    ((json.code c2 =? 168) || (json.code c2 =? 169)) = true ->
  json.utf8_size [c; c1; c2] = Some 3%nat /\
  json.string_body (S f)
    (json.backslash :: B "u202" ++ [json.hex_digit (json.code c2 mod 16)] ++ X)
  = json.prepend [c; c1; c2] (json.string_body f X).
Proof.
  intros H. apply andb_true_iff in H as [H H2]. apply andb_true_iff in H as [H0 H1].
  apply code_eq in H0 as ->. apply code_eq in H1 as ->.
  apply orb_true_iff in H2 as [H2|H2]; apply code_eq in H2 as ->; split; reflexivity.
Qed.

Lemma prepend_Some pre body rest :
  json.prepend pre (Some (body, rest)) = Some (pre ++ body, rest).
Proof. reflexivity. Qed.

(** A valid UTF-8 string is decoded to itself from its encoding. *)
Lemma string_body_quote_body : forall n s rest fuel,
  (length s <= n)%nat ->
  valid_utf8 s ->
  (length (json.quote_body 0 s) < fuel)%nat ->
  json.string_body fuel (json.quote_body 0 s ++ json.quote :: rest) = Some (s, rest).
Proof.
  induction n as [|n IH]; intros s rest fuel Hn Hv Hfuel.
  - destruct s; [|simpl in Hn; lia]. destruct fuel; [simpl in Hfuel; lia|]. reflexivity.
  - inversion Hv as [|c t w Hsize Hv' Heq]; subst.
    { destruct fuel; [simpl in Hfuel; lia|]. reflexivity. }
    simpl in Hn. destruct fuel as [|f]; [lia|].
    rewrite quote_body_start in Hfuel |- *.
    destruct (json.code c <? 128) eqn:Hlow.
    + assert (w = 1%nat) as ->.
      { unfold json.utf8_size in Hsize. rewrite Hlow in Hsize. congruence. }
      rewrite <- app_assoc, string_body_ascii by exact Hlow.
      rewrite length_app in Hfuel. pose proof (encoded_ascii_length c).
      rewrite IH; [reflexivity|lia|exact Hv'|lia].
    + rewrite Hsize in Hfuel |- *.
      destruct (utf8_size_prefix c t w Hsize Hlow) as [[Hw1 Hw2] Hpre].
      assert (Hplain :
        (length (c :: json.quote_body (w - 1) t) < S f)%nat ->
        json.string_body (S f) ((c :: json.quote_body (w - 1) t) ++ json.quote :: rest)
        = Some (c :: t, rest)).
      { intros Hf. rewrite quote_body_pending_take in Hf |- * by lia.
        replace (c :: take (w - 1) t ++ json.quote_body 0 (drop (w - 1) t))
          with (take w (c :: t) ++ json.quote_body 0 (drop w (c :: t)))
          by (destruct w; [lia|]; simpl; rewrite Nat.sub_0_r; reflexivity).
        rewrite <- app_assoc.
        assert (Htake : take w (c :: t) = c :: take (w - 1) t)
          by (destruct w; [lia|]; simpl; rewrite Nat.sub_0_r; reflexivity).
        rewrite Htake at 1. cbn [app]. rewrite string_body_high by exact Hlow.
        change (c :: take (w - 1) t ++ ?Y) with ((c :: take (w - 1) t) ++ Y).
        rewrite <- Htake, Hpre.
        assert (Hlen : w = length (take w (c :: t))) by (rewrite length_take; simpl; lia).
        rewrite take_app_length', drop_app_length' by exact Hlen.
        rewrite IH; [rewrite prepend_Some, take_drop; reflexivity| | exact Hv' |].
        - rewrite length_drop. simpl. lia.
        - simpl in Hf. rewrite length_app, length_take in Hf.
          replace (drop w (c :: t)) with (drop (w - 1) t)
            by (destruct w; [lia|]; simpl; rewrite Nat.sub_0_r; reflexivity).
          lia. }
      destruct t as [|c1 [|c2 t']]; try (apply Hplain; exact Hfuel).
      destruct ((json.code c =? 226) && (json.code c1 =? 128) &&
                ((json.code c2 =? 168) || (json.code c2 =? 169))) eqn:Hsep;
        [|apply Hplain; exact Hfuel].
      destruct (string_body_separator c c1 c2 f
                  (json.quote_body 0 t' ++ json.quote :: rest) Hsep) as [H3 Hdec].
      assert (w = 3%nat) as ->.
      { destruct (utf8_size_prefix c [c1; c2] 3 H3 Hlow) as [_ H3'].
        specialize (H3' t'). cbn [take app] in H3'. congruence. }
      cbn [drop] in Hv'.
      replace ((json.backslash :: B "u202" ++ [json.hex_digit (json.code c2 mod 16)]
                ++ json.quote_body 0 t') ++ json.quote :: rest)
        with (json.backslash :: B "u202" ++ [json.hex_digit (json.code c2 mod 16)]
              ++ json.quote_body 0 t' ++ json.quote :: rest)
        by (cbn [app]; rewrite <- ?app_assoc; reflexivity).
      rewrite Hdec. rewrite IH; [reflexivity| |exact Hv'|].
      * simpl in Hn. lia.
      * cbn [length app B list_ascii_of_string] in Hfuel.
        rewrite ?length_app in Hfuel. simpl in Hfuel. lia.
Qed.

Lemma lead_of_number c :
  Ascii.eqb c "-" || json.is_digit c = true ->
  json.is_space c = false /\ Ascii.eqb c "{" = false /\ Ascii.eqb c "[" = false /\
  Ascii.eqb c json.quote = false.
Proof.
  destruct c as [[] [] [] [] [] [] [] []]; intros H; try discriminate H;
    repeat split; reflexivity.
Qed.

Lemma itoa_lead z :
  exists c t, json.itoa z = c :: t /\ Ascii.eqb c "-" || json.is_digit c = true.
Proof.
  destruct (itoa_cases z) as [->|(c & t & Hds & _ & [-> | ->])].
  - eexists _, _. split; reflexivity.
  - exists c, t. split; [reflexivity|]. simpl in Hds.
    apply andb_true_iff in Hds as [-> _]. apply orb_true_r.
  - eexists _, _. split; reflexivity.
Qed.

Lemma parse_value_itoa f z d rest :
  d = ","%char \/ d = "}"%char ->
  json.parse_value (S f) (json.itoa z ++ d :: rest)
  = Some (json.Number (json.itoa z), d :: rest).
Proof.
  intros Hd. pose proof (number_itoa z d rest Hd) as Hnum.
  destruct (itoa_lead z) as (c & t & Hz & Hlead). rewrite Hz in *.
  destruct (lead_of_number c Hlead) as (Hsp & Hb & Hk & Hq).
  cbn [json.parse_value app json.skip_space]. rewrite Hsp, Hb, Hk, Hq, Hlead.
  change (c :: t ++ d :: rest) with ((c :: t) ++ d :: rest). rewrite Hnum. reflexivity.
Qed.

Lemma parse_value_string f s rest :
  valid_utf8 s ->
  json.parse_value (S f) (json.quote_string s ++ rest) = Some (json.String s, rest).
Proof.
  intros Hv. unfold json.quote_string.
  change ((json.quote :: json.quote_body 0 s ++ [json.quote]) ++ rest)
    with (json.quote :: (json.quote_body 0 s ++ [json.quote]) ++ rest).
  rewrite <- app_assoc. cbn [app].
  cbn [json.parse_value json.skip_space].
  change (json.is_space json.quote) with false. cbv iota.
  change (Ascii.eqb json.quote "{") with false.
  change (Ascii.eqb json.quote "[") with false.
  change (Ascii.eqb json.quote json.quote) with true. cbv iota.
  rewrite (string_body_quote_body (length s) s rest); [reflexivity|lia|exact Hv|].
  rewrite length_app. simpl. lia.
Qed.

Lemma store_header P lp ll :
  json.store [(B "path", json.String P); (B "pos", json.Number lp);
              (B "len", json.Number ll)] (mkMatchJSON "" 0 0)
  = match json.parse_int lp with
    | Some z =>
        match json.parse_int ll with
        | Some z' => Some (mkMatchJSON (string_of_list_ascii P) z z')
        | None => None
        end
    | None => None
    end.
Proof. reflexivity. Qed.

Lemma parse_members_more f key ktext vtext v r ms r' :
  json.string_body (length ktext) ktext = Some (key, ":"%char :: vtext) ->
  json.parse_value f vtext = Some (v, ","%char :: r) ->
  json.parse_members f r = Some (ms, r') ->
  json.parse_members (S f) (json.quote :: ktext) = Some ((key, v) :: ms, r').
Proof.
  intros Hk Hv Hm. cbn [json.parse_members json.skip_space].
  change (json.is_space json.quote) with false. cbv iota.
  change (Ascii.eqb json.quote json.quote) with true. cbv iota.
  rewrite Hk. cbn [json.skip_space]. change (json.is_space ":") with false. cbv iota.
  change (Ascii.eqb ":" ":") with true. cbv iota.
  rewrite Hv. cbn [json.skip_space]. change (json.is_space ",") with false. cbv iota.
  change (Ascii.eqb "," "}") with false. change (Ascii.eqb "," ",") with true. cbv iota.
  rewrite Hm. reflexivity.
Qed.

Lemma parse_members_last f key ktext vtext v r :
  json.string_body (length ktext) ktext = Some (key, ":"%char :: vtext) ->
  json.parse_value f vtext = Some (v, "}"%char :: r) ->
  json.parse_members (S f) (json.quote :: ktext) = Some ([(key, v)], r).
Proof.
  intros Hk Hv. cbn [json.parse_members json.skip_space].
  change (json.is_space json.quote) with false. cbv iota.
  change (Ascii.eqb json.quote json.quote) with true. cbv iota.
  rewrite Hk. cbn [json.skip_space]. change (json.is_space ":") with false. cbv iota.
  change (Ascii.eqb ":" ":") with true. cbv iota.
  rewrite Hv. cbn [json.skip_space]. change (json.is_space "}") with false. cbv iota.
  change (Ascii.eqb "}" "}") with true. cbv iota. reflexivity.
Qed.

Lemma key_text key rest :
  key = B "path" \/ key = B "pos" \/ key = B "len" ->
  json.string_body (length (key ++ json.quote :: rest)) (key ++ json.quote :: rest)
  = Some (key, rest).
Proof. intros [-> | [-> | ->]]; reflexivity. Qed.

(** [json.Unmarshal] gives back the header [json.Marshal] encoded, when
    the path is valid UTF-8 and the numbers are Go [int]s. *)
Lemma Unmarshal_Marshal h :
  valid_utf8 (list_ascii_of_string (jPath h)) -> is_int (jPos h) -> is_int (jLen h) ->
  exists hdr, json.Marshal h = Ok hdr /\ json.Unmarshal hdr = Ok h.
Proof.
  intros Hpath Hpos Hlen. unfold json.Marshal. eexists. split; [reflexivity|].
  set (P := list_ascii_of_string (jPath h)) in *.
  set (t3 := json.itoa (jLen h) ++ B "}").
  set (t2 := json.itoa (jPos h) ++ B "," ++ json.quote_string (B "len") ++ B ":" ++ t3).
  set (t1 := json.quote_string P ++ B "," ++ json.quote_string (B "pos") ++ B ":" ++ t2).
  assert (Hm3 : forall f, json.parse_members (S (S f)) (json.quote_string (B "len") ++ B ":" ++ t3)
                = Some ([(B "len", json.Number (json.itoa (jLen h)))], [])).
  { intros f.
    apply (parse_members_last (S f) (B "len") _ t3).
    - apply (key_text (B "len") (":"%char :: t3)). auto.
    - apply parse_value_itoa. auto. }
  assert (Hm2 : forall f, json.parse_members (S (S (S f)))
                  (json.quote_string (B "pos") ++ B ":" ++ t2)
                = Some ([(B "pos", json.Number (json.itoa (jPos h)));
                         (B "len", json.Number (json.itoa (jLen h)))], [])).
  { intros f.
    apply (parse_members_more (S (S f)) (B "pos") _ t2 _
             (json.quote_string (B "len") ++ B ":" ++ t3)).
    - apply (key_text (B "pos") (":"%char :: t2)). auto.
    - apply parse_value_itoa. auto.
    - apply Hm3. }
  assert (Hm1 : forall f, json.parse_members (S (S (S (S f))))
                  (json.quote_string (B "path") ++ B ":" ++ t1)
                = Some ([(B "path", json.String P);
                         (B "pos", json.Number (json.itoa (jPos h)));
                         (B "len", json.Number (json.itoa (jLen h)))], [])).
  { intros f.
    apply (parse_members_more (S (S (S f))) (B "path") _ t1 _
             (json.quote_string (B "pos") ++ B ":" ++ t2)).
    - apply (key_text (B "path") (":"%char :: t1)). auto.
    - apply (parse_value_string _ P _ Hpath).
    - apply Hm2. }
  assert (Hpv : forall X f,
            json.parse_members f (json.quote :: X) = Some
              ([(B "path", json.String P);
                (B "pos", json.Number (json.itoa (jPos h)));
                (B "len", json.Number (json.itoa (jLen h)))], []) ->
            json.parse_value (S f) ("{"%char :: json.quote :: X) = Some
              (json.Object [(B "path", json.String P);
                (B "pos", json.Number (json.itoa (jPos h)));
                (B "len", json.Number (json.itoa (jLen h)))], [])).
  { intros X f HX. cbn [json.parse_value json.skip_space].
    change (json.is_space "{") with false. cbv iota.
    change (Ascii.eqb "{" "{") with true. cbv iota.
    change (json.is_space json.quote) with false. cbv iota.
    change (Ascii.eqb json.quote "}") with false. cbv iota.
    rewrite HX. reflexivity. }
  set (X := B "path" ++ json.quote :: ":"%char :: t1).
  assert (Htext : B "{" ++ json.quote_string (B "path") ++ B ":" ++ t1
                  = "{"%char :: json.quote :: X) by reflexivity.
  assert (Hfuel : length ("{"%char :: json.quote :: X)
                 = S (S (S (S (S (S (S (S (length t1))))))))) by reflexivity.
  assert (Hparse : json.parse_members (S (S (S (S (S (S (S (S (length t1)))))))))
                     (json.quote :: X) = Some
              ([(B "path", json.String P);
                (B "pos", json.Number (json.itoa (jPos h)));
                (B "len", json.Number (json.itoa (jLen h)))], [])).
  { exact (Hm1 (S (S (S (S (length t1)))))). }
  clearbody X t1.
  unfold json.Unmarshal, json.parse.
  rewrite Htext, Hfuel, (Hpv X _ Hparse).
  cbn [json.skip_space]. rewrite store_header.
  rewrite !parse_int_itoa by assumption. unfold P.
  rewrite string_of_list_ascii_of_string. destruct h; reflexivity.
Qed.

Lemma MarshalText_block m hdr :
  json.Marshal (header_of m) = Ok hdr ->
  MarshalText m = Ok (block hdr (Data m) ++ [LF]).
Proof.
  intros H. unfold MarshalText. rewrite H. simpl. f_equal.
  unfold block, matchTextRegex.end_tag, matchTextRegex.begin_tag. rewrite <- !app_assoc. simpl.
  rewrite <- !app_assoc. reflexivity.
Qed.

Lemma FindAll_blocks_LF t : matchTextRegex.FindAll (LF :: t) = matchTextRegex.FindAll t.
Proof. apply FindAll_blocks_skip. reflexivity. Qed.

Lemma decode_encode_of_survivors ms :
  Forall (fun m => occurs matchTextRegex.end_tag (Data m) = false /\ header_survives m) ms ->
  exists text, writeTempMatchFile ms = Ok text /\ ParseMatches text = Ok ms.
Proof.
  induction 1 as [|m rest [Hocc (hdr & Hmar & Hunm)] _ (more & Hmore & Hparse)].
  - exists []. split; reflexivity.
  - destruct (Marshal_header (header_of m)) as (hdr' & Hmar' & Hne & Hnl).
    rewrite Hmar in Hmar'. injection Hmar' as <-.
    exists ((block hdr (Data m) ++ [LF]) ++ [LF] ++ more). split.
    + cbn [writeTempMatchFile]. rewrite (MarshalText_block m hdr Hmar). cbn [res_bind].
      rewrite Hmore. reflexivity.
    + unfold ParseMatches in *.
      rewrite <- app_assoc.
      rewrite (FindAll_blocks_match _ hdr (Data m) ([LF] ++ [LF] ++ more)
                 (match_here_block hdr (Data m) _ Hne Hnl Hocc)).
      simpl app. rewrite !FindAll_blocks_LF.
      cbn [parseBlocks]. unfold UnmarshalText.
      rewrite <- (app_nil_r (block hdr (Data m))).
      rewrite (FindSubmatch_block hdr (Data m) [] Hne Hnl Hocc), Hunm.
      simpl. rewrite Hparse. simpl. destruct m; reflexivity.
Qed.

(** C3 (as amended). For every sequence of records whose [Data] holds
    no newline followed by [#bed:end] and whose [Path] is valid UTF-8
    ([Pos] and [Len] being Go [int]s, as they are in the records the
    Matcher produces), the text [writeTempMatchFile] writes (the
    encoded blocks, a newline after each) is parsed back by
    [ParseMatches] to the same records, equal in path, pos, len and
    data and in the same order. *)
Theorem C3_decode_encode ms :
  Forall (fun m => occurs matchTextRegex.end_tag (Data m) = false /\
                   valid_utf8 (list_ascii_of_string (Path m)) /\
                   is_int (Pos m) /\ is_int (Len m)) ms ->
  exists text, writeTempMatchFile ms = Ok text /\ ParseMatches text = Ok ms.
Proof.
  intros Hall. apply decode_encode_of_survivors.
  eapply Forall_impl; [exact Hall|]. intros m (Hocc & Hpath & Hpos & Hlen). simpl.
  split; [exact Hocc|]. apply (Unmarshal_Marshal (header_of m)); assumption.
Qed.

Lemma C3_witness :
  exists text, writeTempMatchFile two_X = Ok text /\ ParseMatches text = Ok two_X.
Proof.
  apply C3_decode_encode. unfold two_X.
  assert (Hf : valid_utf8 (list_ascii_of_string "f")).
  { apply (valid_utf8_rune _ _ 1%nat); [reflexivity|apply valid_utf8_nil]. }
  apply Forall_cons_2; [|apply Forall_cons_2; [|apply Forall_nil_2]].
  - split; [vm_compute; reflexivity|]. split; [exact Hf|].
    split; vm_compute; split; discriminate.
  - split; [vm_compute; reflexivity|]. split; [exact Hf|].
    split; vm_compute; split; discriminate.
Defined.

(** C3 as stated fails on what the Matcher can produce. A match that
    holds a newline followed by [#bed:end] comes back cut off at that
    place; a path that is not valid UTF-8 comes back with U+FFFD in
    place of the offending byte. *)
Lemma C3_counterexample :
  (FindAllIndexPath rt0 re_all {[ "f"%string := File (T "x|#bed:endy") 420%N ]} "f"
     = Ok [mkMatch "f" 0 11 (T "x|#bed:endy")] /\
   (do text <- writeTempMatchFile [mkMatch "f" 0 11 (T "x|#bed:endy")];
    ParseMatches text) = Ok [mkMatch "f" 0 11 (B "x")]) /\
  (let path := string_of_list_ascii [json.chr 255] in
   FindAllIndexPath rt0 (re_byte "X") {[ path := File (B "X") 420%N ]} path
     = Ok [mkMatch path 0 1 (B "X")] /\
   (do text <- writeTempMatchFile [mkMatch path 0 1 (B "X")];
    ParseMatches text)
     = Ok [mkMatch (string_of_list_ascii json.replacement) 0 1 (B "X")]).
Proof. vm_compute. repeat split; reflexivity. Qed.


(** * Further properties *)

(** ** Records in ascending order *)

Lemma ascending_le ms : forall from limit, ascending from limit ms -> from <= limit.
Proof.
  induction ms as [|m rest IH]; intros from limit H; simpl in H; [exact H|].
  destruct H as (H1 & H2 & H3). apply IH in H3. lia.
Qed.

Lemma ascending_after ms : forall from limit,
  ascending from limit ms -> Forall (fun r => from <= Pos r /\ Pos r <= limit) ms.
Proof.
  induction ms as [|m rest IH]; intros from limit H; [constructor|].
  destruct H as (H1 & H2 & H3). constructor.
  - apply ascending_le in H3. lia.
  - eapply Forall_impl; [apply (IH _ _ H3)|]. simpl. intros r [Hr1 Hr2]. lia.
Qed.

Lemma data_size_nonneg ms : 0 <= data_size ms.
Proof. induction ms as [|m rest IH]; simpl; [lia|]. pose proof (blen_nonneg (Data m)). lia. Qed.

Lemma blen_drop (b : bytes) n : 0 <= n <= blen b -> blen (drop (Z.to_nat n) b) = blen b - n.
Proof. intros H. unfold blen in *. rewrite length_drop. lia. Qed.

Lemma move_0 m : move 0 m = m.
Proof. unfold move. rewrite Z.add_0_r. destruct m; reflexivity. Qed.

(** The loop on ascending records, seen from a point where the prefix
    [P] of the result is made and the original is consumed up to [c]. *)
Lemma patch_replaced_from ms : forall orig c P,
  0 <= c ->
  ascending c (blen orig) ms ->
  blen P + (blen orig - c) + data_size ms <= int_max ->
  patch (P ++ drop (Z.to_nat c) orig) (map (move (blen P - c)) ms)
  = Some (P ++ replaced c orig ms).
Proof.
  induction ms as [|m rest IH]; intros orig c P Hc Hasc Hsize.
  - reflexivity.
  - destruct Hasc as (Hfrom & Hlen & Hrest).
    pose proof (ascending_le _ _ _ Hrest) as Hend.
    pose proof (blen_nonneg P) as HP. pose proof (blen_nonneg (Data m)) as Hd.
    pose proof (data_size_nonneg rest) as Hds.
    cbn [map data_size] in *. rewrite patch_cons.
    assert (Hcur : blen (P ++ drop (Z.to_nat c) orig) = blen P + (blen orig - c)).
    { rewrite blen_app, blen_drop by lia. reflexivity. }
    assert (Hb : in_bounds (P ++ drop (Z.to_nat c) orig) (move (blen P - c) m)).
    { unfold in_bounds, move. simpl. rewrite Hcur. lia. }
    apply in_boundsb_spec in Hb. rewrite Hb.
    destruct (Z.leb_spec (blen (P ++ drop (Z.to_nat c) orig)) int_max) as [_|Hbad];
      [|rewrite Hcur in Hbad; lia].
    cbn [andb].
    set (P' := P ++ subslice orig c (Pos m) ++ Data m).
    assert (HP' : blen P' = blen P + (Pos m - c) + blen (Data m)).
    { unfold P', subslice. rewrite !blen_app. unfold blen.
      rewrite length_take, length_drop. unfold blen in *. lia. }
    assert (Hspl : spliced (P ++ drop (Z.to_nat c) orig) (move (blen P - c) m)
                   = P' ++ drop (Z.to_nat (Pos m + Len m)) orig).
    { unfold spliced, move, P', subslice. simpl.
      replace (Z.to_nat (Pos m + (blen P - c)))
        with (length P + Z.to_nat (Pos m - c))%nat by (unfold blen in *; lia).
      replace (Z.to_nat (Pos m + (blen P - c) + Len m))
        with (length P + Z.to_nat (Pos m - c + Len m))%nat by (unfold blen in *; lia).
      rewrite take_app_add, drop_app_add, drop_drop.
      replace (Z.to_nat c + Z.to_nat (Pos m - c + Len m))%nat
        with (Z.to_nat (Pos m + Len m)) by lia.
      rewrite <- !app_assoc. reflexivity. }
    rewrite Hspl.
    assert (Hmap : map (shift (move (blen P - c) m)) (map (move (blen P - c)) rest)
                   = map (move (blen P' - (Pos m + Len m))) rest).
    { rewrite map_map. apply map_ext_Forall.
      eapply Forall_impl; [apply (ascending_after _ _ _ Hrest)|].
      intros r [Hr1 Hr2]. simpl. unfold shift, move, delta. simpl.
      destruct (Z.geb_spec (Pos r + (blen P - c)) (Pos m + (blen P - c))) as [_|Hbad];
        [|lia].
      rewrite int_sub_exact by (unfold is_int, int_min, int_max in *; lia).
      rewrite int_add_exact by (unfold is_int, int_min, int_max in *; lia).
      unfold set_Pos. simpl. f_equal. lia. }
    rewrite Hmap, IH; [|lia|exact Hrest|lia].
    unfold P'. cbn [replaced]. rewrite <- !app_assoc. reflexivity.
Qed.

Lemma patch_replaced content ms :
  ascending 0 (blen content) ms ->
  blen content + data_size ms <= int_max ->
  patch content ms = Some (replaced 0 content ms).
Proof.
  intros Hasc Hsize.
  pose proof (patch_replaced_from ms content 0 [] ltac:(lia) Hasc) as H.
  change (blen []) with 0 in H. simpl in H.
  rewrite (map_ext_Forall _ (fun r => r)) in H.
  - rewrite map_id in H. apply H. lia.
  - apply Forall_forall. intros r _. apply move_0.
Qed.

(** X1. On a group of distinct records whose spans follow one another
    in the contents of the file (ascending, not overlapping, as the
    Matcher finds them), [applyPathMatches] writes back the contents
    with every span replaced by the data of its record and every byte
    between the spans kept, whatever the lengths of the data are; the
    mode of the file is kept and no other file is touched. *)
Theorem applyPathMatches_ascending rt path ptrs w f recs :
  files w !! path = Some f ->
  NoDup ptrs ->
  deref (records w) ptrs recs ->
  ascending 0 (blen (contents f)) recs ->
  blen (contents f) + data_size recs <= int_max ->
  exists h',
    applyPathMatches rt path ptrs w
    = (Ok tt, World (<[path := File (replaced 0 (contents f) recs) (mode f)]> (files w)) h').
Proof.
  intros Hf Hnd Hd Hasc Hsize.
  destruct (applyPathMatches_patch rt path ptrs w f recs (replaced 0 (contents f) recs)
              Hf Hnd Hd (patch_replaced _ _ Hasc Hsize)) as (h' & Hrun & _).
  exists h'. exact Hrun.
Qed.

Lemma applyPathMatches_ascending_witness :
  exists h',
    applyPathMatches rt0 "f" [0%nat; 1%nat] (World fs_X two_X)
    = (Ok tt, World {[ "f"%string := File (B "aaaYYbbbZccc") 420%N ]} h').
Proof.
  destruct (applyPathMatches_ascending rt0 "f" [0%nat; 1%nat] (World fs_X two_X)
              (File (B "aaaXbbbXccc") 420%N) two_X) as [h' Hrun].
  - apply lookup_singleton_eq.
  - compute_done.
  - repeat constructor.
  - vm_compute. repeat split; discriminate.
  - vm_compute. discriminate.
  - exists h'. rewrite Hrun. cbn [files contents mode]. unfold fs_X.
    rewrite insert_singleton_eq. reflexivity.
Defined.

(** ** Records in any order *)

Lemma Pos_move k m : Pos (move k m) = Pos m + k.
Proof. reflexivity. Qed.

Lemma Len_move k m : Len (move k m) = Len m.
Proof. reflexivity. Qed.

Lemma Data_move k m : Data (move k m) = Data m.
Proof. reflexivity. Qed.

Lemma ascending_weaken ms from from' limit :
  from' <= from -> ascending from limit ms -> ascending from' limit ms.
Proof.
  destruct ms as [|m rest]; cbn [ascending]; intros Hle H; [lia|].
  destruct H as (H1 & H2 & H3). repeat split; [lia|exact H2|exact H3].
Qed.

Lemma ascending_app_inv l1 m l2 : forall from limit,
  ascending from limit (l1 ++ m :: l2) ->
  ascending from (Pos m) l1 /\ 0 <= Len m /\ ascending (Pos m + Len m) limit l2.
Proof.
  induction l1 as [|r l1 IH]; intros from limit H; cbn [app ascending] in *.
  - destruct H as (H1 & H2 & H3). auto.
  - destruct H as (H1 & H2 & H3). destruct (IH _ _ H3) as (H4 & H5 & H6). auto.
Qed.

Lemma ascending_app l1 l2 : forall from mid mid' limit,
  ascending from mid l1 -> mid <= mid' -> ascending mid' limit l2 ->
  ascending from limit (l1 ++ l2).
Proof.
  induction l1 as [|r l1 IH]; intros from mid mid' limit H1 Hle H2; cbn [app ascending] in *.
  - apply (ascending_weaken l2 mid'); [lia|exact H2].
  - destruct H1 as (Ha & Hb & Hc). repeat split; [exact Ha|exact Hb|].
    apply (IH _ mid mid'); assumption.
Qed.

Lemma ascending_move k ms : forall from limit,
  ascending from limit ms -> ascending (from + k) (limit + k) (map (move k) ms).
Proof.
  induction ms as [|m rest IH]; intros from limit H; cbn [map ascending] in *; [lia|].
  destruct H as (H1 & H2 & H3). rewrite !Pos_move, !Len_move.
  repeat split; [lia|exact H2|].
  replace (Pos m + k + Len m) with (Pos m + Len m + k) by lia. apply IH. exact H3.
Qed.

Lemma increasing_weaken ms last last' :
  last' <= last -> increasing last ms -> increasing last' ms.
Proof.
  destruct ms as [|m rest]; cbn [increasing]; intros Hle H; [exact I|].
  destruct H as [H1 H2]. split; [lia|exact H2].
Qed.

Lemma increasing_app_inv l1 m l2 : forall last,
  increasing last (l1 ++ m :: l2) ->
  increasing last l1 /\ Forall (fun r => Pos r < Pos m) l1 /\ last < Pos m /\
  increasing (Pos m) l2.
Proof.
  induction l1 as [|r l1 IH]; intros last H; cbn [app increasing] in *.
  - destruct H as [H1 H2]. repeat split; [constructor|exact H1|exact H2].
  - destruct H as [H1 H2]. destruct (IH _ H2) as (H3 & H4 & H5 & H6).
    repeat split; [exact H1|exact H3|constructor; [exact H5|exact H4]|lia|exact H6].
Qed.

Lemma increasing_app l1 l2 x : forall last,
  increasing last l1 -> Forall (fun r => Pos r < x) l1 -> last < x ->
  increasing (x - 1) l2 ->
  increasing last (l1 ++ l2).
Proof.
  induction l1 as [|r l1 IH]; intros last H1 Hall Hlast H2; cbn [app increasing] in *.
  - apply (increasing_weaken l2 (x - 1)); [lia|exact H2].
  - destruct H1 as [Ha Hb]. apply Forall_cons in Hall as [Hr Hall].
    split; [exact Ha|]. apply IH; assumption.
Qed.

Lemma increasing_move k ms : forall last,
  increasing last ms -> increasing (last + k) (map (move k) ms).
Proof.
  induction ms as [|m rest IH]; intros last H; cbn [map increasing] in *; [exact I|].
  destruct H as [H1 H2]. rewrite !Pos_move. split; [lia|].
  apply IH. exact H2.
Qed.

Lemma increasing_above ms last lo :
  increasing last ms -> Forall (fun r => lo < Pos r) ms -> increasing lo ms.
Proof.
  destruct ms as [|m rest]; cbn [increasing]; intros H Hall; [exact I|].
  apply Forall_cons in Hall as [Hm _]. destruct H as [_ H]. split; assumption.
Qed.

Lemma increasing_of_NoDup ms : forall from last limit,
  ascending from limit ms -> NoDup (map Pos ms) ->
  last <= from -> last ∉ map Pos ms ->
  increasing last ms.
Proof.
  induction ms as [|m rest IH]; intros from last limit Hasc Hnd Hle Hnot;
    cbn [map ascending increasing] in *; [exact I|].
  destruct Hasc as (H1 & H2 & H3). apply NoDup_cons in Hnd as [Hm Hnd].
  apply not_elem_of_cons in Hnot as [Hne Hnot]. split; [lia|].
  apply (IH (Pos m + Len m) (Pos m) limit); [exact H3|exact Hnd|lia|exact Hm].
Qed.

Lemma data_size_app l1 l2 : data_size (l1 ++ l2) = data_size l1 + data_size l2.
Proof. induction l1 as [|m l1 IH]; cbn [app data_size]; [reflexivity|]. rewrite IH. lia. Qed.

Lemma data_size_move k ms : data_size (map (move k) ms) = data_size ms.
Proof. induction ms as [|m rest IH]; cbn [map data_size]; [reflexivity|]. rewrite IH, Data_move. reflexivity. Qed.

Lemma data_size_Permutation ms ms' : ms ≡ₚ ms' -> data_size ms = data_size ms'.
Proof. induction 1; cbn [data_size]; lia. Qed.

(** The bytes before a span are those of the original. *)
Lemma subslice_spliced c m lo hi :
  0 <= lo -> lo <= hi -> hi <= Pos m -> Pos m <= blen c ->
  subslice (spliced c m) lo hi = subslice c lo hi.
Proof.
  intros H0 H1 H2 H3. unfold subslice, spliced.
  assert (Hlen : length (take (Z.to_nat (Pos m)) c) = Z.to_nat (Pos m)).
  { rewrite length_take. unfold blen in H3. lia. }
  assert (Hcut : forall tail,
            take (Z.to_nat (hi - lo)) (drop (Z.to_nat lo) (take (Z.to_nat (Pos m)) c ++ tail))
            = take (Z.to_nat (hi - lo)) (drop (Z.to_nat lo) (take (Z.to_nat (Pos m)) c))).
  { intros tail. rewrite drop_app_le by lia. apply take_app_le.
    rewrite length_drop. lia. }
  rewrite Hcut. rewrite <- (Hcut (drop (Z.to_nat (Pos m)) c)), take_drop. reflexivity.
Qed.

Lemma replaced_moved l2 : forall c from P e,
  0 <= from -> from <= blen P -> 0 <= e ->
  ascending e (blen c) l2 ->
  replaced from (P ++ drop (Z.to_nat e) c) (map (move (blen P - e)) l2)
  = drop (Z.to_nat from) P ++ replaced e c l2.
Proof.
  induction l2 as [|r l2 IH]; intros c from P e H0 Hfrom He Hasc.
  - cbn [map replaced]. rewrite drop_app_le; [reflexivity|]. unfold blen in Hfrom. lia.
  - destruct Hasc as (H1 & H2 & H3). pose proof (ascending_le _ _ _ H3) as Hend.
    cbn [map replaced]. rewrite !Pos_move, !Len_move, !Data_move.
    set (k := blen P - e).
    set (P' := P ++ subslice c e (Pos r + Len r)).
    assert (HP' : blen P' = blen P + (Pos r + Len r - e)).
    { unfold P', subslice. rewrite blen_app. unfold blen.
      rewrite length_take, length_drop. unfold blen in *. lia. }
    assert (HX : P ++ drop (Z.to_nat e) c = P' ++ drop (Z.to_nat (Pos r + Len r)) c).
    { unfold P', subslice. rewrite <- app_assoc. f_equal.
      rewrite <- (take_drop (Z.to_nat (Pos r + Len r - e)) (drop (Z.to_nat e) c)) at 1.
      f_equal. rewrite drop_drop. f_equal. lia. }
    assert (Hk : k = blen P' - (Pos r + Len r)) by (unfold k; lia).
    assert (Hfirst : subslice (P ++ drop (Z.to_nat e) c) from (Pos r + k)
                     = drop (Z.to_nat from) P ++ subslice c e (Pos r)).
    { unfold subslice. rewrite drop_app_le by (unfold blen in Hfrom; lia).
      rewrite take_app_ge by (rewrite length_drop; unfold k, blen in *; lia).
      f_equal. f_equal. rewrite length_drop. unfold k, blen in *. lia. }
    rewrite Hfirst.
    replace (Pos r + k + Len r) with (blen P') by lia.
    rewrite HX. rewrite Hk.
    rewrite (IH c (blen P') P' (Pos r + Len r)); [|unfold blen; lia|lia|lia|exact H3].
    rewrite (drop_ge P') by (unfold blen; lia).
    rewrite <- !app_assoc. reflexivity.
Qed.

Lemma replaced_spliced c m l2 : forall l1 from,
  0 <= from ->
  ascending from (Pos m) l1 -> 0 <= Len m ->
  ascending (Pos m + Len m) (blen c) l2 ->
  replaced from (spliced c m) (l1 ++ map (move (blen (Data m) - Len m)) l2)
  = replaced from c (l1 ++ m :: l2).
Proof.
  intros l1 from H0 H1 Hlen H2. pose proof (ascending_le _ _ _ H2) as Hend.
  revert from H0 H1. induction l1 as [|r l1 IH]; intros from H0 H1.
  - cbn [app replaced ascending] in *.
    set (P := take (Z.to_nat (Pos m)) c ++ Data m).
    assert (HP : blen P = Pos m + blen (Data m)).
    { unfold P. rewrite blen_app. unfold blen. rewrite length_take.
      unfold blen in *. lia. }
    assert (HX : spliced c m = P ++ drop (Z.to_nat (Pos m + Len m)) c).
    { unfold spliced, P. rewrite <- app_assoc. reflexivity. }
    rewrite HX.
    replace (blen (Data m) - Len m) with (blen P - (Pos m + Len m)) by lia.
    pose proof (blen_nonneg (Data m)) as Hd.
    rewrite replaced_moved; [|lia|lia|lia|exact H2].
    assert (Hdrop : drop (Z.to_nat from) P = subslice c from (Pos m) ++ Data m).
    { unfold P, subslice.
      rewrite drop_app_le by (rewrite length_take; unfold blen in *; lia).
      f_equal. rewrite take_drop_commute. f_equal. f_equal. lia. }
    rewrite Hdrop, <- app_assoc. reflexivity.
  - cbn [app replaced ascending] in *. destruct H1 as (Ha & Hb & Hc).
    pose proof (ascending_le _ _ _ Hc) as Hr.
    rewrite (subslice_spliced c m from (Pos r)) by lia.
    rewrite IH; [reflexivity|lia|exact Hc].
Qed.

(** The loop on records in any order: the record spliced first splits
    the others into those before it, left as they are, and those after
    it, moved by the change of size. *)
Lemma patch_any_order_bounded : forall n ms c sorted,
  (length ms <= n)%nat ->
  ms ≡ₚ sorted ->
  ascending 0 (blen c) sorted ->
  increasing (-1) sorted ->
  blen c + data_size sorted <= int_max ->
  patch c ms = Some (replaced 0 c sorted).
Proof.
  induction n as [|n IH]; intros ms c sorted Hn Hperm Hasc Hinc Hsize.
  - destruct ms; [|cbn in Hn; lia]. apply Permutation_nil_l in Hperm. subst sorted.
    reflexivity.
  - destruct ms as [|m rest].
    { apply Permutation_nil_l in Hperm. subst sorted. reflexivity. }
    assert (Hin : m ∈ sorted) by (rewrite <- Hperm; left).
    apply list_elem_of_split in Hin as (l1 & l2 & ->).
    apply Permutation_cons_app_inv in Hperm.
    destruct (ascending_app_inv l1 m l2 _ _ Hasc) as (Ha1 & Hlen & Ha2).
    destruct (increasing_app_inv l1 m l2 _ Hinc) as (Hi1 & Hbefore & Hlast & Hi2).
    pose proof (ascending_le _ _ _ Ha1) as Hpos.
    pose proof (ascending_le _ _ _ Ha2) as Hend.
    pose proof (blen_nonneg (Data m)) as Hd.
    pose proof (data_size_nonneg l1) as Hs1. pose proof (data_size_nonneg l2) as Hs2.
    rewrite data_size_app in Hsize. cbn [data_size] in Hsize.
    rewrite patch_cons.
    assert (Hb : in_bounds c m) by (unfold in_bounds; lia).
    apply in_boundsb_spec in Hb. rewrite Hb.
    destruct (Z.leb_spec (blen c) int_max) as [_|Hbad]; [|lia]. cbn [andb].
    set (d := blen (Data m) - Len m).
    assert (Hspl : blen (spliced c m) = blen c + d).
    { unfold spliced. rewrite !blen_app. unfold blen. rewrite length_take, length_drop.
      unfold d, blen in *. lia. }
    assert (Hshift : map (shift m) (l1 ++ l2) = l1 ++ map (move d) l2).
    { rewrite map_app. f_equal.
      - rewrite <- (map_id l1) at 2. apply map_ext_Forall.
        eapply Forall_impl; [exact Hbefore|]. intros r Hr. cbn beta in *. unfold shift.
        destruct (Z.geb_spec (Pos r) (Pos m)) as [Hge|_]; [lia|reflexivity].
      - apply map_ext_Forall.
        eapply Forall_impl; [apply (ascending_after _ _ _ Ha2)|].
        intros r [Hr1 Hr2]. cbn beta. unfold shift, move, delta.
        destruct (Z.geb_spec (Pos r) (Pos m)) as [_|Hlt]; [|lia].
        rewrite int_sub_exact by (unfold is_int, int_min, int_max in *; lia).
        rewrite int_add_exact by (unfold d, is_int, int_min, int_max in *; lia).
        reflexivity. }
    rewrite (IH (map (shift m) rest) (spliced c m) (l1 ++ map (move d) l2)).
    + f_equal. apply replaced_spliced; [lia|exact Ha1|exact Hlen|exact Ha2].
    + rewrite length_map. cbn [length] in Hn. lia.
    + rewrite <- Hshift. apply Permutation_map. exact Hperm.
    + rewrite Hspl. apply (ascending_app l1 _ 0 (Pos m) (Pos m + Len m + d));
        [exact Ha1|unfold d; lia|].
      apply ascending_move. exact Ha2.
    + apply (increasing_app l1 _ (Pos m)); [exact Hi1|exact Hbefore|exact Hlast|].
      apply (increasing_above _ (Pos m + d)); [apply increasing_move; exact Hi2|].
      apply Forall_forall. intros r' Hr'.
      apply list_elem_of_fmap in Hr' as (r & -> & Hr). rewrite Pos_move.
      pose proof (proj1 (Forall_forall _ _) (ascending_after _ _ _ Ha2) r Hr) as [Hr1 _].
      unfold d. lia.
    + rewrite Hspl, data_size_app, data_size_move. unfold d. lia.
Qed.

Lemma patch_any_order c ms sorted :
  ms ≡ₚ sorted ->
  ascending 0 (blen c) sorted ->
  NoDup (map Pos sorted) ->
  blen c + data_size sorted <= int_max ->
  patch c ms = Some (replaced 0 c sorted).
Proof.
  intros Hperm Hasc Hnd Hsize.
  apply (patch_any_order_bounded (length ms)); [lia|exact Hperm|exact Hasc| |exact Hsize].
  apply (increasing_of_NoDup sorted 0 (-1) (blen c)); [exact Hasc|exact Hnd|lia|].
  intros Hin. apply list_elem_of_fmap in Hin as (r & Hr & Hin).
  pose proof (proj1 (Forall_forall _ _) (ascending_after _ _ _ Hasc) r Hin) as [Hr1 _].
  lia.
Qed.

(** X2. The records of a file may come in any order. When the group
    is a permutation of records whose spans, taken by ascending
    position, follow one another without overlap and begin at distinct
    positions, [applyPathMatches] leaves in the file what it leaves
    for the records taken in ascending order: every span replaced by
    the data of its record, the bytes between the spans kept. The
    blocks of the temporary file can thus be reordered by the user
    without harm. *)
Theorem applyPathMatches_any_order rt path ptrs w f recs sorted :
  files w !! path = Some f ->
  NoDup ptrs ->
  deref (records w) ptrs recs ->
  recs ≡ₚ sorted ->
  ascending 0 (blen (contents f)) sorted ->
  NoDup (map Pos sorted) ->
  blen (contents f) + data_size sorted <= int_max ->
  exists h',
    applyPathMatches rt path ptrs w
    = (Ok tt, World (<[path := File (replaced 0 (contents f) sorted) (mode f)]> (files w)) h').
Proof.
  intros Hf Hnd Hd Hperm Hasc Hpos Hsize.
  destruct (applyPathMatches_patch rt path ptrs w f recs (replaced 0 (contents f) sorted)
              Hf Hnd Hd (patch_any_order _ _ _ Hperm Hasc Hpos Hsize)) as (h' & Hrun & _).
  exists h'. exact Hrun.
Qed.

Lemma applyPathMatches_any_order_witness :
  exists h',
    applyPathMatches rt0 "f" [0%nat; 1%nat] (World fs_X (reverse two_X))
    = (Ok tt, World {[ "f"%string := File (B "aaaYYbbbZccc") 420%N ]} h').
Proof.
  destruct (applyPathMatches_any_order rt0 "f" [0%nat; 1%nat] (World fs_X (reverse two_X))
              (File (B "aaaXbbbXccc") 420%N) (reverse two_X) two_X) as [h' Hrun].
  - apply lookup_singleton_eq.
  - compute_done.
  - repeat constructor.
  - apply perm_swap.
  - vm_compute. repeat split; discriminate.
  - compute_done.
  - vm_compute. discriminate.
  - exists h'. rewrite Hrun. cbn [files contents mode]. unfold fs_X.
    rewrite insert_singleton_eq. reflexivity.
Defined.

(** ** The Matcher on several files *)

Lemma FindAllIndexPath_found rt re fs path :
  scannable re fs path ->
  FindAllIndexPath rt re fs path = Ok (found re fs path).
Proof.
  intros (f & Hf & Hmax & Hok). unfold found. rewrite Hf.
  apply FindAllIndexPath_records; assumption.
Qed.

Lemma FindAllIndexPaths_found rt re fs paths :
  Forall (scannable re fs) paths ->
  FindAllIndexPaths rt re fs paths = Ok (concat (map (found re fs) paths)).
Proof.
  induction 1 as [|p paths Hp _ IH]; [reflexivity|].
  cbn [FindAllIndexPaths map concat].
  rewrite (FindAllIndexPath_found rt re fs p Hp). cbn [res_bind].
  rewrite IH. reflexivity.
Qed.

Lemma FindAllIndexPaths_app rt re fs a b :
  FindAllIndexPaths rt re fs (a ++ b)
  = (do x <- FindAllIndexPaths rt re fs a;
     do y <- FindAllIndexPaths rt re fs b;
     Ok (x ++ y)).
Proof.
  induction a as [|p a IH]; cbn [app FindAllIndexPaths].
  - destruct (FindAllIndexPaths rt re fs b); reflexivity.
  - destruct (FindAllIndexPath rt re fs p) as [m| |]; cbn [res_bind];
      [|reflexivity..].
    rewrite IH. destruct (FindAllIndexPaths rt re fs a) as [x| |]; cbn [res_bind];
      [|reflexivity..].
    destruct (FindAllIndexPaths rt re fs b) as [y| |]; cbn [res_bind];
      [|reflexivity..].
    rewrite app_assoc. reflexivity.
Qed.

Lemma elem_of_concat {A} (x : A) (ls : list (list A)) :
  x ∈ concat ls -> exists l, x ∈ l /\ l ∈ ls.
Proof.
  induction ls as [|l ls IH]; cbn [concat]; intros H; [inversion H|].
  apply elem_of_app in H as [H|H].
  - exists l. split; [exact H|left].
  - destruct (IH H) as (l' & Hx & Hl'). exists l'. split; [exact Hx|right; exact Hl'].
Qed.

Lemma found_spec re fs path m :
  scannable re fs path -> m ∈ found re fs path ->
  exists f se, fs !! path = Some f /\ blen (contents f) <= int_max /\
    m = match_of path (contents f) se /\
    0 <= fst se /\ fst se <= snd se /\ snd se <= blen (contents f).
Proof.
  intros (f & Hf & Hmax & Hok) Hm. unfold found in Hm. rewrite Hf in Hm.
  apply list_elem_of_fmap in Hm as (se & -> & Hse).
  exists f, se. repeat split; try assumption;
    apply (proj1 (Forall_forall _ _) Hok se Hse).
Qed.

Lemma found_Path re fs path m : m ∈ found re fs path -> Path m = path.
Proof.
  unfold found. destruct (fs !! path) as [f|]; [|intros H; inversion H].
  intros Hm. apply list_elem_of_fmap in Hm as (se & -> & _). reflexivity.
Qed.

Lemma scanned_elem re fs paths m :
  m ∈ concat (map (found re fs) paths) ->
  Path m ∈ paths /\ m ∈ found re fs (Path m).
Proof.
  intros Hm. apply elem_of_concat in Hm as (l & Hm & Hl).
  apply list_elem_of_fmap in Hl as (p & -> & Hp).
  rewrite (found_Path re fs p m Hm). split; assumption.
Qed.

(** X3. When every file can be read, [FindAllIndexPaths] returns the
    records of the files one file after the other, in the order the
    paths are given (a path given twice is scanned twice); every record
    has the path of a file that was scanned, and its span lies inside
    the contents of that file and its data are the bytes of the span. *)
Theorem FindAllIndexPaths_concat rt re fs paths :
  Forall (scannable re fs) paths ->
  exists matches,
    FindAllIndexPaths rt re fs paths = Ok matches /\
    matches = concat (map (found re fs) paths) /\
    Forall (fun m => Path m ∈ paths /\
              exists f, fs !! Path m = Some f /\ carries_span (contents f) m) matches.
Proof.
  intros Hscan. exists (concat (map (found re fs) paths)).
  split; [apply FindAllIndexPaths_found; exact Hscan|]. split; [reflexivity|].
  apply Forall_forall. intros m Hm. apply scanned_elem in Hm as [Hp Hm].
  split; [exact Hp|].
  destruct (found_spec re fs (Path m) m) as (f & se & Hf & _ & Heq & Hse);
    [apply (proj1 (Forall_forall _ _) Hscan _ Hp)|exact Hm|].
  exists f. split; [exact Hf|]. rewrite Heq.
  apply match_of_carries. exact Hse.
Qed.

Lemma FindAllIndexPaths_concat_witness :
  exists matches,
    FindAllIndexPaths rt0 (re_byte "a") fs_ab ["b"%string; "a"%string] = Ok matches /\
    matches = [mkMatch "a" 0 1 (B "a"); mkMatch "a" 1 1 (B "a"); mkMatch "a" 2 1 (B "a")].
Proof.
  destruct (FindAllIndexPaths_concat rt0 (re_byte "a") fs_ab ["b"%string; "a"%string])
    as (matches & Hrun & Heq & _).
  - apply Forall_cons_2; [|apply Forall_cons_2; [|apply Forall_nil_2]].
    + exists (File (B "hello") 384%N). split; [reflexivity|].
      split; [vm_compute; discriminate|]. vm_compute. constructor.
    + exists (File (B "aaaXbbbXccc") 420%N). split; [reflexivity|].
      split; [vm_compute; discriminate|]. unfold spans_ok. vm_compute.
      repeat constructor; discriminate.
  - exists matches. split; [exact Hrun|]. rewrite Heq. vm_compute. reflexivity.
Defined.

(** X4. [FindAllIndexPaths] stops at the first path that cannot be
    read: it returns the error of that path and no record, whatever was
    found in the files before it and whatever comes after it. *)
Theorem FindAllIndexPaths_fail_fast rt re fs before path after :
  Forall (scannable re fs) before ->
  fs !! path = None ->
  FindAllIndexPaths rt re fs (before ++ path :: after) = Err (ErrNotExist path).
Proof.
  intros Hbefore Hmissing.
  rewrite FindAllIndexPaths_app, (FindAllIndexPaths_found rt re fs before Hbefore).
  cbn [res_bind FindAllIndexPaths]. unfold FindAllIndexPath, ReadFile.
  rewrite Hmissing. reflexivity.
Qed.

Lemma FindAllIndexPaths_fail_fast_witness :
  FindAllIndexPaths rt0 (re_byte "a") fs_ab ["a"%string; "zzz"%string; "b"%string]
  = Err (ErrNotExist "zzz").
Proof.
  apply (FindAllIndexPaths_fail_fast rt0 (re_byte "a") fs_ab ["a"%string] "zzz"
           ["b"%string]).
  - apply Forall_cons_2; [|apply Forall_nil_2].
    exists (File (B "aaaXbbbXccc") 420%N). split; [reflexivity|].
    split; [vm_compute; discriminate|]. unfold spans_ok. vm_compute.
    repeat constructor; discriminate.
  - reflexivity.
Defined.

(** ** Grouping *)

Lemma group_nil h path : group h [] path = [].
Proof. reflexivity. Qed.

Lemma concat_groups_nil h (iter : list string) : concat (map (group h []) iter) = [].
Proof. induction iter as [|p iter IH]; [reflexivity|exact IH]. Qed.

Lemma concat_groups_cons h q r ptrs : forall iter,
  h !! q = Some r -> NoDup iter -> Path r ∈ iter ->
  concat (map (group h (q :: ptrs)) iter) ≡ₚ q :: concat (map (group h ptrs) iter).
Proof.
  induction iter as [|p iter IH]; intros Hq Hnd Hin; [inversion Hin|].
  apply NoDup_cons in Hnd as [Hp Hnd]. cbn [map concat].
  destruct (decide (p = Path r)) as [->|Hne].
  - rewrite (group_cons_in h q ptrs r Hq).
    assert (map (group h (q :: ptrs)) iter = map (group h ptrs) iter) as ->;
      [|reflexivity].
    apply map_ext_in. intros p' Hp'.
    apply (group_cons_out h q ptrs r p' Hq). intros ->.
    apply Hp. apply list_elem_of_In. exact Hp'.
  - rewrite (group_cons_out h q ptrs r p Hq Hne).
    apply elem_of_cons in Hin as [Heq|Hin]; [congruence|].
    rewrite (IH Hq Hnd Hin). symmetry. apply Permutation_middle.
Qed.

Lemma concat_groups h ptrs recs iter :
  deref h ptrs recs -> NoDup iter ->
  (forall path, group h ptrs path <> [] -> path ∈ iter) ->
  concat (map (group h ptrs) iter) ≡ₚ ptrs.
Proof.
  intros Hd Hnd. induction Hd as [|q r ptrs recs Hq _ IH]; intros Hkeys.
  - rewrite concat_groups_nil. reflexivity.
  - rewrite (concat_groups_cons h q r ptrs iter Hq Hnd).
    + f_equiv. apply IH. intros path Hne. apply Hkeys.
      destruct (decide (path = Path r)) as [->|Hp].
      * rewrite (group_cons_in h q ptrs r Hq). discriminate.
      * rewrite (group_cons_out h q ptrs r path Hq Hp). exact Hne.
    + apply Hkeys. rewrite (group_cons_in h q ptrs r Hq). discriminate.
Qed.

(** X5. [groupMatchesByPath] partitions its input: whatever order Go
    ranges over the map in, the paths come with one group each, no
    group is empty, every record of a group has the path of the group,
    and the groups together hold every input record exactly as often
    as the input does: none is lost, none is repeated. *)
Theorem groupMatchesByPath_partition h matches recs m iter :
  deref h matches recs ->
  groupMap matches h ∅ = Ok m ->
  range_order m iter ->
  exists pathMatches,
    groupMatchesByPath iter matches h = Ok (iter, pathMatches) /\
    concat pathMatches ≡ₚ matches /\
    Forall2 (fun path g =>
               g <> [] /\ Forall (fun k => Path <$> h !! k = Some path) g)
            iter pathMatches.
Proof.
  intros Hd Hm [Hnd Hkeys].
  pose proof (groupMap_keys h matches recs Hd ∅ m Hm) as Hgk.
  assert (Hin : forall path, path ∈ iter <-> group h matches path <> []).
  { intros path. rewrite Hkeys, Hgk, lookup_empty. split.
    - intros [[x Hx]|Hne]; [discriminate|exact Hne].
    - intros Hne. right. exact Hne. }
  exists (map (group h matches) iter). split; [|split].
  - apply (groupMatchesByPath_spec h matches recs iter Hd).
  - apply (concat_groups h matches recs iter Hd Hnd). intros path. apply Hin.
  - apply Forall2_fmap_r. apply Forall_Forall2_diag. apply Forall_forall.
    intros path Hp. split; [apply Hin; exact Hp|].
    apply Forall_forall. intros k Hk. unfold group in Hk.
    apply list_elem_of_filter in Hk as [Hk _]. exact Hk.
Qed.

Lemma groupMatchesByPath_partition_witness :
  exists pathMatches,
    groupMatchesByPath ["b"%string; "a"%string] [0%nat; 1%nat; 2%nat] recs_ab
    = Ok (["b"%string; "a"%string], pathMatches) /\
    concat pathMatches ≡ₚ [0%nat; 1%nat; 2%nat] /\
    Forall2 (fun path g =>
               g <> [] /\ Forall (fun k => Path <$> recs_ab !! k = Some path) g)
            ["b"%string; "a"%string] pathMatches.
Proof.
  apply (groupMatchesByPath_partition recs_ab [0%nat; 1%nat; 2%nat] recs_ab
           (<[ "b"%string := [1%nat] ]> {[ "a"%string := [0%nat; 2%nat] ]})).
  - apply (deref_seq recs_ab).
  - vm_compute. reflexivity.
  - split; [compute_done|]. intros k. rewrite !elem_of_cons, elem_of_nil.
    split.
    + intros [->|[->|[]]]; eexists; reflexivity.
    + intros [x Hx].
      destruct (decide (k = "b"%string)) as [->|Hb]; [left; reflexivity|].
      destruct (decide (k = "a"%string)) as [->|Ha]; [right; left; reflexivity|].
      rewrite lookup_insert_ne, lookup_singleton_ne in Hx by congruence.
      discriminate.
Defined.

(** ** A failure in the middle of a run *)

(** The patch of a file depends on that file and on the records of
    its group only, whatever the disk does. *)
Lemma applyPathMatches_on_local d rt path g w1 w2 :
  files w1 !! path = files w2 !! path ->
  (forall k, k ∈ g -> records w1 !! k = records w2 !! k) ->
  fst (applyPathMatches_on d rt path g w1) = fst (applyPathMatches_on d rt path g w2) /\
  files (snd (applyPathMatches_on d rt path g w1)) !! path
  = files (snd (applyPathMatches_on d rt path g w2)) !! path.
Proof.
  intros Hf Hr. unfold applyPathMatches_on, ReadFile, Stat, WriteFile, stored.
  rewrite <- Hf. destruct (files w1 !! path) as [f|] eqn:E;
    [|simpl; split; congruence].
  destruct (applyLoop_agree rt g (Slice (contents f) (rt_read rt (contents f)))
              (records w1) (records w2) Hr) as [Hfst _].
  destruct (applyLoop rt _ g (records w1)) as [r1 h1].
  destruct (applyLoop rt _ g (records w2)) as [r2 h2].
  simpl in Hfst. subst r2.
  destruct r1 as [data'| |]; [|simpl; split; congruence..].
  destruct (d path); simpl; rewrite ?lookup_insert_eq; split; congruence.
Qed.

Lemma applyPathMatches_on_frame d rt path g w :
  (forall p, p <> path ->
     files (snd (applyPathMatches_on d rt path g w)) !! p = files w !! p) /\
  (forall k, k ∉ g ->
     records (snd (applyPathMatches_on d rt path g w)) !! k = records w !! k).
Proof.
  unfold applyPathMatches_on, ReadFile, Stat, WriteFile, stored.
  destruct (files w !! path) as [f|] eqn:E; [|simpl; auto].
  pose proof (applyLoop_frame rt g (Slice (contents f) (rt_read rt (contents f)))
                (records w)) as Hfr.
  destruct (applyLoop rt _ g (records w)) as [r h']. simpl in Hfr.
  destruct r as [data'| |]; [|simpl; split; auto..].
  destruct (d path); simpl; split; auto;
    intros p Hp; apply lookup_insert_ne; congruence.
Qed.

(** The loop returns no error: it ends well or it panics. *)
Lemma splice_no_error rt data m e : splice rt data m <> Err e.
Proof.
  unfold splice, slice_to, slice_from.
  destruct ((0 <=? Pos m) && (Pos m <=? cap data)); [|discriminate]. cbn [res_bind].
  destruct ((0 <=? int_add (Pos m) (Len m)) && (int_add (Pos m) (Len m) <=? len data));
    discriminate.
Qed.

Lemma shiftLater_no_error m later : forall h e, fst (shiftLater m later h) <> Err e.
Proof.
  induction later as [|j later IH]; intros h e; cbn [shiftLater]; [discriminate|].
  destruct (h !! j) as [rj|]; [|discriminate].
  destruct (h !! m) as [rm|]; [|discriminate].
  destruct (Pos rj >=? Pos rm); apply IH.
Qed.

Lemma applyLoop_no_error rt g : forall data h e, fst (applyLoop rt data g h) <> Err e.
Proof.
  induction g as [|m later IH]; intros data h e; cbn [applyLoop]; [discriminate|].
  destruct (h !! m) as [rm|]; [|discriminate].
  pose proof (splice_no_error rt data rm) as Hsp.
  destruct (splice rt data rm) as [data'|e'|]; [|contradiction (Hsp e'); reflexivity|discriminate].
  pose proof (shiftLater_no_error m later h) as Hsh.
  destruct (shiftLater m later h) as [[[]|e'|] h1]; cbn [fst] in *;
    [apply IH|contradiction (Hsh e'); reflexivity|discriminate].
Qed.

(** What a patch that fails leaves of the files: nothing is changed
    unless the write itself has failed after the file was opened, and
    then the file holds the part of the new contents that was
    written. *)
Lemma applyPathMatches_on_failure d rt path g w :
  fst (applyPathMatches_on d rt path g w) <> Ok tt ->
  (fst (applyPathMatches_on d rt path g w) <> Err (ErrWrite path) \/ d path = Refused ->
     files (snd (applyPathMatches_on d rt path g w)) = files w) /\
  (forall n, d path = Torn n ->
     fst (applyPathMatches_on d rt path g w) = Err (ErrWrite path) ->
     exists f data' h',
       files w !! path = Some f /\
       applyLoop rt (Slice (contents f) (rt_read rt (contents f))) g (records w)
       = (Ok data', h') /\
       files (snd (applyPathMatches_on d rt path g w))
       = <[path := File (take n (elems data')) (mode f)]> (files w)).
Proof.
  unfold applyPathMatches_on, ReadFile, Stat, WriteFile, stored.
  destruct (files w !! path) as [f|] eqn:E.
  2:{ simpl. intros _. split; [reflexivity|]. intros n _ H. discriminate. }
  pose proof (applyLoop_no_error rt g (Slice (contents f) (rt_read rt (contents f)))
                (records w)) as Hne.
  destruct (applyLoop rt _ g (records w)) as [[data'|e|] h'] eqn:Eloop.
  2:{ contradiction (Hne e). reflexivity. }
  2:{ simpl. intros _. split; [reflexivity|]. intros n _ H. discriminate. }
  destruct (d path) as [| |n] eqn:Ed; simpl.
  - intros H. contradiction H. reflexivity.
  - intros _. split; [reflexivity|]. intros n H. discriminate.
  - intros _. split.
    + intros [H|H]; [contradiction H; reflexivity|discriminate].
    + intros n' Hn' _. injection Hn' as <-. exists f, data', h'.
      split; [reflexivity|]. split; [exact Eloop|reflexivity].
Qed.

Lemma applyGroups_on_stops d rt (G : string -> list ptr) w0 path todo out :
  (forall p p' k, p <> p' -> k ∈ G p -> k ∉ G p') ->
  fst (applyPathMatches_on d rt path (G path) w0) = out -> out <> Ok tt ->
  forall done w, NoDup (done ++ path :: todo) ->
  (forall p, p ∈ done ++ path :: todo -> files w !! p = files w0 !! p) ->
  (forall p k, p ∈ done ++ path :: todo -> k ∈ G p -> records w !! k = records w0 !! k) ->
  (forall p, p ∈ done -> fst (applyPathMatches_on d rt p (G p) w0) = Ok tt) ->
  exists w',
    applyGroups_on d rt (done ++ path :: todo) (map G (done ++ path :: todo)) w = (out, w') /\
    (forall p, p ∈ done ++ [path] ->
       files w' !! p = files (snd (applyPathMatches_on d rt p (G p) w0)) !! p) /\
    (forall p, p ∉ done ++ [path] -> files w' !! p = files w !! p).
Proof.
  intros Hdisj Hout Hfail. induction done as [|p0 done IH]; intros w Hnd Hfiles Hrecs Hdone.
  - cbn [app map applyGroups_on] in *.
    destruct (applyPathMatches_on_local d rt path (G path) w w0) as [Hfst Hfile].
    { apply Hfiles. left. }
    { intros k Hk. apply (Hrecs path); [left|exact Hk]. }
    destruct (applyPathMatches_on_frame d rt path (G path) w) as [Hfr_files _].
    rewrite Hout in Hfst.
    destruct (applyPathMatches_on d rt path (G path) w) as [r w1].
    simpl in Hfst, Hfile, Hfr_files. subst r. exists w1. split.
    + destruct out as [[]| |]; [contradiction Hfail|..]; reflexivity.
    + split.
      * intros p Hp. apply list_elem_of_singleton in Hp as ->. exact Hfile.
      * intros p Hp. apply Hfr_files. intros ->. apply Hp. left.
  - cbn [app] in Hnd. apply NoDup_cons in Hnd as [Hp0_notin Hnd].
    destruct (applyPathMatches_on_local d rt p0 (G p0) w w0) as [Hfst Hfile].
    { apply Hfiles. left. }
    { intros k Hk. apply (Hrecs p0); [left|exact Hk]. }
    destruct (applyPathMatches_on_frame d rt p0 (G p0) w) as [Hfr_files Hfr_recs].
    rewrite (Hdone p0) in Hfst by left.
    cbn [app map applyGroups_on].
    destruct (applyPathMatches_on d rt p0 (G p0) w) as [r w1].
    simpl in Hfst, Hfile, Hfr_files, Hfr_recs. subst r.
    destruct (IH w1 Hnd) as (w' & Hrun & Hin & Hothers).
    { intros q Hq. rewrite Hfr_files; [apply Hfiles; right; exact Hq|].
      intros ->. contradiction. }
    { intros q k Hq Hk. rewrite Hfr_recs; [apply (Hrecs q); [right|]; assumption|].
      apply (Hdisj q p0); [|exact Hk]. intros ->. contradiction. }
    { intros q Hq. apply Hdone. right. exact Hq. }
    exists w'. split; [exact Hrun|]. split.
    + intros q Hq. cbn [app] in Hq. apply elem_of_cons in Hq as [->|Hq].
      * rewrite Hothers; [exact Hfile|]. intros Hd. apply Hp0_notin.
        apply elem_of_app in Hd as [Hd|Hd]; apply elem_of_app; [left; exact Hd|].
        right. apply list_elem_of_singleton in Hd as ->. left.
      * apply Hin. exact Hq.
    + intros q Hq. cbn [app] in Hq. apply not_elem_of_cons in Hq as [Hqd Hq].
      rewrite Hothers by exact Hq. apply Hfr_files. exact Hqd.
Qed.

(** X6. [ApplyMatches] stops at the first file whose patch fails and
    undoes nothing, whatever the disk does. When the files of [done]
    can be patched and the patch of [path], visited next, fails (the
    file cannot be read, a slice expression panics, or
    [ioutil.WriteFile] returns an error), the run ends with that
    failure; the files of [done] stay rewritten as their own patches
    leave them and the files still to visit, like every file without a
    record, are as they were. The file [path] is as it was when the
    failure comes before the write or the write is refused before the
    file is opened; when the write fails after the file was opened,
    the file is left truncated, holding the part of its new contents
    that was written. *)
Theorem ApplyMatches_no_rollback d rt done path todo matches w recs out :
  deref (records w) matches recs ->
  NoDup (done ++ path :: todo) ->
  let G := group (records w) matches in
  let alone := fun p => applyPathMatches_on d rt p (G p) w in
  (forall p, p ∈ done -> fst (alone p) = Ok tt) ->
  fst (alone path) = out -> out <> Ok tt ->
  exists w',
    ApplyMatches_on d rt (done ++ path :: todo) matches w = (out, w') /\
    (forall p, p ∈ done -> files w' !! p = files (snd (alone p)) !! p) /\
    (forall p, p ∉ done -> p <> path -> files w' !! p = files w !! p) /\
    (out <> Err (ErrWrite path) \/ d path = Refused ->
       files w' !! path = files w !! path) /\
    (forall n, d path = Torn n -> out = Err (ErrWrite path) ->
       exists f data' h',
         files w !! path = Some f /\
         applyLoop rt (Slice (contents f) (rt_read rt (contents f))) (G path) (records w)
         = (Ok data', h') /\
         files w' !! path = Some (File (take n (elems data')) (mode f))).
Proof.
  intros Hd Hnd G alone Hdone Hout Hfail.
  destruct (applyGroups_on_stops d rt G w path todo out
              (fun p p' k => group_disjoint (records w) matches p p' k) Hout Hfail
              done w Hnd) as (w' & Hrun & Hin & Hothers); auto.
  assert (Hpath : files w' !! path = files (snd (alone path)) !! path).
  { apply Hin. apply elem_of_app. right. left. }
  assert (Hne : fst (alone path) <> Ok tt) by (rewrite Hout; exact Hfail).
  destruct (applyPathMatches_on_failure d rt path (G path) w Hne) as [Hkeep Htorn].
  exists w'. split; [|split; [|split; [|split]]].
  - unfold ApplyMatches_on.
    rewrite (groupMatchesByPath_spec (records w) matches recs _ Hd). exact Hrun.
  - intros p Hp. apply Hin. apply elem_of_app. left. exact Hp.
  - intros p Hp Hpp. apply Hothers. intros H. apply elem_of_app in H as [H|H];
      [contradiction|]. apply list_elem_of_singleton in H. contradiction.
  - intros H. rewrite Hpath. fold (alone path) in Hkeep. rewrite Hkeep; [reflexivity|].
    rewrite Hout. exact H.
  - intros n Hn Ho. destruct (Htorn n Hn) as (f & data' & h' & Hf & Hloop & Hfiles).
    { fold (alone path). rewrite Hout. exact Ho. }
    exists f, data', h'. split; [exact Hf|]. split; [exact Hloop|].
    rewrite Hpath. fold (alone path) in Hfiles. rewrite Hfiles. apply lookup_insert_eq.
Qed.

Lemma ApplyMatches_no_rollback_witness :
  exists w',
    ApplyMatches_on disk_b rt0 ["a"%string; "b"%string] [0%nat; 1%nat; 2%nat]
      (World fs_ab recs_ab)
    = (Err (ErrWrite "b"), w') /\
    files w' !! "a"%string = Some (File (B "aaaYYbbbZccc") 420%N) /\
    files w' !! "b"%string = Some (File (B ">") 384%N).
Proof.
  destruct (ApplyMatches_no_rollback disk_b rt0 ["a"%string] "b" [] [0%nat; 1%nat; 2%nat]
              (World fs_ab recs_ab) recs_ab (Err (ErrWrite "b")))
    as (w' & Hrun & Hdone & _ & _ & Htorn).
  - apply (deref_seq recs_ab).
  - compute_done.
  - intros p Hp. apply list_elem_of_singleton in Hp as ->. vm_compute. reflexivity.
  - vm_compute. reflexivity.
  - discriminate.
  - exists w'. split; [exact Hrun|]. split.
    + rewrite (Hdone "a"%string) by (left). vm_compute. reflexivity.
    + destruct (Htorn 1%nat) as (f & data' & h' & Hf & Hloop & Hfile);
        [reflexivity|reflexivity|].
      rewrite Hfile. cbn [files] in Hf.
      assert (f = File (B "hello") 384%N) as ->.
      { unfold fs_ab in Hf. rewrite lookup_insert_ne, lookup_singleton_eq in Hf by discriminate.
        congruence. }
      vm_compute in Hloop. injection Hloop as <- _. reflexivity.
Defined.

(** ** One block and many *)

Lemma Unmarshal_error hdr e : json.Unmarshal hdr = Err e -> e = ErrJSON.
Proof.
  unfold json.Unmarshal. destruct (json.parse hdr) as [[]|]; try congruence.
  destruct (json.store _ _); congruence.
Qed.

(** The scan finds no block exactly when the pattern matches nowhere,
    and the first block it finds is the leftmost match. *)
Lemma FindAll_first s :
  match matchTextRegex.FindAll s with
  | [] => matchTextRegex.FindSubmatch s = None
  | buf :: _ =>
      exists hdr body, matchTextRegex.FindSubmatch s = Some (hdr, body) /\
                       matchTextRegex.FindSubmatch buf = Some (hdr, body)
  end.
Proof.
  induction s as [|c t IH].
  - reflexivity.
  - rewrite FindSubmatch_unfold.
    destruct (matchTextRegex.match_here (c :: t)) as [[[hdr body] rest]|] eqn:E.
    + rewrite (FindAll_blocks_match _ _ _ _ E). exists hdr, body.
      split; [reflexivity|].
      destruct (match_here_Some _ _ _ _ E) as (_ & Hne & Hnl & Hocc).
      rewrite <- (app_nil_r (block hdr body)).
      apply FindSubmatch_block; assumption.
    + rewrite (FindAll_blocks_skip c t E). exact IH.
Qed.

(** X7. [UnmarshalText] and [ParseMatches] read the same text alike:
    the former reports the missing tags exactly when the latter finds
    no block, in which case [ParseMatches] returns no record and no
    error; and when [ParseMatches] returns records, [UnmarshalText] of
    the whole text gives the first of them, the text before the first
    block and everything after it being ignored. *)
Theorem UnmarshalText_agrees_with_ParseMatches data :
  (UnmarshalText data = Err ErrMissingTags <-> ParseMatches data = Ok []) /\
  (forall m ms, ParseMatches data = Ok (m :: ms) -> UnmarshalText data = Ok m).
Proof.
  pose proof (FindAll_first data) as Hfirst. unfold ParseMatches.
  destruct (matchTextRegex.FindAll data) as [|buf bufs].
  - unfold UnmarshalText at 1 2. rewrite Hfirst. split.
    + split; reflexivity.
    + intros m ms H. discriminate.
  - destruct Hfirst as (hdr & body & Hdata & Hbuf).
    cbn [parseBlocks].
    rewrite (UnmarshalText_found data hdr body Hdata).
    rewrite (UnmarshalText_found buf hdr body Hbuf).
    destruct (json.Unmarshal hdr) as [h|e|] eqn:Eh; cbn [res_bind].
    + split.
      * split; [discriminate|].
        destruct (parseBlocks bufs); discriminate.
      * intros m ms H. destruct (parseBlocks bufs); [|discriminate..].
        cbn [res_bind] in H. congruence.
    + split.
      * split; [|discriminate]. intros H. injection H as ->.
        apply Unmarshal_error in Eh. discriminate.
      * intros m ms H. discriminate.
    + split.
      * split; discriminate.
      * intros m ms H. discriminate.
Qed.

(** ** The editor command *)

Lemma Split_from_spec sep : forall s cur,
  sep ∉ cur ->
  exists x rest,
    strings.Split_from cur s sep = x :: rest /\
    strings.Join (x :: rest) sep = cur ++ s /\
    Forall (fun a => sep ∉ a) (x :: rest).
Proof.
  induction s as [|c t IH]; intros cur Hcur.
  - exists cur, []. cbn [strings.Split_from strings.Join]. rewrite app_nil_r.
    split; [reflexivity|]. split; [reflexivity|].
    apply Forall_cons_2; [exact Hcur|apply Forall_nil_2].
  - cbn [strings.Split_from]. destruct (Ascii.eqb c sep) eqn:E.
    + apply Ascii.eqb_eq in E. subst c.
      destruct (IH []) as (x & rest & Hsplit & Hjoin & Hall); [apply not_elem_of_nil|].
      exists cur, (x :: rest). rewrite Hsplit. split; [reflexivity|]. split.
      * change (strings.Join (cur :: x :: rest) sep)
          with (cur ++ sep :: strings.Join (x :: rest) sep).
        rewrite Hjoin. reflexivity.
      * apply Forall_cons_2; assumption.
    + apply Ascii.eqb_neq in E.
      destruct (IH (cur ++ [c])) as (x & rest & Hsplit & Hjoin & Hall).
      { rewrite elem_of_app, list_elem_of_singleton. intros [H| ->]; [auto|congruence]. }
      exists x, rest. split; [exact Hsplit|]. split; [|exact Hall].
      rewrite Hjoin, <- app_assoc. reflexivity.
Qed.

(** X8. [parseEditor] never panics: for every setting of the editor
    variable, the empty one included, it returns a command and its
    arguments. They are the pieces of the setting between its spaces:
    joined by single spaces they give the setting back, and none of
    them holds a space, so that no quoting can keep a space inside an
    argument, and two spaces in a row give an empty argument. *)
Theorem parseEditor_splits_at_spaces s :
  exists cmd args,
    parseEditor s = Ok (cmd, args) /\
    strings.Join (map B (cmd :: args)) " " = B s /\
    Forall (fun a => " "%char ∉ B a) (cmd :: args).
Proof.
  destruct (Split_from_spec " " (B s) []) as (x & rest & Hsplit & Hjoin & Hall);
    [apply not_elem_of_nil|].
  exists (string_of_list_ascii x), (map string_of_list_ascii rest).
  unfold parseEditor, strings.Split. rewrite Hsplit.
  assert (Hback : map B (string_of_list_ascii x :: map string_of_list_ascii rest)
                  = x :: rest).
  { cbn [map]. unfold B at 1. rewrite list_ascii_of_string_of_list_ascii. f_equal.
    rewrite map_map. rewrite <- (map_id rest) at 2. apply map_ext. intros a.
    unfold B. apply list_ascii_of_string_of_list_ascii. }
  split; [reflexivity|]. split.
  - rewrite Hback. exact Hjoin.
  - rewrite <- Hback in Hall.
    apply Forall_forall. intros a Ha.
    apply (proj1 (Forall_forall _ _) Hall (B a)).
    apply (list_elem_of_fmap_2 B). exact Ha.
Qed.

(** ** The run *)

Lemma parseEditor_total s : exists cmd args, parseEditor s = Ok (cmd, args).
Proof.
  destruct (Split_from_spec " " (B s) []) as (x & rest & Hsplit & _);
    [apply not_elem_of_nil|].
  unfold parseEditor, strings.Split. rewrite Hsplit. eauto.
Qed.

Lemma writeBlocks_text name ms : forall fs pre md text,
  fs !! name = Some (File pre md) ->
  writeTempMatchFile ms = Ok text ->
  writeBlocks name ms fs = (Ok tt, <[name := File (pre ++ text) md]> fs).
Proof.
  induction ms as [|m rest IH]; intros fs pre md text Hfs Htext.
  - injection Htext as <-. rewrite app_nil_r. cbn [writeBlocks].
    rewrite insert_id by exact Hfs. reflexivity.
  - cbn [writeTempMatchFile writeBlocks] in *.
    destruct (MarshalText m) as [buf| |]; [|discriminate..]. cbn [res_bind] in Htext.
    destruct (writeTempMatchFile rest) as [more| |]; [|discriminate..].
    cbn [res_bind] in Htext. injection Htext as <-.
    unfold file_write at 2. rewrite Hfs. cbn [contents mode].
    unfold file_write. rewrite lookup_insert_eq. cbn [contents mode].
    rewrite insert_insert_eq.
    rewrite (IH _ ((pre ++ buf) ++ [LF]) md more); [|apply lookup_insert_eq|reflexivity].
    rewrite insert_insert_eq, <- !app_assoc. reflexivity.
Qed.

Lemma createTempMatchFile_text name ms fs text :
  writeTempMatchFile ms = Ok text ->
  createTempMatchFile name ms fs = (Ok tt, <[name := File text 384%N]> fs).
Proof.
  intros Htext. unfold createTempMatchFile.
  rewrite (writeBlocks_text name ms _ [] 384%N text); [|apply lookup_insert_eq|exact Htext].
  rewrite insert_insert_eq. reflexivity.
Qed.

Lemma Run_scanned rt iter env fl fs pattern re paths :
  scans env fl fs pattern re paths ->
  dryRun fl = true \/ editor_of env <> ""%string ->
  Run rt iter env fl fs =
  let matches := concat (map (found re fs) paths) in
  if dryRun fl then (Returned None, fs, concat (map printed matches))
  else editAndApply rt iter env (editor_of env) matches fs.
Proof.
  intros (Hpat & Hterm & Hpaths & Hre & Hscan) Hed. unfold Run.
  destruct (Args fl) as [|pat args] eqn:Eargs; [discriminate|].
  cbn [head] in Hpat. injection Hpat as ->. cbn [tail length] in *.
  assert (is_terminal (stdin env) && (S (length args) =? 1)%nat = false) as ->.
  { destruct (stdin env); try reflexivity. destruct args; [|reflexivity].
    contradiction Hterm; reflexivity. }
  assert (String.eqb (editor_of env) "" && negb (dryRun fl) = false) as ->.
  { destruct Hed as [-> | Hne]; [apply andb_false_r|].
    apply String.eqb_neq in Hne. rewrite Hne. reflexivity. }
  rewrite Hpaths, Hre, (FindAllIndexPaths_found rt re fs paths Hscan). reflexivity.
Qed.

(** X9. A dry run writes to no file: however the call ends, whatever
    the standard input, the pattern and the files are, the file system
    is left as it was, and no editor need be set. When the scan can
    read every file the call returns no error and has printed, for
    every record in scan order, its path, a colon and a space, the
    matched text and a newline. *)
Theorem Run_dry_run rt iter env fl fs :
  dryRun fl = true ->
  snd (fst (Run rt iter env fl fs)) = fs /\
  forall pattern re paths,
    scans env fl fs pattern re paths ->
    Run rt iter env fl fs
    = (Returned None, fs, concat (map printed (concat (map (found re fs) paths)))).
Proof.
  intros Hdry. split.
  - unfold Run. rewrite Hdry. repeat case_match; reflexivity.
  - intros pattern re paths Hscans.
    rewrite (Run_scanned rt iter env fl fs pattern re paths Hscans) by (left; exact Hdry).
    cbn zeta. rewrite Hdry. reflexivity.
Qed.

Lemma Run_dry_run_witness :
  Run rt0 [] (env_of (types [])) (Flags true false ["X"%string; "f"%string]) fs_X
  = (Returned None, fs_X, B "f: X" ++ LF :: B "f: X" ++ [LF]).
Proof.
  destruct (Run_dry_run rt0 [] (env_of (types []))
              (Flags true false ["X"%string; "f"%string]) fs_X) as [_ Hprints];
    [reflexivity|].
  rewrite (Hprints "X"%string (re_byte "X") ["f"%string]).
  - vm_compute. reflexivity.
  - split; [reflexivity|]. split; [discriminate|]. split; [reflexivity|].
    split; [reflexivity|].
    apply Forall_cons_2; [|apply Forall_nil_2].
    exists (File (B "aaaXbbbXccc") 420%N). split; [reflexivity|].
    split; [vm_compute; discriminate|]. unfold spans_ok. vm_compute.
    repeat constructor; discriminate.
Defined.

(** X10. Paths are read from the standard input whenever it is not a
    terminal, and a standard input that holds white space only, or
    nothing, yields one path, the empty one. The run then fails on it
    after the scan of the files named on the command line: with a
    standard input that is not a terminal and names no file, bed edits
    nothing and reports that the file with the empty name does not
    exist. *)
Theorem Run_blank_stdin rt iter env fl fs pattern paths re buf :
  Args fl = pattern :: paths ->
  stdin env = Piped buf ->
  strings.TrimSpace buf = [] ->
  dryRun fl = true \/ editor_of env <> ""%string ->
  Compile env pattern = Some re ->
  Forall (scannable re fs) paths ->
  fs !! ""%string = None ->
  Run rt iter env fl fs = (Returned (Some (ErrOf (ErrNotExist ""))), fs, []).
Proof.
  intros Hargs Hin Hblank Hed Hre Hscan Hnone. unfold Run.
  rewrite Hargs. cbn [length]. rewrite Hin. cbn [is_terminal andb].
  assert (String.eqb (editor_of env) "" && negb (dryRun fl) = false) as ->.
  { destruct Hed as [-> | Hne]; [apply andb_false_r|].
    apply String.eqb_neq in Hne. rewrite Hne. reflexivity. }
  unfold paths_of. rewrite Hin, Hargs, Hblank. cbn [tail].
  rewrite Hre.
  change (map string_of_list_ascii (strings.Split [] LF)) with [""%string].
  rewrite FindAllIndexPaths_app, (FindAllIndexPaths_found rt re fs paths Hscan).
  cbn [res_bind FindAllIndexPaths]. unfold FindAllIndexPath, ReadFile.
  rewrite Hnone. reflexivity.
Qed.

Lemma Run_blank_stdin_witness :
  Run rt0 []
    (Environment (Piped [" "%char; LF]) "" "vi"
       (fun _ => Some (re_byte "X")) (Some "/tmp/bed-1"%string) (types []))
    (Flags false false ["X"%string; "f"%string]) fs_X
  = (Returned (Some (ErrOf (ErrNotExist ""))), fs_X, []).
Proof.
  apply (Run_blank_stdin rt0 [] _ _ fs_X "X" ["f"%string] (re_byte "X") [" "%char; LF]).
  - reflexivity.
  - reflexivity.
  - vm_compute. reflexivity.
  - right. discriminate.
  - reflexivity.
  - apply Forall_cons_2; [|apply Forall_nil_2].
    exists (File (B "aaaXbbbXccc") 420%N). split; [reflexivity|].
    split; [vm_compute; discriminate|]. unfold spans_ok. vm_compute.
    repeat constructor; discriminate.
  - reflexivity.
Defined.

(** *** The records of a scan *)

Lemma filter_all {A} (P : A -> Prop) `{forall x, Decision (P x)} (l : list A) :
  Forall P l -> filter P l = l.
Proof.
  induction 1 as [|x l Hx _ IH]; [reflexivity|].
  rewrite filter_cons_True by exact Hx. rewrite IH. reflexivity.
Qed.

Lemma filter_none {A} (P : A -> Prop) `{forall x, Decision (P x)} (l : list A) :
  Forall (fun x => ~ P x) l -> filter P l = [].
Proof.
  induction 1 as [|x l Hx _ IH]; [reflexivity|].
  rewrite filter_cons_False by exact Hx. exact IH.
Qed.

Lemma filter_found_same re fs path :
  filter (fun m => Path m = path) (found re fs path) = found re fs path.
Proof.
  apply filter_all. apply Forall_forall. intros m Hm.
  apply (found_Path re fs path m Hm).
Qed.

Lemma filter_found_other re fs path q :
  q <> path -> filter (fun m => Path m = path) (found re fs q) = [].
Proof.
  intros Hne. apply filter_none. apply Forall_forall. intros m Hm.
  rewrite (found_Path re fs q m Hm). exact Hne.
Qed.

(** With every path given once, the records of a file are those the
    scan has made of it. *)
Lemma filter_scanned re fs path : forall paths,
  NoDup paths -> path ∈ paths ->
  filter (fun m => Path m = path) (concat (map (found re fs) paths)) = found re fs path.
Proof.
  induction paths as [|q paths IH]; intros Hnd Hin; [inversion Hin|].
  apply NoDup_cons in Hnd as [Hq Hnd]. cbn [map concat]. rewrite filter_app.
  destruct (decide (q = path)) as [->|Hne].
  - rewrite filter_found_same.
    rewrite (filter_none _ (concat _)); [apply app_nil_r|].
    apply Forall_forall. intros m Hm. apply scanned_elem in Hm as [Hm _].
    intros Heq. rewrite Heq in Hm. contradiction.
  - rewrite (filter_found_other re fs path q Hne). cbn [app].
    apply elem_of_cons in Hin as [Heq|Hin]; [congruence|]. apply IH; assumption.
Qed.

(** *** The groups of a fresh slice of records *)

Lemma deref_group_from path (l : list Match) : forall pre,
  deref (pre ++ l)
    (filter (fun k => Path <$> (pre ++ l) !! k = Some path) (seq (length pre) (length l)))
    (filter (fun m => Path m = path) l).
Proof.
  induction l as [|r l IH]; intros pre; [constructor|].
  specialize (IH (pre ++ [r])). rewrite <- app_assoc, length_app in IH.
  cbn [app length] in IH. rewrite Nat.add_1_r in IH.
  cbn [length seq].
  assert (Hr : (pre ++ r :: l) !! length pre = Some r).
  { rewrite lookup_app_r by lia. rewrite Nat.sub_diag. reflexivity. }
  destruct (decide (Path r = path)) as [Hp|Hp].
  - rewrite filter_cons_True by (rewrite Hr; cbn; congruence).
    rewrite (filter_cons_True _ r) by exact Hp.
    constructor; [exact Hr|exact IH].
  - rewrite filter_cons_False by (rewrite Hr; cbn; congruence).
    rewrite (filter_cons_False _ r) by exact Hp. exact IH.
Qed.

Lemma deref_group path (ms : list Match) :
  deref ms (group ms (seq 0 (length ms)) path) (filter (fun m => Path m = path) ms).
Proof. exact (deref_group_from path ms []). Qed.

(** [ApplyMatches] on the records decoded from the temporary file, when
    the patch of every file visited is in bounds. *)
Lemma ApplyMatches_each rt iter ms fs1 :
  NoDup iter ->
  (forall p, p ∈ iter -> exists f c, fs1 !! p = Some f /\
     patch (contents f) (filter (fun m => Path m = p) ms) = Some c) ->
  exists w',
    ApplyMatches rt iter (seq 0 (length ms)) (World fs1 ms) = (Ok tt, w') /\
    (forall p f c, p ∈ iter -> fs1 !! p = Some f ->
       patch (contents f) (filter (fun m => Path m = p) ms) = Some c ->
       files w' !! p = Some (File c (mode f))) /\
    (forall p, p ∉ iter -> files w' !! p = fs1 !! p).
Proof.
  intros Hnd Hall. set (w := World fs1 ms).
  set (G := group ms (seq 0 (length ms))).
  assert (Halone : forall p f c, p ∈ iter -> fs1 !! p = Some f ->
            patch (contents f) (filter (fun m => Path m = p) ms) = Some c ->
            fst (applyPathMatches rt p (G p) w) = Ok tt /\
            files (snd (applyPathMatches rt p (G p) w)) !! p = Some (File c (mode f))).
  { intros p f c Hp Hf Hc.
    destruct (applyPathMatches_patch rt p (G p) w f
                (filter (fun m => Path m = p) ms) c) as (h' & Hrun & _).
    - exact Hf.
    - unfold G, group. apply NoDup_filter. apply NoDup_seq.
    - apply deref_group.
    - exact Hc.
    - rewrite Hrun. cbn [fst snd files]. split; [reflexivity|]. apply lookup_insert_eq. }
  destruct (applyGroups_independent rt G w
              (fun p p' k => group_disjoint ms (seq 0 (length ms)) p p' k)
              iter w Hnd) as [Ha _]; [reflexivity|reflexivity|].
  destruct Ha as (w' & Hrun & Hin & Hout).
  { intros p Hp. destruct (Hall p Hp) as (f & c & Hf & Hc).
    apply (Halone p f c Hp Hf Hc). }
  exists w'. split; [|split].
  - rewrite ApplyMatches_unfold. subst w. cbn [records].
    rewrite (groupMatchesByPath_spec ms (seq 0 (length ms)) ms iter (deref_seq ms)).
    exact Hrun.
  - intros p f c Hp Hf Hc. rewrite (Hin p Hp). apply (Halone p f c Hp Hf Hc).
  - intros p Hp. rewrite (Hout p Hp). reflexivity.
Qed.

(** *** From the temporary file to the files *)

Lemma editAndApply_patches rt iter env editor ms fs tmp text ms' text' md :
  TempFile env = Some tmp -> fs !! tmp = None ->
  writeTempMatchFile ms = Ok text ->
  (forall cmd args, Command env cmd (args ++ [tmp]) (<[tmp := File text 384%N]> fs)
                    = (true, <[tmp := File text' md]> fs)) ->
  ParseMatches text' = Ok ms' ->
  NoDup iter ->
  (forall p, p ∈ iter -> exists f c, fs !! p = Some f /\
     patch (contents f) (filter (fun m => Path m = p) ms') = Some c) ->
  exists fs',
    editAndApply rt iter env editor ms fs = (Returned None, fs', []) /\
    (forall p f c, p ∈ iter -> fs !! p = Some f ->
       patch (contents f) (filter (fun m => Path m = p) ms') = Some c ->
       fs' !! p = Some (File c (mode f))) /\
    (forall p, p ∉ iter -> fs' !! p = fs !! p).
Proof.
  intros Htmp Hfresh Htext Hcmd Hparse Hnd Hall.
  assert (Hne : forall p f, fs !! p = Some f -> tmp <> p).
  { intros p f Hf ->. congruence. }
  destruct (ApplyMatches_each rt iter ms' (<[tmp := File text' md]> fs) Hnd)
    as (w' & Hrun & Hin & Hout).
  { intros p Hp. destruct (Hall p Hp) as (f & c & Hf & Hc). exists f, c.
    split; [|exact Hc]. rewrite lookup_insert_ne by exact (Hne p f Hf). exact Hf. }
  exists (delete tmp (files w')). split; [|split].
  - unfold editAndApply. rewrite Htmp, (createTempMatchFile_text tmp ms fs text Htext).
    destruct (parseEditor_total editor) as (cmd & args & ->).
    rewrite Hcmd. unfold ReadFile. rewrite lookup_insert_eq. cbn [elems contents].
    rewrite Hparse, Hrun. reflexivity.
  - intros p f c Hp Hf Hc. rewrite lookup_delete_ne by exact (Hne p f Hf).
    apply (Hin p f c Hp); [|exact Hc].
    rewrite lookup_insert_ne by exact (Hne p f Hf). exact Hf.
  - intros p Hp. destruct (decide (tmp = p)) as [<-|Hp'].
    + rewrite lookup_delete_eq. symmetry. exact Hfresh.
    + rewrite lookup_delete_ne by exact Hp'. rewrite (Hout p Hp).
      apply lookup_insert_ne. exact Hp'.
Qed.

Lemma edited_survives re fs paths e m :
  Forall (scannable re fs) paths ->
  Forall (fun p => valid_utf8 (B p)) paths ->
  m ∈ concat (map (found re fs) paths) ->
  header_survives (edited e m).
Proof.
  intros Hscan Hutf Hm. apply scanned_elem in Hm as [Hp Hm].
  destruct (found_spec re fs (Path m) m) as (f & se & Hf & Hmax & Heq & H0 & H1 & H2);
    [apply (proj1 (Forall_forall _ _) Hscan _ Hp)|exact Hm|].
  unfold header_survives.
  apply (Unmarshal_Marshal (header_of (edited e m))); cbn.
  - apply (proj1 (Forall_forall _ _) Hutf _ Hp).
  - rewrite Heq. cbn. unfold is_int, int_min, int_max in *. lia.
  - rewrite Heq. cbn. unfold is_int, int_min, int_max in *. lia.
Qed.





(** *** Edited bodies *)

Lemma elem_of_concat_2 {A} (x : A) (l : list A) (ls : list (list A)) :
  x ∈ l -> l ∈ ls -> x ∈ concat ls.
Proof.
  intros Hx Hl. induction ls as [|l' ls IH]; [inversion Hl|].
  cbn [concat]. apply elem_of_app. apply elem_of_cons in Hl as [->|Hl]; auto.
Qed.

Lemma writeTempMatchFile_total ms : exists text, writeTempMatchFile ms = Ok text.
Proof.
  induction ms as [|m rest [more Hmore]]; [exists []; reflexivity|].
  destruct (Marshal_header (header_of m)) as (hdr & Hmar & _).
  cbn [writeTempMatchFile]. rewrite (MarshalText_block m hdr Hmar), Hmore.
  cbn [res_bind]. eauto.
Qed.

Lemma filter_edited e path (ms : list Match) :
  filter (fun m => Path m = path) (map (edited e) ms)
  = map (edited e) (filter (fun m => Path m = path) ms).
Proof.
  induction ms as [|m ms IH]; [reflexivity|]. cbn [map].
  destruct (decide (Path m = path)) as [Hp|Hp].
  - rewrite !filter_cons_True by exact Hp. cbn [map]. rewrite IH. reflexivity.
  - rewrite !filter_cons_False by exact Hp. exact IH.
Qed.

Lemma ascending_match_of path content : forall a from,
  from <= blen content ->
  spans_ok content a -> spans_ascending from a ->
  ascending from (blen content) (map (match_of path content) a).
Proof.
  induction a as [|se a IH]; intros from Hfrom Hok Hasc; [exact Hfrom|].
  apply Forall_cons in Hok as [(H0 & H1 & H2) Hok]. destruct Hasc as [Hle Hasc].
  cbn [map ascending match_of Pos Len].
  replace (fst se + (snd se - fst se)) with (snd se) by lia.
  split; [exact Hle|]. split; [lia|]. apply IH; assumption.
Qed.

Lemma ascending_edited e ms : forall from limit,
  ascending from limit ms -> ascending from limit (map (edited e) ms).
Proof.
  induction ms as [|m rest IH]; intros from limit H; [exact H|].
  destruct H as (H1 & H2 & H3). cbn [map ascending edited Pos Len].
  split; [exact H1|]. split; [exact H2|]. apply IH. exact H3.
Qed.

(** Records left out of an ascending list leave it ascending. *)
Lemma ascending_filter (P : Match -> Prop) `{forall m, Decision (P m)} ms :
  forall from limit,
  ascending from limit ms -> ascending from limit (filter P ms).
Proof.
  induction ms as [|m rest IH]; intros from limit Hasc; [exact Hasc|].
  destruct Hasc as (H1 & H2 & H3).
  destruct (decide (P m)) as [Hm|Hm].
  - rewrite filter_cons_True by exact Hm. cbn [ascending].
    split; [exact H1|]. split; [exact H2|]. apply IH. exact H3.
  - rewrite filter_cons_False by exact Hm.
    apply (ascending_weaken _ (Pos m + Len m)); [lia|]. apply IH. exact H3.
Qed.

Lemma filter_filter_comm {A} (P Q : A -> Prop) `{forall x, Decision (P x)}
  `{forall x, Decision (Q x)} (l : list A) :
  filter P (filter Q l) = filter Q (filter P l).
Proof.
  rewrite !list_filter_filter. apply list_filter_iff. intros x. tauto.
Qed.

(** X12. What the user types replaces what was matched, and a block
    the user deletes leaves its match alone. When every path is given
    once and is valid UTF-8, the scan can read every file and finds
    the matches of each in ascending order, the temporary file is a
    new file, and the editor exits with code 0 having changed nothing
    but the temporary file, in which it leaves the blocks it has kept
    of those it found there, in their order, each with the body [e]
    the user has given it (no body holding a newline followed by
    [#bed:end], the headers untouched), and the contents so edited fit
    Go's [int], then the run returns no error, and every file scanned
    holds its old contents with each match whose block was kept
    replaced by the body of that block, the other matches and the
    text between the matches kept whatever the lengths of the bodies
    are, and its mode kept. No other file is changed and the temporary
    file is gone. This holds for every order in which Go ranges over
    the paths of the records. *)
Theorem Run_edits rt iter env fl fs pattern re paths tmp (keep : Match -> bool) e text' :
  scans env fl fs pattern re paths ->
  dryRun fl = false ->
  editor_of env <> ""%string ->
  TempFile env = Some tmp ->
  fs !! tmp = None ->
  NoDup paths ->
  Forall (in_order re fs) paths ->
  Forall (fun p => valid_utf8 (B p)) paths ->
  let kept := fun ms => map (edited e) (filter (fun m => keep m = true) ms) in
  Forall (fun m => occurs matchTextRegex.end_tag (Data m) = false)
         (kept (concat (map (found re fs) paths))) ->
  writeTempMatchFile (kept (concat (map (found re fs) paths))) = Ok text' ->
  (forall cmd args text,
     Command env cmd (args ++ [tmp]) (<[tmp := File text 384%N]> fs)
     = (true, <[tmp := File text' 384%N]> fs)) ->
  (forall p f, p ∈ paths -> fs !! p = Some f ->
     blen (contents f) + data_size (kept (found re fs p)) <= int_max) ->
  visits iter (kept (concat (map (found re fs) paths))) ->
  exists fs',
    Run rt iter env fl fs = (Returned None, fs', []) /\
    (forall p f, p ∈ paths -> fs !! p = Some f ->
       fs' !! p = Some (File (replaced 0 (contents f) (kept (found re fs p))) (mode f))) /\
    (forall p, p ∉ paths -> fs' !! p = fs !! p).
Proof.
  intros Hscans Hdry Hed Htmp Hfresh Hnd Hord Hutf kept Hocc Htext' Hcmd Hsize Hvisits.
  rewrite (Run_scanned rt iter env fl fs pattern re paths Hscans) by (right; exact Hed).
  cbn zeta. rewrite Hdry.
  destruct Hscans as (_ & _ & _ & _ & Hscan).
  set (ms := concat (map (found re fs) paths)) in *.
  assert (Hkept : forall l m', m' ∈ kept l -> exists m, m' = edited e m /\ m ∈ l).
  { intros l m' Hm'. apply list_elem_of_fmap in Hm' as (m & -> & Hm).
    apply list_elem_of_filter in Hm as [_ Hm]. eauto. }
  destruct (writeTempMatchFile_total ms) as [text Htext].
  destruct (decode_encode_of_survivors (kept ms)) as (text'' & Htext'' & Hparse).
  { apply Forall_forall. intros m' Hm'. split.
    - apply (proj1 (Forall_forall _ _) Hocc m' Hm').
    - destruct (Hkept ms m' Hm') as (m & -> & Hm).
      apply (edited_survives re fs paths e m Hscan Hutf Hm). }
  assert (text'' = text') as -> by congruence.
  assert (Hgroup : forall p, p ∈ paths ->
            filter (fun m => Path m = p) (kept ms) = kept (found re fs p)).
  { intros p Hp. unfold kept. rewrite filter_edited. f_equal.
    rewrite filter_filter_comm. f_equal.
    apply (filter_scanned re fs p paths Hnd Hp). }
  assert (Hpatch : forall p f, p ∈ paths -> fs !! p = Some f ->
            patch (contents f) (filter (fun m => Path m = p) (kept ms))
            = Some (replaced 0 (contents f) (kept (found re fs p)))).
  { intros p f Hp Hf. rewrite (Hgroup p Hp).
    apply patch_replaced; [|apply (Hsize p f Hp Hf)].
    destruct (proj1 (Forall_forall _ _) Hscan p Hp) as (f' & Hf' & _ & Hok).
    assert (f' = f) as -> by congruence.
    unfold kept, found. rewrite Hf.
    apply ascending_edited, ascending_filter.
    apply ascending_match_of; [apply blen_nonneg|exact Hok|].
    apply (proj1 (Forall_forall _ _) Hord p Hp f Hf). }
  assert (Hiter : forall p, p ∈ iter ->
            p ∈ paths /\ (exists f, fs !! p = Some f) /\ kept (found re fs p) <> []).
  { intros p Hp. apply Hvisits in Hp.
    apply list_elem_of_fmap in Hp as (m' & -> & Hm').
    destruct (Hkept ms m' Hm') as (m & Heq & Hm).
    apply scanned_elem in Hm as [Hpaths Hm].
    assert (HP : Path m' = Path m) by (rewrite Heq; reflexivity).
    rewrite HP. split; [exact Hpaths|]. split.
    - destruct (found_spec re fs (Path m) m) as (f & _ & Hf & _);
        [apply (proj1 (Forall_forall _ _) Hscan _ Hpaths)|exact Hm|]. eauto.
    - rewrite <- (Hgroup (Path m) Hpaths). intros Hnil.
      assert (Hin : m' ∈ filter (fun r => Path r = Path m) (kept ms))
        by (apply list_elem_of_filter; split; assumption).
      rewrite Hnil in Hin. inversion Hin. }
  destruct (editAndApply_patches rt iter env (editor_of env) ms fs tmp text
              (kept ms) text' 384%N Htmp Hfresh Htext)
    as (fs' & Hrun & Hin & Hout).
  { intros cmd args. apply Hcmd. }
  { exact Hparse. }
  { apply Hvisits. }
  { intros p Hp. destruct (Hiter p Hp) as (Hpaths & [f Hf] & _).
    exists f, (replaced 0 (contents f) (kept (found re fs p))).
    split; [exact Hf|]. apply (Hpatch p f Hpaths Hf). }
  exists fs'. split; [exact Hrun|]. split.
  - intros p f Hp Hf. destruct (decide (p ∈ iter)) as [Hi|Hi].
    + apply (Hin p f _ Hi Hf (Hpatch p f Hp Hf)).
    + rewrite (Hout p Hi), Hf.
      assert (kept (found re fs p) = []) as ->.
      { destruct (kept (found re fs p)) as [|m' l] eqn:E; [reflexivity|].
        contradiction Hi. apply Hvisits. apply list_elem_of_fmap.
        assert (Hm' : m' ∈ filter (fun r => Path r = p) (kept ms))
          by (rewrite (Hgroup p Hp), E; left).
        apply list_elem_of_filter in Hm' as [HP Hm'].
        exists m'. split; [symmetry; exact HP|exact Hm']. }
      cbn [replaced]. change (Z.to_nat 0) with 0%nat. rewrite drop_0.
      destruct f. reflexivity.
  - intros p Hp. apply Hout. intros Hi. destruct (Hiter p Hi) as (Hpaths & _).
    contradiction.
Qed.

Lemma Run_edits_witness :
  exists fs',
    Run rt0 ["f"%string] (env_of (types two_X_text))
      (Flags false false ["X"%string; "f"%string]) fs_X
    = (Returned None, fs', []) /\
    fs' !! "f"%string = Some (File (B "aaaYYbbbZccc") 420%N) /\
    fs' !! "/tmp/bed-1"%string = None.
Proof.
  destruct (Run_edits rt0 ["f"%string] (env_of (types two_X_text))
              (Flags false false ["X"%string; "f"%string]) fs_X "X" (re_byte "X")
              ["f"%string] "/tmp/bed-1" (fun _ => true)
              (fun m => if Pos m =? 3 then B "YY" else B "Z") two_X_text)
    as (fs' & Hrun & Hin & Hout).
  - split; [reflexivity|]. split; [discriminate|]. split; [reflexivity|].
    split; [reflexivity|].
    apply Forall_cons_2; [|apply Forall_nil_2].
    exists (File (B "aaaXbbbXccc") 420%N). split; [reflexivity|].
    split; [vm_compute; discriminate|]. unfold spans_ok. vm_compute.
    repeat constructor; discriminate.
  - reflexivity.
  - discriminate.
  - reflexivity.
  - reflexivity.
  - compute_done.
  - apply Forall_cons_2; [|apply Forall_nil_2]. intros f Hf.
    assert (f = File (B "aaaXbbbXccc") 420%N) as ->.
    { unfold fs_X in Hf. rewrite lookup_singleton_eq in Hf. congruence. }
    vm_compute. repeat split; discriminate.
  - apply Forall_cons_2; [|apply Forall_nil_2].
    apply (valid_utf8_rune _ _ 1%nat); [reflexivity|apply valid_utf8_nil].
  - vm_compute. apply Forall_cons_2; [reflexivity|].
    apply Forall_cons_2; [reflexivity|apply Forall_nil_2].
  - vm_compute. reflexivity.
  - intros cmd args text. unfold env_of, types. cbn [Command].
    rewrite last_snoc, lookup_insert_eq. cbn. rewrite insert_insert_eq. reflexivity.
  - intros p f Hp Hf. apply list_elem_of_singleton in Hp as ->.
    assert (f = File (B "aaaXbbbXccc") 420%N) as ->.
    { unfold fs_X in Hf. rewrite lookup_singleton_eq in Hf. congruence. }
    vm_compute. discriminate.
  - split; [compute_done|]. intros path.
    assert (map Path (map (edited (fun m => if Pos m =? 3 then B "YY" else B "Z"))
                        (filter (fun m => (fun _ : Match => true) m = true)
                           (concat (map (found (re_byte "X") fs_X) ["f"%string]))))
            = ["f"%string; "f"%string]) as -> by (vm_compute; reflexivity).
    rewrite !elem_of_cons, !elem_of_nil. tauto.
  - exists fs'. split; [exact Hrun|]. split.
    + rewrite (Hin "f"%string (File (B "aaaXbbbXccc") 420%N));
        [vm_compute; reflexivity|left|reflexivity].
    + rewrite (Hout "/tmp/bed-1"%string); [reflexivity|].
      intros H. apply list_elem_of_singleton in H. discriminate.
Defined.

(** [visits] is [range_order] on the map [groupMatchesByPath] builds
    of a fresh slice of records. *)
Lemma visits_range_order ms m iter :
  groupMap (seq 0 (length ms)) ms ∅ = Ok m ->
  range_order m iter <-> visits iter ms.
Proof.
  intros Hm.
  assert (Hkeys : forall path, is_Some (m !! path) <-> path ∈ map Path ms).
  { intros path.
    rewrite (groupMap_keys ms (seq 0 (length ms)) ms (deref_seq ms) ∅ m Hm path).
    rewrite lookup_empty.
    pose proof (deref_group path ms) as Hd. apply Forall2_length in Hd.
    split.
    - intros [[x Hx]|Hne]; [discriminate|].
      destruct (filter (fun r => Path r = path) ms) as [|r l] eqn:E.
      + destruct (group ms (seq 0 (length ms)) path); [contradiction|discriminate].
      + assert (Hr : r ∈ filter (fun r => Path r = path) ms) by (rewrite E; left).
        apply list_elem_of_filter in Hr as [Hp Hr].
        apply list_elem_of_fmap. exists r. split; [symmetry; exact Hp|exact Hr].
    - intros Hin. right. apply list_elem_of_fmap in Hin as (r & -> & Hr).
      assert (Hf : r ∈ filter (fun r' => Path r' = Path r) ms)
        by (apply list_elem_of_filter; split; [reflexivity|exact Hr]).
      intros Hnil. rewrite Hnil in Hd.
      destruct (filter (fun r' => Path r' = Path r) ms); [inversion Hf|discriminate]. }
  unfold range_order, visits. split; intros [Hnd H]; (split; [exact Hnd|]);
    intros path; rewrite (H path); [|symmetry]; apply Hkeys.
Qed.

(** X13. A run that does not get through the editor and the decoding
    patches nothing: when the editor exits with an error, or the
    temporary file is gone after it, or [ParseMatches] rejects the
    text the editor has left (one header that [json.Unmarshal] does
    not accept is enough), the run returns an error and the files are
    as the editor has left them, the temporary file removed: no record
    of the text is applied, not even those of the blocks before the
    bad one. *)
Theorem Run_aborts_without_patching rt iter env fl fs pattern re paths tmp ok fs2 :
  scans env fl fs pattern re paths ->
  dryRun fl = false ->
  editor_of env <> ""%string ->
  TempFile env = Some tmp ->
  (forall cmd args text,
     Command env cmd (args ++ [tmp]) (<[tmp := File text 384%N]> fs) = (ok, fs2)) ->
  ok = false \/
    (exists e, (do buf <- ReadFile rt fs2 tmp; ParseMatches (elems buf)) = Err e) ->
  exists err, Run rt iter env fl fs = (Returned (Some err), delete tmp fs2, []).
Proof.
  intros Hscans Hdry Hed Htmp Hcmd Hbad.
  rewrite (Run_scanned rt iter env fl fs pattern re paths Hscans) by (right; exact Hed).
  cbn zeta. rewrite Hdry. unfold editAndApply. rewrite Htmp.
  destruct (writeTempMatchFile_total (concat (map (found re fs) paths))) as [text Htext].
  rewrite (createTempMatchFile_text tmp _ fs text Htext).
  destruct (parseEditor_total (editor_of env)) as (cmd & args & ->).
  rewrite Hcmd. destruct Hbad as [-> | [e Hbad]]; [eauto|].
  destruct ok; [|eauto].
  destruct (ReadFile rt fs2 tmp) as [buf|e'|]; cbn [res_bind] in Hbad;
    [|eauto|discriminate].
  rewrite Hbad. eauto.
Qed.

Lemma Run_aborts_without_patching_witness :
  exists err,
    Run rt0 ["f"%string] (env_of (types (T "#bed:begin {'path':1}|YY|#bed:end|")))
      (Flags false false ["X"%string; "f"%string]) fs_X
    = (Returned (Some err), fs_X, []).
Proof.
  destruct (Run_aborts_without_patching rt0 ["f"%string]
              (env_of (types (T "#bed:begin {'path':1}|YY|#bed:end|")))
              (Flags false false ["X"%string; "f"%string]) fs_X "X" (re_byte "X")
              ["f"%string] "/tmp/bed-1" true
              (<["/tmp/bed-1"%string :=
                   File (T "#bed:begin {'path':1}|YY|#bed:end|") 384%N]> fs_X))
    as [err Hrun].
  - split; [reflexivity|]. split; [discriminate|]. split; [reflexivity|].
    split; [reflexivity|].
    apply Forall_cons_2; [|apply Forall_nil_2].
    exists (File (B "aaaXbbbXccc") 420%N). split; [reflexivity|].
    split; [vm_compute; discriminate|]. unfold spans_ok. vm_compute.
    repeat constructor; discriminate.
  - reflexivity.
  - discriminate.
  - reflexivity.
  - intros cmd args text. unfold env_of, types. cbn [Command].
    rewrite last_snoc, lookup_insert_eq. cbn. rewrite insert_insert_eq. reflexivity.
  - right. exists ErrJSON. vm_compute. reflexivity.
  - exists err. rewrite Hrun.
    rewrite delete_insert_id by reflexivity. reflexivity.
Defined.
